(** * mathWordParserService: a shallow embedding of the exam parser

    The TypeScript service turns the paragraphs of a Word document into a
    three-section exam.  This development embeds its pure core
    (text normalisation and sanitising, section detection, the three section
    parsers, the assembler and the validation pass) and states the
    properties of the specification over it.  It also embeds the two
    extraction passes that feed the parsers (paragraphs from the document
    tree, images from the archive) and, from the scoring service, the
    detection of the sections of a question list and the normalisation of
    short answers.

    JavaScript strings are sequences of UTF-16 code units; they are modelled
    as [list N].  Regular expressions are embedded as syntax trees run by a
    backtracking matcher that follows the ECMAScript matching order
    (priority of alternatives, greedy and lazy quantifiers, captures,
    negative look-ahead, the [i] flag). *)

From Stdlib Require Import List NArith ZArith Bool Lia String Ascii Arith ZifyBool.
From Stdlib Require Import Sorted Permutation.
Import ListNotations.

Local Open Scope string_scope.
Local Open Scope list_scope.
Local Open Scope N_scope.

Set Implicit Arguments.

(** ** Code units and string literals *)

Definition jsstring := list N.

(** Literals are written as UTF-8 Rocq strings and decoded to code units
    (one, two and three byte sequences, that is the whole Basic Multilingual
    Plane; the source uses nothing else in the code that is embedded). *)
Fixpoint utf8 (s : string) : jsstring :=
  match s with
  | EmptyString => []
  | String a s1 =>
      let b := N_of_ascii a in
      if b <? 128 then b :: utf8 s1
      else match s1 with
           | EmptyString => []
           | String a2 s2 =>
               let b2 := N_of_ascii a2 - 128 in
               if b <? 224 then ((b - 192) * 64 + b2) :: utf8 s2
               else match s2 with
                    | EmptyString => []
                    | String a3 s3 =>
                        ((b - 224) * 4096 + b2 * 64 + (N_of_ascii a3 - 128)) :: utf8 s3
                    end
           end
  end.

Definition jsstring_eqb (a b : jsstring) : bool :=
  if list_eq_dec N.eq_dec a b then true else false.

(** [WhiteSpace] and [LineTerminator] of ECMAScript: what [\s] matches and
    what [String.prototype.trim] removes. *)
Definition ws_ranges : list (N * N) :=
  [(9, 13); (32, 32); (160, 160); (5760, 5760); (8192, 8202); (8232, 8233);
   (8239, 8239); (8287, 8287); (12288, 12288); (65279, 65279)].

Definition in_ranges (rs : list (N * N)) (c : N) : bool :=
  existsb (fun r => (fst r <=? c) && (c <=? snd r)) rs.

Definition isSpace (c : N) : bool := in_ranges ws_ranges c.

Definition isLineTerminator (c : N) : bool :=
  (c =? 10) || (c =? 13) || (c =? 8232) || (c =? 8233).

Fixpoint trimStart (s : jsstring) : jsstring :=
  match s with
  | c :: s1 => if isSpace c then trimStart s1 else s
  | [] => []
  end.

Definition trimEnd (s : jsstring) : jsstring := rev (trimStart (rev s)).

Definition trim (s : jsstring) : jsstring := trimEnd (trimStart s).

(** Case mapping of one code unit.  The tables are those of the Basic Latin,
    Latin-1 and Vietnamese (Latin Extended Additional) blocks and of the
    letter D with stroke, which hold every letter of the patterns below;
    other code units are left as they are.  [toUpperCase] and
    [toLowerCase] are applied below to the letter a pattern captures with
    [[A-D]] or [[a-d]] and to the extension of a file name that is looked up
    in a table of ASCII names; free text is never mapped with them:
    [Scoring.normalizeAnswer] takes the case mapping of the platform as a
    parameter. *)
Definition toUpperUnit (c : N) : N :=
  if (97 <=? c) && (c <=? 122) then c - 32
  else if (224 <=? c) && (c <=? 254) && negb (c =? 247) then c - 32
  else if c =? 255 then 376
  else if c =? 273 then 272
  else if (7840 <=? c) && (c <=? 7935) && N.odd c then c - 1
  else c.

Definition toLowerUnit (c : N) : N :=
  if (65 <=? c) && (c <=? 90) then c + 32
  else if (192 <=? c) && (c <=? 222) && negb (c =? 215) then c + 32
  else if c =? 376 then 255
  else if c =? 272 then 273
  else if (7840 <=? c) && (c <=? 7935) && N.even c then c + 1
  else c.

Definition toUpperCase (s : jsstring) : jsstring := map toUpperUnit s.
Definition toLowerCase (s : jsstring) : jsstring := map toLowerUnit s.

(** [Array.prototype.join]. *)
Fixpoint join (sep : jsstring) (l : list jsstring) : jsstring :=
  match l with
  | [] => []
  | [x] => x
  | x :: l1 => x ++ sep ++ join sep l1
  end.

(** Decimal rendering of a number, as in a template literal. *)
Fixpoint digitsOf (fuel : nat) (n : N) (acc : jsstring) : jsstring :=
  match fuel with
  | O => acc
  | S f =>
      let acc1 := (48 + n mod 10) :: acc in
      if n <? 10 then acc1 else digitsOf f (n / 10) acc1
  end.

Definition stringOfN (n : N) : jsstring := digitsOf (S (N.to_nat (N.log2 n))) n [].

Definition stringOfZ (z : Z) : jsstring :=
  match z with
  | Zneg p => 45 :: stringOfN (Npos p)
  | _ => stringOfN (Z.to_N z)
  end.

(** [parseInt] on a run of decimal digits (the only use in the source is on
    the capture of [\d+]).  The value is exact; a JavaScript number agrees
    with it below 2^53, which covers every run of at most fifteen digits
    (lemmas [parseInt_upper] and [questionLine_safe]); from 2^53 on the code
    rounds to the nearest double and this function does not. *)
Definition parseInt (s : jsstring) : Z :=
  fold_left (fun acc c => acc * 10 + (Z.of_N c - 48))%Z s 0%Z.

(** ** Regular expressions *)

Inductive regex : Type :=
| Eps
| Chr (c : N)
| Cls (rs : list (N * N))
| Dot
| All
| Bol
| Eol
| Seq (r1 r2 : regex)
| Alt (r1 r2 : regex)
| Rep (greedy : bool) (lo : nat) (hi : option nat) (r : regex)
| Grp (i : nat) (r : regex)
| NLook (r : regex).

Definition caps := list (nat * jsstring).

Fixpoint cap (i : nat) (cs : caps) : option jsstring :=
  match cs with
  | [] => None
  | (j, v) :: cs1 => if Nat.eqb i j then Some v else cap i cs1
  end.

(** A match result: end position, rest of the input, captures. *)
Definition mresult : Type := nat * jsstring * caps.
Definition cont : Type := nat -> jsstring -> caps -> option mresult.

Definition ret : cont := fun p s cs => Some (p, s, cs).

(** [Canonicalize] of the specification is [toUpperUnit] when the [i] flag
    is set. *)
Definition chrMatches (ic : bool) (c x : N) : bool :=
  if ic then toUpperUnit c =? toUpperUnit x else c =? x.

(** A class matches under [i] when some member has the canonical form of
    the input unit: the unit itself or its case counterpart. *)
Definition clsMatches (ic : bool) (rs : list (N * N)) (x : N) : bool :=
  if ic then in_ranges rs x || in_ranges rs (toUpperUnit x) || in_ranges rs (toLowerUnit x)
  else in_ranges rs x.

Definition below (hi : option nat) (n : nat) : bool :=
  match hi with
  | None => true
  | Some h => Nat.ltb n h
  end.

(** [RepeatMatcher]: [m] matches the quantified atom, [n] counts the
    iterations done.  An iteration that consumes nothing once the lower
    bound is reached fails, so every later iteration consumes a unit and
    the fuel the matcher gives, [length s + lo + 1], is never exhausted
    (lemma [rmatch_rep_enough_fuel]). *)
Fixpoint repeatMatcher (m : cont -> cont) (g : bool) (lo : nat) (hi : option nat)
  (k : cont) (fuel n : nat) (p : nat) (t : jsstring) (c : caps) {struct fuel}
  : option mresult :=
  match fuel with
  | O => None
  | S fuel1 =>
      let again (_ : unit) :=
        if below hi n then
          m (fun p1 t1 c1 =>
               if Nat.leb lo n && Nat.eqb p1 p then None
               else repeatMatcher m g lo hi k fuel1 (S n) p1 t1 c1)
            p t c
        else None in
      let stop (_ : unit) := if Nat.leb lo n then k p t c else None in
      if g then
        match again tt with
        | Some res => Some res
        | None => stop tt
        end
      else
        match stop tt with
        | Some res => Some res
        | None => again tt
        end
  end.

(** The matcher is written in continuation-passing style, like the
    matchers of the language specification: [rmatch ic r k pos s cs]
    matches [r] at the head of [s], whose first unit has index [pos] in the
    whole input, and hands the rest to [k]; [None] is failure and makes the
    caller backtrack.  No pattern of the source has a capture group under a
    quantifier, so captures are not reset between iterations. *)
Fixpoint rmatch (ic : bool) (r : regex) (k : cont) (pos : nat) (s : jsstring)
  (cs : caps) {struct r} : option mresult :=
  match r with
  | Eps => k pos s cs
  | Chr c =>
      match s with
      | x :: s1 => if chrMatches ic c x then k (S pos) s1 cs else None
      | [] => None
      end
  | Cls rs =>
      match s with
      | x :: s1 => if clsMatches ic rs x then k (S pos) s1 cs else None
      | [] => None
      end
  | Dot =>
      match s with
      | x :: s1 => if isLineTerminator x then None else k (S pos) s1 cs
      | [] => None
      end
  | All =>
      match s with
      | _ :: s1 => k (S pos) s1 cs
      | [] => None
      end
  | Bol => if Nat.eqb pos 0 then k pos s cs else None
  | Eol => match s with [] => k pos s cs | _ :: _ => None end
  | Seq r1 r2 => rmatch ic r1 (rmatch ic r2 k) pos s cs
  | Alt r1 r2 =>
      match rmatch ic r1 k pos s cs with
      | Some res => Some res
      | None => rmatch ic r2 k pos s cs
      end
  | Grp i r1 =>
      rmatch ic r1 (fun p1 s1 cs1 => k p1 s1 ((i, firstn (p1 - pos) s) :: cs1)) pos s cs
  | NLook r1 =>
      match rmatch ic r1 ret pos s cs with
      | Some _ => None
      | None => k pos s cs
      end
  | Rep g lo hi r1 =>
      repeatMatcher (rmatch ic r1) g lo hi k (List.length s + lo + 1) O pos s cs
  end.

(** [RegExp.prototype.exec] from a start index: the first position at which
    the pattern matches, with the match. *)
Fixpoint searchFrom (ic : bool) (r : regex) (pos : nat) (s : jsstring)
  : option (nat * mresult) :=
  match rmatch ic r ret pos s [] with
  | Some res => Some (pos, res)
  | None =>
      match s with
      | [] => None
      | _ :: s1 => searchFrom ic r (S pos) s1
      end
  end.

(** [String.prototype.match] with a non-global pattern: the captures of the
    first match. *)
Definition jsmatch (ic : bool) (r : regex) (s : jsstring) : option caps :=
  match searchFrom ic r 0 s with
  | Some (_, (_, _, cs)) => Some cs
  | None => None
  end.

(** [RegExp.prototype.test]. *)
Definition test (ic : bool) (r : regex) (s : jsstring) : bool :=
  match searchFrom ic r 0 s with
  | Some _ => true
  | None => false
  end.

(** Pattern building blocks. *)
Fixpoint lit (s : jsstring) : regex :=
  match s with
  | [] => Eps
  | [c] => Chr c
  | c :: s1 => Seq (Chr c) (lit s1)
  end.

Fixpoint seqs (l : list regex) : regex :=
  match l with
  | [] => Eps
  | [r] => r
  | r :: l1 => Seq r (seqs l1)
  end.

Definition star (r : regex) : regex := Rep true 0 None r.
Definition plus (r : regex) : regex := Rep true 1 None r.
Definition lazyStar (r : regex) : regex := Rep false 0 None r.
Definition atLeast (n : nat) (r : regex) : regex := Rep true n None r.
Definition opt (r : regex) : regex := Rep true 0 (Some 1%nat) r.
Definition ws : regex := Cls ws_ranges.
Definition digit : regex := Cls [(48, 57)].
Definition oneOf (s : jsstring) : regex := Cls (map (fun c => (c, c)) s).

Fixpoint ngroups (r : regex) : nat :=
  match r with
  | Seq r1 r2 | Alt r1 r2 => (ngroups r1 + ngroups r2)%nat
  | Rep _ _ _ r1 | NLook r1 => ngroups r1
  | Grp _ r1 => S (ngroups r1)
  | _ => O
  end.

(** ** Replacement *)

Definition isDigitUnit (c : N) : bool := (48 <=? c) && (c <=? 57).

Definition capText (i : nat) (cs : caps) : jsstring :=
  match cap i cs with
  | Some v => v
  | None => []
  end.

(** [GetSubstitution]: the expansion of a replacement string.  [m] is the
    number of capture groups of the pattern (0 for a string pattern),
    [matched], [before] and [after] the matched text and the input around
    it.  There are no named groups, so [$<] stays as it is. *)
Fixpoint getSubstitution (m : nat) (cs : caps) (matched before after : jsstring)
  (t : jsstring) : jsstring :=
  match t with
  | [] => []
  | c :: t0 =>
      if negb (c =? 36) then c :: getSubstitution m cs matched before after t0
      else
        match t0 with
        | [] => [36]
        | d :: t1 =>
            if d =? 36 then 36 :: getSubstitution m cs matched before after t1
            else if d =? 38 then matched ++ getSubstitution m cs matched before after t1
            else if d =? 96 then before ++ getSubstitution m cs matched before after t1
            else if d =? 39 then after ++ getSubstitution m cs matched before after t1
            else if isDigitUnit d then
              let one := N.to_nat (d - 48) in
              let single (_ : unit) :=
                if Nat.leb 1 one && Nat.leb one m
                then capText one cs ++ getSubstitution m cs matched before after t1
                else 36 :: d :: getSubstitution m cs matched before after t1 in
              match t1 with
              | e :: t2 =>
                  if isDigitUnit e then
                    let two := (one * 10 + N.to_nat (e - 48))%nat in
                    if Nat.ltb m two then single tt
                    else if Nat.leb 1 two
                    then capText two cs ++ getSubstitution m cs matched before after t2
                    else 36 :: d :: e :: getSubstitution m cs matched before after t2
                  else single tt
              | [] => single tt
              end
            else 36 :: getSubstitution m cs matched before after t0
        end
  end.

(** [String.prototype.replace] with a global pattern.  The replacer receives
    the caller's state (the closure variables a function replacer updates),
    the captures, the matched text and the input before and after it.  After
    an empty match the scan moves one unit forward.  The fuel, one more
    than the length of the text, is never exhausted (lemma
    [replaceFrom_fuel]). *)
Section ReplaceGlobal.
Variable St : Type.
Variable ic : bool.
Variable r : regex.
Variable replacer : St -> caps -> jsstring -> jsstring -> jsstring -> St * jsstring.
Variable whole : jsstring.

Fixpoint replaceFrom (fuel : nat) (st : St) (pos : nat) (s : jsstring)
  : St * jsstring :=
  match fuel with
  | O => (st, s)
  | S fuel1 =>
      match searchFrom ic r pos s with
      | None => (st, s)
      | Some (start, (stop, rest, cs)) =>
          let between := firstn (start - pos) s in
          let matched := firstn (stop - start) (skipn (start - pos) s) in
          let '(st1, sub) := replacer st cs matched (firstn start whole) rest in
          if Nat.eqb stop start then
            match rest with
            | [] => (st1, between ++ sub)
            | c :: rest1 =>
                let '(st2, out) := replaceFrom fuel1 st1 (S stop) rest1 in
                (st2, between ++ sub ++ c :: out)
            end
          else
            let '(st2, out) := replaceFrom fuel1 st1 stop rest in
            (st2, between ++ sub ++ out)
      end
  end.
End ReplaceGlobal.

Definition replaceWith (St : Type) (ic : bool) (r : regex)
  (replacer : St -> jsstring -> St * jsstring) (st : St) (s : jsstring)
  : St * jsstring :=
  replaceFrom ic r (fun st0 _ matched _ _ => replacer st0 matched) s
    (S (List.length s)) st 0 s.

Definition replaceAll (ic : bool) (r : regex) (template : jsstring) (s : jsstring)
  : jsstring :=
  snd (replaceFrom ic r
         (fun (_ : unit) cs matched before after =>
            (tt, getSubstitution (ngroups r) cs matched before after template))
         s (S (List.length s)) tt 0 s).

(** [String.prototype.replace] with a string pattern: the first occurrence
    only, and the replacement string is still expanded. *)
Fixpoint isPrefix (p s : jsstring) : bool :=
  match p, s with
  | [], _ => true
  | a :: p1, b :: s1 => (a =? b) && isPrefix p1 s1
  | _ :: _, [] => false
  end.

Fixpoint splitAt (p : jsstring) (before s : jsstring) : option (jsstring * jsstring) :=
  if isPrefix p s then Some (rev before, skipn (List.length p) s)
  else match s with
       | [] => None
       | c :: s1 => splitAt p (c :: before) s1
       end.

Definition includes (s p : jsstring) : bool :=
  match splitAt p [] s with
  | Some _ => true
  | None => false
  end.

Definition replaceString (p template s : jsstring) : jsstring :=
  match splitAt p [] s with
  | Some (before, after) => before ++ getSubstitution 0 [] p before after template ++ after
  | None => s
  end.

(** ** Text normalisation ([normalizeLatex]) *)

Definition blockMathPattern : regex :=
  seqs [lit (utf8 "\["); Grp 1 (lazyStar All); lit (utf8 "\]")].
Definition inlineMathPattern : regex :=
  seqs [lit (utf8 "\("); Grp 1 (lazyStar All); lit (utf8 "\)")].
Definition beginAlignPattern : regex :=
  seqs [lit (utf8 "\begin{align"); opt (Chr 42); Chr 125].
Definition endAlignPattern : regex :=
  seqs [lit (utf8 "\end{align"); opt (Chr 42); Chr 125].
Definition dollarRunPattern : regex := atLeast 3 (Chr 36).
Definition blanksPattern : regex := plus (Cls [(32, 32); (9, 9)]).
Definition newlineRunPattern : regex := atLeast 3 (Chr 10).

(** The first two steps of [normalizeLatex], on their own. *)
Definition rewriteBlockMath (s : jsstring) : jsstring :=
  replaceAll false blockMathPattern (utf8 "$$$$1$$$$") s.
Definition rewriteInlineMath (s : jsstring) : jsstring :=
  replaceAll false inlineMathPattern (utf8 "$$$1$$") s.
Definition collapseDollars (s : jsstring) : jsstring :=
  replaceAll false dollarRunPattern (utf8 "$$") s.

Definition normalizeLatex (text : jsstring) : jsstring :=
  match text with
  | [] => []
  | _ =>
      let s := rewriteBlockMath text in
      let s := rewriteInlineMath s in
      let s := replaceAll false beginAlignPattern (utf8 "\begin{aligned}") s in
      let s := replaceAll false endAlignPattern (utf8 "\end{aligned}") s in
      let s := collapseDollars s in
      let s := replaceAll false blanksPattern (utf8 " ") s in
      let s := replaceAll false newlineRunPattern [10; 10] s in
      trim s
  end.

(** ** Text sanitising ([escapeHtmlPreserveLaTeX]) *)

Definition blockRegionPattern : regex :=
  seqs [lit (utf8 "$$"); Grp 1 (lazyStar All); lit (utf8 "$$")].
Definition inlineRegionPattern : regex :=
  seqs [Chr 36; NLook (Chr 36); Grp 1 (lazyStar All); Chr 36; NLook (Chr 36)].

Definition placeholder (i : nat) : jsstring :=
  utf8 "__LATEX_BLOCK_" ++ stringOfN (N.of_nat i) ++ utf8 "__".

(** The closure [protectLatex]: it pushes the match on [latexBlocks] and
    returns the placeholder of its index. *)
Definition protectLatex (latexBlocks : list jsstring) (m : jsstring)
  : list jsstring * jsstring :=
  let latexBlocks1 := latexBlocks ++ [m] in
  (latexBlocks1, placeholder (List.length latexBlocks1 - 1)).

(** The restoring loop [for (i = 0; i < latexBlocks.length; i++)]. *)
Fixpoint restoreBlocks (i : nat) (blocks : list jsstring) (text : jsstring) : jsstring :=
  match blocks with
  | [] => text
  | b :: blocks1 => restoreBlocks (S i) blocks1 (replaceString (placeholder i) b text)
  end.

Definition escapeHtmlPreserveLaTeX (text : jsstring) : jsstring :=
  match text with
  | [] => []
  | _ =>
      let '(blocks, text) := replaceWith false blockRegionPattern protectLatex [] text in
      let '(blocks, text) := replaceWith false inlineRegionPattern protectLatex blocks text in
      let text := replaceAll false (Chr 38) (utf8 "&amp;") text in
      let text := replaceAll false (Chr 60) (utf8 "&lt;") text in
      let text := replaceAll false (Chr 62) (utf8 "&gt;") text in
      restoreBlocks 0 blocks text
  end.

(** ** Data model *)

Definition isEmpty (s : jsstring) : bool :=
  match s with
  | [] => true
  | _ :: _ => false
  end.

(** Truthiness of a string and of a nullable string. *)
Definition truthy (s : jsstring) : bool := negb (isEmpty s).
Definition truthyOpt (o : option jsstring) : bool :=
  match o with
  | Some s => truthy s
  | None => false
  end.

Definition nonEmptyList (A : Type) (l : list A) : bool :=
  match l with
  | [] => false
  | _ :: _ => true
  end.

(** Modelled from the spec: [types.ts] is not among the sources; the fields
    of [ImageData] are those the image extraction writes. *)
Record ImageData : Type := {
  img_id : jsstring;
  img_filename : jsstring;
  img_base64 : jsstring;
  img_contentType : jsstring;
  img_rId : jsstring
}.

(** Modelled from the spec: [types.ts] is not among the sources; the fields
    of [QuestionOption] are those the parsers write. *)
Record QuestionOption : Type := {
  opt_letter : jsstring;
  opt_text : jsstring
}.

Inductive QuestionType : Type :=
| multiple_choice
| true_false
| short_answer
| writing
| unknown.

Record ParsedQuestion : Type := {
  pq_number : Z;
  pq_globalIndex : Z;
  pq_part : Z;
  pq_type : QuestionType;
  pq_text : jsstring;
  pq_options : list QuestionOption;
  pq_correctAnswer : option jsstring;
  pq_solution : jsstring;
  pq_images : list ImageData
}.

Record ParagraphData : Type := {
  para_text : jsstring;
  para_imageRIds : list jsstring;
  para_hasUnderline : bool;
  para_underlinedSegments : list jsstring
}.

(** Field assignments on the question object. *)
Definition setText (q : ParsedQuestion) (v : jsstring) : ParsedQuestion :=
  {| pq_number := pq_number q; pq_globalIndex := pq_globalIndex q; pq_part := pq_part q;
     pq_type := pq_type q; pq_text := v; pq_options := pq_options q;
     pq_correctAnswer := pq_correctAnswer q; pq_solution := pq_solution q;
     pq_images := pq_images q |}.

Definition setOptions (q : ParsedQuestion) (v : list QuestionOption) : ParsedQuestion :=
  {| pq_number := pq_number q; pq_globalIndex := pq_globalIndex q; pq_part := pq_part q;
     pq_type := pq_type q; pq_text := pq_text q; pq_options := v;
     pq_correctAnswer := pq_correctAnswer q; pq_solution := pq_solution q;
     pq_images := pq_images q |}.

Definition setCorrectAnswer (q : ParsedQuestion) (v : option jsstring) : ParsedQuestion :=
  {| pq_number := pq_number q; pq_globalIndex := pq_globalIndex q; pq_part := pq_part q;
     pq_type := pq_type q; pq_text := pq_text q; pq_options := pq_options q;
     pq_correctAnswer := v; pq_solution := pq_solution q;
     pq_images := pq_images q |}.

Definition setSolution (q : ParsedQuestion) (v : jsstring) : ParsedQuestion :=
  {| pq_number := pq_number q; pq_globalIndex := pq_globalIndex q; pq_part := pq_part q;
     pq_type := pq_type q; pq_text := pq_text q; pq_options := pq_options q;
     pq_correctAnswer := pq_correctAnswer q; pq_solution := v;
     pq_images := pq_images q |}.

Definition setImages (q : ParsedQuestion) (v : list ImageData) : ParsedQuestion :=
  {| pq_number := pq_number q; pq_globalIndex := pq_globalIndex q; pq_part := pq_part q;
     pq_type := pq_type q; pq_text := pq_text q; pq_options := pq_options q;
     pq_correctAnswer := pq_correctAnswer q; pq_solution := pq_solution q;
     pq_images := v |}.

(** The object literal a question marker creates. *)
Definition newQuestion (qNum part : Z) (ty : QuestionType) : ParsedQuestion :=
  {| pq_number := qNum; pq_globalIndex := 0; pq_part := part; pq_type := ty;
     pq_text := []; pq_options := []; pq_correctAnswer := None; pq_solution := [];
     pq_images := [] |}.

(** ** Helpers: [attachImages] *)

(** The asset of a relationship id: by [rId] first, else the first asset
    whose file name occurs in the id. *)
Definition resolveImage (images : list ImageData) (rId : jsstring) : option ImageData :=
  match find (fun i => jsstring_eqb (img_rId i) rId) images with
  | Some img => Some img
  | None => find (fun image => truthy (img_filename image) && includes rId (img_filename image)) images
  end.

Definition hasImage (l : list ImageData) (img : ImageData) : bool :=
  existsb (fun i => jsstring_eqb (img_id i) (img_id img)) l.

Definition attachOne (images : list ImageData) (l : list ImageData) (rId : jsstring)
  : list ImageData :=
  match resolveImage images rId with
  | Some img => if hasImage l img then l else l ++ [img]
  | None => l
  end.

Definition attachImages (q : ParsedQuestion) (rIds : list jsstring) (images : list ImageData)
  : ParsedQuestion :=
  setImages q (fold_left (attachOne images) rIds (pq_images q)).

(** [if (imageRIds.length > 0) attachImages(currentQ, imageRIds, images)]. *)
Definition attachIfAny (q : ParsedQuestion) (rIds : list jsstring) (images : list ImageData)
  : ParsedQuestion :=
  if nonEmptyList rIds then attachImages q rIds images else q.

(** [questions.sort((a, b) => a.number - b.number)]: the sort is stable. *)
Fixpoint insertByNumber (q : ParsedQuestion) (l : list ParsedQuestion) : list ParsedQuestion :=
  match l with
  | [] => [q]
  | x :: l1 => if (pq_number q <? pq_number x)%Z then q :: l else x :: insertByNumber q l1
  end.

Definition sortByNumber (l : list ParsedQuestion) : list ParsedQuestion :=
  fold_left (fun acc q => insertByNumber q acc) l [].

(** [paragraphs[i]] for [startIdx <= i < endIdx]; the callers never pass an
    end beyond the length of the array. *)
Definition slice (A : Type) (l : list A) (startIdx endIdx : Z) : list A :=
  firstn (Z.to_nat (endIdx - startIdx)) (skipn (Z.to_nat startIdx) l).

(** ** Patterns shared by the section parsers *)

Definition questionPattern : regex :=
  seqs [Bol; Chr 67; Alt (lit (utf8 "âu")) (lit (utf8 "au")); star ws;
        Grp 1 (plus digit); star ws; oneOf (utf8 ".:"); star ws; Grp 2 (star Dot)].

Definition solutionPattern : regex :=
  seqs [Bol; Chr 76; Alt (lit (utf8 "ời")) (lit (utf8 "oi")); star ws;
        lit (utf8 "gi"); Alt (lit (utf8 "ải")) (lit (utf8 "ai"))].

Definition figurePattern : regex :=
  seqs [Bol; Chr 72; Alt (lit (utf8 "ình")) (lit (utf8 "inh")); star ws; plus digit].

Definition phanPattern : regex := seqs [lit (utf8 "PHẦN"); star ws; digit].
Definition phanAsciiPattern : regex := seqs [lit (utf8 "PHAN"); star ws; digit].

Definition isQuestionLine (text : jsstring) : option caps := jsmatch true questionPattern text.
Definition isSolutionMarker (text : jsstring) : bool := test true solutionPattern text.
Definition isFigure (text : jsstring) : bool := test true figurePattern text.
Definition isPartHeader (text : jsstring) : bool :=
  test true phanPattern text || test true phanAsciiPattern text.

(** [contentBuffer.join(' ').trim()]. *)
Definition joinTrim (buf : list jsstring) : jsstring := trim (join [32] buf).

(** ** Section 1: multiple choice ([parsePart1WithUnderline]) *)

Module Part1.

Definition optionPattern : regex :=
  seqs [Bol; star ws; Grp 1 (Cls [(65, 68)]); star ws; oneOf (utf8 ".)"); star ws;
        Grp 2 (star Dot)].

Definition answerPattern : regex :=
  seqs [lit (utf8 "Ch"); Alt (lit (utf8 "ọn")) (lit (utf8 "on")); star ws;
        Grp 1 (Cls [(65, 68)])].

Definition singleLetterPattern : regex := seqs [Bol; Cls [(65, 68)]; Eol].

Definition tracNghiemPattern : regex :=
  seqs [lit (utf8 "Trắc"); star ws; lit (utf8 "nghiệm")].
Definition tracNghiemAsciiPattern : regex :=
  seqs [lit (utf8 "Trac"); star ws; lit (utf8 "nghiem")].

Definition isSectionHeader (text : jsstring) : bool :=
  test true phanPattern text || test true phanAsciiPattern text
  || test true tracNghiemPattern text || test true tracNghiemAsciiPattern text.

Definition isSingleLetter (l : jsstring) : bool := test true singleLetterPattern l.

(** The local variables of the loop. *)
Record State : Type := {
  questions : list ParsedQuestion;
  currentQ : option ParsedQuestion;
  collectingContent : bool;
  contentBuffer : list jsstring;
  inSolution : bool;
  solutionBuffer : list jsstring;
  currentQuestionUnderlinedLetters : list jsstring;
  currentOptionIndex : Z;
  startedOptions : bool
}.

Definition init : State :=
  {| questions := []; currentQ := None; collectingContent := false; contentBuffer := [];
     inSolution := false; solutionBuffer := []; currentQuestionUnderlinedLetters := [];
     currentOptionIndex := -1; startedOptions := false |}.

Definition withCurrentQ (st : State) (q : ParsedQuestion) : State :=
  {| questions := questions st; currentQ := Some q;
     collectingContent := collectingContent st; contentBuffer := contentBuffer st;
     inSolution := inSolution st; solutionBuffer := solutionBuffer st;
     currentQuestionUnderlinedLetters := currentQuestionUnderlinedLetters st;
     currentOptionIndex := currentOptionIndex st; startedOptions := startedOptions st |}.

Definition withLetters (st : State) (l : list jsstring) : State :=
  {| questions := questions st; currentQ := currentQ st;
     collectingContent := collectingContent st; contentBuffer := contentBuffer st;
     inSolution := inSolution st; solutionBuffer := solutionBuffer st;
     currentQuestionUnderlinedLetters := l;
     currentOptionIndex := currentOptionIndex st; startedOptions := startedOptions st |}.

Definition withContentBuffer (st : State) (b : list jsstring) : State :=
  {| questions := questions st; currentQ := currentQ st;
     collectingContent := collectingContent st; contentBuffer := b;
     inSolution := inSolution st; solutionBuffer := solutionBuffer st;
     currentQuestionUnderlinedLetters := currentQuestionUnderlinedLetters st;
     currentOptionIndex := currentOptionIndex st; startedOptions := startedOptions st |}.

Definition withSolutionBuffer (st : State) (b : list jsstring) : State :=
  {| questions := questions st; currentQ := currentQ st;
     collectingContent := collectingContent st; contentBuffer := contentBuffer st;
     inSolution := inSolution st; solutionBuffer := b;
     currentQuestionUnderlinedLetters := currentQuestionUnderlinedLetters st;
     currentOptionIndex := currentOptionIndex st; startedOptions := startedOptions st |}.

(** The answer taken from the underlined letters when none was set. *)
Definition inferAnswer (q : ParsedQuestion) (letters : list jsstring) : ParsedQuestion :=
  if negb (truthyOpt (pq_correctAnswer q)) && nonEmptyList letters then
    match find isSingleLetter letters with
    | Some underlinedAnswer =>
        if truthy underlinedAnswer
        then setCorrectAnswer q (Some (toUpperCase underlinedAnswer))
        else q
    | None => q
    end
  else q.

(** The block under [// flush prev] and [// flush last]: the question as it
    stands when it is closed. *)
Definition closeQuestion (st : State) (q : ParsedQuestion) : ParsedQuestion :=
  let q1 := if nonEmptyList (contentBuffer st) && isEmpty (pq_text q)
            then setText q (joinTrim (contentBuffer st)) else q in
  let q2 := if nonEmptyList (solutionBuffer st)
            then setSolution q1 (joinTrim (solutionBuffer st)) else q1 in
  inferAnswer q2 (currentQuestionUnderlinedLetters st).

Definition flush (st : State) : list ParsedQuestion :=
  match currentQ st with
  | Some q =>
      let q1 := closeQuestion st q in
      if truthy (pq_text q1) then questions st ++ [q1] else questions st
  | None => questions st
  end.

(** [currentQ.options[currentOptionIndex].text = (... + ' ' + text).trim()]. *)
Fixpoint appendToOption (opts : list QuestionOption) (i : nat) (text : jsstring)
  : list QuestionOption :=
  match opts, i with
  | [], _ => []
  | o :: opts1, O =>
      {| opt_letter := opt_letter o; opt_text := trim (opt_text o ++ [32] ++ text) |} :: opts1
  | o :: opts1, S i1 => o :: appendToOption opts1 i1 text
  end.

(** The letter of [currentQ.options[currentOptionIndex]].  The index is that
    of the last option pushed (lemmas [p1_index_in_range] and
    [p2_index_in_range]), so the out-of-range cases of these two functions
    are never reached. *)
Definition optionLetterAt (opts : list QuestionOption) (i : nat) : jsstring :=
  match nth_error opts i with
  | Some o => opt_letter o
  | None => []
  end.

(** The branch [// Multiline option continuation]. *)
Definition continuation (images : list ImageData) (st : State) (q : ParsedQuestion)
  (para : ParagraphData) : State :=
  let text := para_text para in
  let i := Z.to_nat (currentOptionIndex st) in
  let fig := isFigure text in
  let q1 := if fig then q else setOptions q (appendToOption (pq_options q) i text) in
  let letters :=
    if negb fig && para_hasUnderline para
    then currentQuestionUnderlinedLetters st ++ [optionLetterAt (pq_options q1) i]
    else currentQuestionUnderlinedLetters st in
  withLetters (withCurrentQ st (attachIfAny q1 (para_imageRIds para) images)) letters.

(** The last three blocks of the loop body: stem, solution, images. *)
Definition fallThrough (images : list ImageData) (st : State) (q : ParsedQuestion)
  (para : ParagraphData) : State :=
  let text := para_text para in
  let imageRIds := para_imageRIds para in
  let inStem := collectingContent st && truthy text && negb (inSolution st)
                && negb (startedOptions st) in
  if inStem && isFigure text then withCurrentQ st (attachIfAny q imageRIds images)
  else
    let st1 :=
      if inStem then
        withLetters (withContentBuffer st (contentBuffer st ++ [text]))
          (if para_hasUnderline para
           then currentQuestionUnderlinedLetters st ++ para_underlinedSegments para
           else currentQuestionUnderlinedLetters st)
      else st in
    let st2 :=
      if inSolution st1 && truthy text && negb (isFigure text)
      then withSolutionBuffer st1 (solutionBuffer st1 ++ [text]) else st1 in
    if nonEmptyList imageRIds && negb (inSolution st2)
    then withCurrentQ st2 (attachImages q imageRIds images) else st2.

(** One iteration of the loop on paragraph [para]. *)
Definition step (images : list ImageData) (st : State) (para : ParagraphData) : State :=
  let text := para_text para in
  let imageRIds := para_imageRIds para in
  if isEmpty text && negb (nonEmptyList imageRIds) then st
  else if isSectionHeader text then st
  else
    match isQuestionLine text with
    | Some qMatch =>
        let qNum := parseInt (capText 1 qMatch) in
        let restText := trim (capText 2 qMatch) in
        {| questions := flush st;
           currentQ := Some (attachIfAny (newQuestion qNum 1 multiple_choice) imageRIds images);
           collectingContent := true;
           contentBuffer := if truthy restText then [restText] else [];
           inSolution := false;
           solutionBuffer := [];
           currentQuestionUnderlinedLetters :=
             if para_hasUnderline para then para_underlinedSegments para else [];
           currentOptionIndex := -1;
           startedOptions := false |}
    | None =>
        match currentQ st with
        | None => st
        | Some q =>
            if isSolutionMarker text then
              let flushStem := nonEmptyList (contentBuffer st) && isEmpty (pq_text q) in
              {| questions := questions st;
                 currentQ := Some (if flushStem then setText q (joinTrim (contentBuffer st)) else q);
                 collectingContent := false;
                 contentBuffer := if flushStem then [] else contentBuffer st;
                 inSolution := true;
                 solutionBuffer := [];
                 currentQuestionUnderlinedLetters := currentQuestionUnderlinedLetters st;
                 currentOptionIndex := currentOptionIndex st;
                 startedOptions := startedOptions st |}
            else
              match jsmatch true answerPattern text with
              | Some chonMatch =>
                  withCurrentQ st (setCorrectAnswer q (Some (toUpperCase (capText 1 chonMatch))))
              | None =>
                  match (if collectingContent st then jsmatch true optionPattern text else None) with
                  | Some optMatch =>
                      let flushStem := negb (nonEmptyList (pq_options q)) && nonEmptyList (contentBuffer st) in
                      let q1 := if flushStem then setText q (joinTrim (contentBuffer st)) else q in
                      let letter := toUpperCase (capText 1 optMatch) in
                      let optText := trim (capText 2 optMatch) in
                      let opts := pq_options q1 ++ [{| opt_letter := letter; opt_text := optText |}] in
                      {| questions := questions st;
                         currentQ := Some (setOptions q1 opts);
                         collectingContent := collectingContent st;
                         contentBuffer := if flushStem then [] else contentBuffer st;
                         inSolution := inSolution st;
                         solutionBuffer := solutionBuffer st;
                         currentQuestionUnderlinedLetters :=
                           if para_hasUnderline para
                           then currentQuestionUnderlinedLetters st ++ [letter]
                           else currentQuestionUnderlinedLetters st;
                         currentOptionIndex := Z.of_nat (List.length opts) - 1;
                         startedOptions := true |}
                  | None =>
                      if collectingContent st && startedOptions st
                         && (0 <=? currentOptionIndex st)%Z && truthy text
                         && negb (inSolution st)
                      then continuation images st q para
                      else fallThrough images st q para
                  end
              end
        end
    end.

Definition run (images : list ImageData) (st : State) (ps : list ParagraphData) : State :=
  fold_left (step images) ps st.

Definition parsePart1WithUnderline (paragraphs : list ParagraphData) (startIdx endIdx : Z)
  (images : list ImageData) : list ParsedQuestion :=
  if (startIdx <? 0)%Z || (endIdx <=? startIdx)%Z then []
  else sortByNumber (flush (run images init (slice paragraphs startIdx endIdx))).

End Part1.

(** ** Section 2: true/false statements ([parsePart2]) *)

(** Comparison of strings by code units, the default order of
    [Array.prototype.sort]. *)
Fixpoint strLtb (a b : jsstring) : bool :=
  match a, b with
  | _, [] => false
  | [], _ :: _ => true
  | x :: a1, y :: b1 => (x <? y) || ((x =? y) && strLtb a1 b1)
  end.

Fixpoint insertStr (x : jsstring) (l : list jsstring) : list jsstring :=
  match l with
  | [] => [x]
  | y :: l1 => if strLtb x y then x :: l else y :: insertStr x l1
  end.

Definition sortStrings (l : list jsstring) : list jsstring :=
  fold_left (fun acc x => insertStr x acc) l [].

(** A [Set] of strings, in insertion order. *)
Definition setAdd (x : jsstring) (l : list jsstring) : list jsstring :=
  if existsb (jsstring_eqb x) l then l else l ++ [x].

Module Part2.

Definition statementPattern : regex :=
  seqs [Bol; star ws; Grp 1 (Cls [(97, 100)]); star ws; oneOf (utf8 ").");
        star ws; Grp 2 (star Dot)].

Record State : Type := {
  questions : list ParsedQuestion;
  currentQ : option ParsedQuestion;
  collectingContent : bool;
  contentBuffer : list jsstring;
  inSolution : bool;
  solutionBuffer : list jsstring;
  currentQuestionTrueStatements : list jsstring;
  currentStmtIndex : Z;
  startedStatements : bool
}.

Definition init : State :=
  {| questions := []; currentQ := None; collectingContent := false; contentBuffer := [];
     inSolution := false; solutionBuffer := []; currentQuestionTrueStatements := [];
     currentStmtIndex := -1; startedStatements := false |}.

Definition withCurrentQ (st : State) (q : ParsedQuestion) : State :=
  {| questions := questions st; currentQ := Some q;
     collectingContent := collectingContent st; contentBuffer := contentBuffer st;
     inSolution := inSolution st; solutionBuffer := solutionBuffer st;
     currentQuestionTrueStatements := currentQuestionTrueStatements st;
     currentStmtIndex := currentStmtIndex st; startedStatements := startedStatements st |}.

Definition withTrueStatements (st : State) (l : list jsstring) : State :=
  {| questions := questions st; currentQ := currentQ st;
     collectingContent := collectingContent st; contentBuffer := contentBuffer st;
     inSolution := inSolution st; solutionBuffer := solutionBuffer st;
     currentQuestionTrueStatements := l;
     currentStmtIndex := currentStmtIndex st; startedStatements := startedStatements st |}.

Definition withContentBuffer (st : State) (b : list jsstring) : State :=
  {| questions := questions st; currentQ := currentQ st;
     collectingContent := collectingContent st; contentBuffer := b;
     inSolution := inSolution st; solutionBuffer := solutionBuffer st;
     currentQuestionTrueStatements := currentQuestionTrueStatements st;
     currentStmtIndex := currentStmtIndex st; startedStatements := startedStatements st |}.

Definition withSolutionBuffer (st : State) (b : list jsstring) : State :=
  {| questions := questions st; currentQ := currentQ st;
     collectingContent := collectingContent st; contentBuffer := contentBuffer st;
     inSolution := inSolution st; solutionBuffer := b;
     currentQuestionTrueStatements := currentQuestionTrueStatements st;
     currentStmtIndex := currentStmtIndex st; startedStatements := startedStatements st |}.

(** [Array.from(currentQuestionTrueStatements).sort().join(',')]. *)
Definition trueStatementsAnswer (trueStatements : list jsstring) : jsstring :=
  join [44] (sortStrings trueStatements).

Definition inferAnswer (q : ParsedQuestion) (trueStatements : list jsstring) : ParsedQuestion :=
  if negb (truthyOpt (pq_correctAnswer q)) && nonEmptyList trueStatements
  then setCorrectAnswer q (Some (trueStatementsAnswer trueStatements))
  else q.

Definition closeQuestion (st : State) (q : ParsedQuestion) : ParsedQuestion :=
  let q1 := if nonEmptyList (contentBuffer st) && isEmpty (pq_text q)
            then setText q (joinTrim (contentBuffer st)) else q in
  let q2 := if nonEmptyList (solutionBuffer st)
            then setSolution q1 (joinTrim (solutionBuffer st)) else q1 in
  inferAnswer q2 (currentQuestionTrueStatements st).

Definition flush (st : State) : list ParsedQuestion :=
  match currentQ st with
  | Some q =>
      let q1 := closeQuestion st q in
      if truthy (pq_text q1) then questions st ++ [q1] else questions st
  | None => questions st
  end.

(** The branch [// Multiline statement continuation]; the index is that of
    the last statement pushed, as in section 1. *)
Definition continuation (images : list ImageData) (st : State) (q : ParsedQuestion)
  (para : ParagraphData) : State :=
  let text := para_text para in
  let i := Z.to_nat (currentStmtIndex st) in
  let fig := isFigure text in
  let q1 := if fig then q else setOptions q (Part1.appendToOption (pq_options q) i text) in
  let trueStatements :=
    if negb fig && para_hasUnderline para
    then setAdd (toLowerCase (Part1.optionLetterAt (pq_options q1) i))
           (currentQuestionTrueStatements st)
    else currentQuestionTrueStatements st in
  withTrueStatements (withCurrentQ st (attachIfAny q1 (para_imageRIds para) images))
    trueStatements.

Definition fallThrough (images : list ImageData) (st : State) (q : ParsedQuestion)
  (para : ParagraphData) : State :=
  let text := para_text para in
  let imageRIds := para_imageRIds para in
  let inStem := collectingContent st && truthy text && negb (inSolution st)
                && negb (startedStatements st) in
  if inStem && isFigure text then withCurrentQ st (attachIfAny q imageRIds images)
  else
    let st1 := if inStem then withContentBuffer st (contentBuffer st ++ [text]) else st in
    let st2 :=
      if inSolution st1 && truthy text && negb (isFigure text)
      then withSolutionBuffer st1 (solutionBuffer st1 ++ [text]) else st1 in
    if nonEmptyList imageRIds && negb (inSolution st2)
    then withCurrentQ st2 (attachImages q imageRIds images) else st2.

Definition step (images : list ImageData) (st : State) (para : ParagraphData) : State :=
  let text := para_text para in
  let imageRIds := para_imageRIds para in
  if isEmpty text && negb (nonEmptyList imageRIds) then st
  else if isPartHeader text then st
  else
    match isQuestionLine text with
    | Some qMatch =>
        let qNum := parseInt (capText 1 qMatch) in
        let restText := trim (capText 2 qMatch) in
        {| questions := flush st;
           currentQ := Some (attachIfAny (newQuestion qNum 2 true_false) imageRIds images);
           collectingContent := true;
           contentBuffer := if truthy restText then [restText] else [];
           inSolution := false;
           solutionBuffer := [];
           currentQuestionTrueStatements := [];
           currentStmtIndex := -1;
           startedStatements := false |}
    | None =>
        match currentQ st with
        | None => st
        | Some q =>
            if isSolutionMarker text then
              let flushStem := nonEmptyList (contentBuffer st) && isEmpty (pq_text q) in
              {| questions := questions st;
                 currentQ := Some (if flushStem then setText q (joinTrim (contentBuffer st)) else q);
                 collectingContent := false;
                 contentBuffer := if flushStem then [] else contentBuffer st;
                 inSolution := true;
                 solutionBuffer := [];
                 currentQuestionTrueStatements := currentQuestionTrueStatements st;
                 currentStmtIndex := currentStmtIndex st;
                 startedStatements := startedStatements st |}
            else
              match (if collectingContent st then jsmatch true statementPattern text else None) with
              | Some stmtMatch =>
                  let flushStem := negb (nonEmptyList (pq_options q)) && nonEmptyList (contentBuffer st) in
                  let q1 := if flushStem then setText q (joinTrim (contentBuffer st)) else q in
                  let letter := toLowerCase (capText 1 stmtMatch) in
                  let stmtText := trim (capText 2 stmtMatch) in
                  let opts := pq_options q1 ++ [{| opt_letter := letter; opt_text := stmtText |}] in
                  {| questions := questions st;
                     currentQ := Some (setOptions q1 opts);
                     collectingContent := collectingContent st;
                     contentBuffer := if flushStem then [] else contentBuffer st;
                     inSolution := inSolution st;
                     solutionBuffer := solutionBuffer st;
                     currentQuestionTrueStatements :=
                       if para_hasUnderline para
                       then setAdd letter (currentQuestionTrueStatements st)
                       else currentQuestionTrueStatements st;
                     currentStmtIndex := Z.of_nat (List.length opts) - 1;
                     startedStatements := true |}
              | None =>
                  if collectingContent st && startedStatements st
                     && (0 <=? currentStmtIndex st)%Z && truthy text
                     && negb (inSolution st)
                  then continuation images st q para
                  else fallThrough images st q para
              end
        end
    end.

Definition run (images : list ImageData) (st : State) (ps : list ParagraphData) : State :=
  fold_left (step images) ps st.

Definition parsePart2 (paragraphs : list ParagraphData) (startIdx endIdx : Z)
  (images : list ImageData) : list ParsedQuestion :=
  if (startIdx <? 0)%Z || (endIdx <=? startIdx)%Z
     || (Z.of_nat (List.length paragraphs) <=? startIdx)%Z
  then []
  else sortByNumber (flush (run images init (slice paragraphs startIdx endIdx))).

End Part2.

(** ** Section 3: short answer ([parsePart3]) *)

Module Part3.

Definition answerPattern : regex :=
  seqs [Bol; star (Cls ((42, 42) :: ws_ranges)); Alt (Chr 272) (Chr 68); lit (utf8 "áp");
        star ws; Alt (lit (utf8 "án")) (lit (utf8 "an"));
        star (Cls ((58, 58) :: ws_ranges)); Grp 1 (plus Dot)].

(** [/^C(?:âu|au)\s*\d+/], without the [i] flag. *)
Definition questionStartPattern : regex :=
  seqs [Bol; Chr 67; Alt (lit (utf8 "âu")) (lit (utf8 "au")); star ws; plus digit].

Record State : Type := {
  questions : list ParsedQuestion;
  currentQ : option ParsedQuestion;
  collectingContent : bool;
  contentBuffer : list jsstring;
  solutionBuffer : list jsstring
}.

Definition init : State :=
  {| questions := []; currentQ := None; collectingContent := false; contentBuffer := [];
     solutionBuffer := [] |}.

Definition withCurrentQ (st : State) (q : ParsedQuestion) : State :=
  {| questions := questions st; currentQ := Some q;
     collectingContent := collectingContent st; contentBuffer := contentBuffer st;
     solutionBuffer := solutionBuffer st |}.

Definition withContentBuffer (st : State) (b : list jsstring) : State :=
  {| questions := questions st; currentQ := currentQ st;
     collectingContent := collectingContent st; contentBuffer := b;
     solutionBuffer := solutionBuffer st |}.

Definition withSolutionBuffer (st : State) (b : list jsstring) : State :=
  {| questions := questions st; currentQ := currentQ st;
     collectingContent := collectingContent st; contentBuffer := contentBuffer st;
     solutionBuffer := b |}.

Definition closeQuestion (st : State) (q : ParsedQuestion) : ParsedQuestion :=
  let q1 := if nonEmptyList (contentBuffer st)
            then setText q (joinTrim (contentBuffer st)) else q in
  if nonEmptyList (solutionBuffer st)
  then setSolution q1 (joinTrim (solutionBuffer st)) else q1.

Definition flush (st : State) : list ParsedQuestion :=
  match currentQ st with
  | Some q =>
      let q1 := closeQuestion st q in
      if truthy (pq_text q1) then questions st ++ [q1] else questions st
  | None => questions st
  end.

Definition fallThrough (images : list ImageData) (st : State) (q : ParsedQuestion)
  (para : ParagraphData) : State :=
  let text := para_text para in
  let imageRIds := para_imageRIds para in
  let inStem := collectingContent st && truthy text in
  if inStem && isFigure text then withCurrentQ st (attachIfAny q imageRIds images)
  else
    let st1 := if inStem then withContentBuffer st (contentBuffer st ++ [text]) else st in
    let st2 :=
      if negb (collectingContent st1) && truthy text
         && negb (test false questionStartPattern text)
         && negb (isFigure text) && negb (test true answerPattern text)
      then withSolutionBuffer st1 (solutionBuffer st1 ++ [text]) else st1 in
    withCurrentQ st2 (attachIfAny q imageRIds images).

Definition step (images : list ImageData) (st : State) (para : ParagraphData) : State :=
  let text := para_text para in
  let imageRIds := para_imageRIds para in
  if isEmpty text && negb (nonEmptyList imageRIds) then st
  else if isPartHeader text then st
  else
    match isQuestionLine text with
    | Some qMatch =>
        let qNum := parseInt (capText 1 qMatch) in
        let restText := trim (capText 2 qMatch) in
        {| questions := flush st;
           currentQ := Some (attachIfAny (newQuestion qNum 3 short_answer) imageRIds images);
           collectingContent := true;
           contentBuffer := if truthy restText then [restText] else [];
           solutionBuffer := [] |}
    | None =>
        match currentQ st with
        | None => st
        | Some q =>
            if isSolutionMarker text then
              let flushStem := nonEmptyList (contentBuffer st) in
              {| questions := questions st;
                 currentQ := Some (if flushStem then setText q (joinTrim (contentBuffer st)) else q);
                 collectingContent := false;
                 contentBuffer := if flushStem then [] else contentBuffer st;
                 solutionBuffer := [] |}
            else
              match jsmatch true answerPattern text with
              | Some ansMatch =>
                  withCurrentQ st (setCorrectAnswer q (Some (trim (capText 1 ansMatch))))
              | None => fallThrough images st q para
              end
        end
    end.

Definition run (images : list ImageData) (st : State) (ps : list ParagraphData) : State :=
  fold_left (step images) ps st.

Definition parsePart3 (paragraphs : list ParagraphData) (startIdx endIdx : Z)
  (images : list ImageData) : list ParsedQuestion :=
  if (startIdx <? 0)%Z || (Z.of_nat (List.length paragraphs) <=? startIdx)%Z then []
  else sortByNumber (flush (run images init (slice paragraphs startIdx endIdx))).

End Part3.

(** ** Section boundaries ([detectSections]) *)

Record SectionInfo : Type := {
  part1Start : Z;
  part2Start : Z;
  part3Start : Z
}.

Definition dotOrSpace : regex := Cls ((46, 46) :: ws_ranges).

Definition part1Patterns : list regex :=
  [seqs [lit (utf8 "PHẦN"); star ws; Chr 49];
   seqs [lit (utf8 "PHAN"); star ws; Chr 49];
   seqs [lit (utf8 "PHẦN"); plus ws; lit (utf8 "I"); dotOrSpace];
   seqs [lit (utf8 "Phần"); star ws; Chr 49];
   seqs [lit (utf8 "I."); star ws; lit (utf8 "TRẮC"); star ws; lit (utf8 "NGHIỆM")];
   seqs [lit (utf8 "I."); star ws; lit (utf8 "TRAC"); star ws; lit (utf8 "NGHIEM")]].

Definition part2Patterns : list regex :=
  [seqs [lit (utf8 "PHẦN"); star ws; Chr 50];
   seqs [lit (utf8 "PHAN"); star ws; Chr 50];
   seqs [lit (utf8 "PHẦN"); plus ws; lit (utf8 "II"); dotOrSpace];
   seqs [lit (utf8 "Phần"); star ws; Chr 50];
   seqs [lit (utf8 "II."); star ws; lit (utf8 "ĐÚNG"); star ws; lit (utf8 "SAI")];
   seqs [lit (utf8 "II."); star ws; lit (utf8 "DUNG"); star ws; lit (utf8 "SAI")];
   seqs [lit (utf8 "ĐÚNG"); star ws; lit (utf8 "SAI")];
   seqs [lit (utf8 "DUNG"); star ws; lit (utf8 "SAI")]].

Definition part3Patterns : list regex :=
  [seqs [lit (utf8 "PHẦN"); star ws; Chr 51];
   seqs [lit (utf8 "PHAN"); star ws; Chr 51];
   seqs [lit (utf8 "PHẦN"); plus ws; lit (utf8 "III"); dotOrSpace];
   seqs [lit (utf8 "Phần"); star ws; Chr 51];
   seqs [lit (utf8 "III."); star ws; lit (utf8 "TRẢ"); star ws; lit (utf8 "LỜI")];
   seqs [lit (utf8 "III."); star ws; lit (utf8 "TRA"); star ws; lit (utf8 "LOI")];
   seqs [lit (utf8 "TRẢ"); star ws; lit (utf8 "LỜI"); star ws; lit (utf8 "NGẮN")];
   seqs [lit (utf8 "TRA"); star ws; lit (utf8 "LOI"); star ws; lit (utf8 "NGAN")]].

(** [for (const pattern of patterns) if (pattern.test(text)) { ...; break; }]. *)
Definition anyPattern (patterns : list regex) (text : jsstring) : bool :=
  existsb (fun pattern => test true pattern text) patterns.

(** The body of the scan at index [i]. *)
Definition detectStep (info : SectionInfo) (i : Z) (text : jsstring) : SectionInfo :=
  let p1 := if (part1Start info =? -1)%Z && anyPattern part1Patterns text
            then i else part1Start info in
  let p2 := if (part2Start info =? -1)%Z && (p1 <? i)%Z && anyPattern part2Patterns text
            then i else part2Start info in
  let p3 := if (part3Start info =? -1)%Z && (Z.max p1 p2 <? i)%Z
               && anyPattern part3Patterns text
            then i else part3Start info in
  {| part1Start := p1; part2Start := p2; part3Start := p3 |}.

Fixpoint detectLoop (info : SectionInfo) (i : Z) (ps : list ParagraphData) : SectionInfo :=
  match ps with
  | [] => info
  | p :: ps1 => detectLoop (detectStep info i (para_text p)) (i + 1)%Z ps1
  end.

Definition detectSections (_fullText : jsstring) (paragraphs : list ParagraphData)
  : SectionInfo :=
  let info := detectLoop {| part1Start := -1; part2Start := -1; part3Start := -1 |}
                0%Z paragraphs in
  let len := Z.of_nat (List.length paragraphs) in
  {| part1Start := if (part1Start info =? -1)%Z then 0%Z else part1Start info;
     part2Start := if (part2Start info =? -1)%Z then len else part2Start info;
     part3Start := if (part3Start info =? -1)%Z then len else part3Start info |}.

(** ** The assembler ([convertToQuestion], [parseAllQuestions]) *)

Record SectionRef : Type := {
  sec_letter : jsstring;
  sec_name : jsstring;
  sec_points : jsstring
}.

(** Modelled from the spec: [types.ts] is not among the sources; the fields
    of [Question], [Section] and [ExamData] are those of the object
    literals of the assembler. *)
Record Question : Type := {
  q_number : Z;
  q_text : jsstring;
  q_type : QuestionType;
  q_options : list QuestionOption;
  q_correctAnswer : option jsstring;
  q_part : jsstring;
  q_images : list ImageData;
  q_solution : jsstring;
  q_section : SectionRef
}.

Record Section : Type := {
  s_name : jsstring;
  s_description : jsstring;
  s_points : jsstring;
  s_questions : list Question;
  s_sectionType : QuestionType
}.

(** The answer key is an object indexed by question number: an assignment
    replaces the value of a key that is present. *)
Definition AnswerKey : Type := list (Z * jsstring).

Fixpoint setAnswer (k : Z) (v : jsstring) (m : AnswerKey) : AnswerKey :=
  match m with
  | [] => [(k, v)]
  | (k1, v1) :: m1 => if (k1 =? k)%Z then (k, v) :: m1 else (k1, v1) :: setAnswer k v m1
  end.

Fixpoint getAnswer (k : Z) (m : AnswerKey) : option jsstring :=
  match m with
  | [] => None
  | (k1, v1) :: m1 => if (k1 =? k)%Z then Some v1 else getAnswer k m1
  end.

Record ExamData : Type := {
  title : jsstring;
  timeLimit : Z;
  sections : list Section;
  questions : list Question;
  answers : AnswerKey;
  images : list ImageData
}.

Definition getPartName (part : Z) : jsstring :=
  if (part =? 1)%Z then utf8 "Trắc nghiệm nhiều lựa chọn"
  else if (part =? 2)%Z then utf8 "Trắc nghiệm đúng sai"
  else if (part =? 3)%Z then utf8 "Trắc nghiệm trả lời ngắn"
  else [].

Definition convertToQuestion (pq : ParsedQuestion) (globalIndex : Z) : Question :=
  let uniqueNumber := (pq_part pq * 100 + pq_number pq)%Z in
  {| q_number := uniqueNumber;
     q_text := escapeHtmlPreserveLaTeX (pq_text pq);
     q_type := pq_type pq;
     q_options := map (fun opt => {| opt_letter := opt_letter opt;
                                     opt_text := escapeHtmlPreserveLaTeX (opt_text opt) |})
                    (pq_options pq);
     q_correctAnswer := pq_correctAnswer pq;
     q_part := utf8 "PHẦN " ++ stringOfZ (pq_part pq);
     q_images := pq_images pq;
     q_solution := pq_solution pq;
     q_section := {| sec_letter := stringOfZ (pq_part pq);
                     sec_name := getPartName (pq_part pq);
                     sec_points := [] |} |}.

(** The state the three section loops of [parseAllQuestions] update. *)
Record Assembly : Type := {
  globalIndex : Z;
  examData : ExamData
}.

Definition pushQuestion (keyed : bool) (ed : ExamData) (q : Question) : ExamData :=
  {| title := title ed; timeLimit := timeLimit ed; sections := sections ed;
     questions := questions ed ++ [q];
     answers := match q_correctAnswer q with
                | Some a => if keyed && truthy a then setAnswer (q_number q) a (answers ed)
                            else answers ed
                | None => answers ed
                end;
     images := images ed |}.

Definition pushSection (ed : ExamData) (s : Section) : ExamData :=
  {| title := title ed; timeLimit := timeLimit ed; sections := sections ed ++ [s];
     questions := questions ed; answers := answers ed; images := images ed |}.

(** The body of a section loop: [convertToQuestion(pq, globalIndex++)],
    the two [push], and, when [keyed], the line
    [if (q.correctAnswer) examData.answers[q.number] = q.correctAnswer]. *)
Definition sectionLoopBody (keyed : bool) (acc : Z * ExamData * list Question)
  (pq : ParsedQuestion) : Z * ExamData * list Question :=
  let '(gi, ed, sectionQuestions) := acc in
  let q := convertToQuestion pq gi in
  ((gi + 1)%Z, pushQuestion keyed ed q, sectionQuestions ++ [q]).

(** One [if (partNQuestions.length > 0) { ... }] block.  The loops of
    sections 1 and 3 are keyed, the loop of section 2 is not: its body has
    no assignment to [examData.answers]. *)
Definition assemblePart (keyed : bool) (name description : jsstring) (ty : QuestionType)
  (pqs : list ParsedQuestion) (a : Assembly) : Assembly :=
  if nonEmptyList pqs then
    let '(gi, ed, sectionQuestions) :=
      fold_left (sectionLoopBody keyed) pqs (globalIndex a, examData a, []) in
    {| globalIndex := gi;
       examData := pushSection ed
                     {| s_name := name; s_description := description; s_points := [];
                        s_questions := sectionQuestions; s_sectionType := ty |} |}
  else a.

Definition parseAllQuestions (paragraphs : list ParagraphData) (images : list ImageData)
  : ExamData :=
  let fullText := join [10] (map para_text paragraphs) in
  let sectionInfo := detectSections fullText paragraphs in
  let part1Questions :=
    Part1.parsePart1WithUnderline paragraphs (part1Start sectionInfo)
      (part2Start sectionInfo) images in
  let part2Questions :=
    Part2.parsePart2 paragraphs (part2Start sectionInfo) (part3Start sectionInfo) images in
  let part3Questions :=
    Part3.parsePart3 paragraphs (part3Start sectionInfo)
      (Z.of_nat (List.length paragraphs)) images in
  let a0 := {| globalIndex := 0;
               examData := {| title := []; timeLimit := 90; sections := [];
                              questions := []; answers := []; images := [] |} |} in
  let a1 := assemblePart true (utf8 "PHẦN 1. Trắc nghiệm nhiều lựa chọn")
              (utf8 "Thí sinh chọn một phương án đúng A, B, C hoặc D")
              multiple_choice part1Questions a0 in
  let a2 := assemblePart false (utf8 "PHẦN 2. Trắc nghiệm đúng sai")
              (utf8 "Thí sinh chọn Đúng hoặc Sai cho mỗi ý a), b), c), d)")
              true_false part2Questions a1 in
  let a3 := assemblePart true (utf8 "PHẦN 3. Trắc nghiệm trả lời ngắn")
              (utf8 "Thí sinh điền đáp án số vào ô trống")
              short_answer part3Questions a2 in
  examData a3.

(** ** Validation ([validateExamData]) *)

Record Validation : Type := {
  valid : bool;
  errors : list jsstring
}.

Definition noQuestionError : jsstring := utf8 "Không tìm thấy câu hỏi nào trong file".

Definition missingTextError (q : Question) : jsstring :=
  utf8 "Câu " ++ stringOfZ (q_number q) ++ utf8 ": Thiếu nội dung câu hỏi".

(** [!q.text || !q.text.trim()]. *)
Definition stemMissing (q : Question) : bool :=
  isEmpty (q_text q) || isEmpty (trim (q_text q)).

(** The counters of the [forEach] callback; they only feed the log. *)
Record Tally : Type := {
  t_errors : list jsstring;
  t_part1 : Z;
  t_part2 : Z;
  t_part3 : Z;
  t_withAnswer : Z;
  t_withoutAnswer : Z
}.

Definition tallyQuestion (t : Tally) (q : Question) : Tally :=
  let part := (q_number q / 100)%Z in
  {| t_errors := if stemMissing q then t_errors t ++ [missingTextError q] else t_errors t;
     t_part1 := if (part =? 1)%Z then (t_part1 t + 1)%Z else t_part1 t;
     t_part2 := if negb (part =? 1)%Z && (part =? 2)%Z then (t_part2 t + 1)%Z else t_part2 t;
     t_part3 := if negb (part =? 1)%Z && negb (part =? 2)%Z && (part =? 3)%Z
                then (t_part3 t + 1)%Z else t_part3 t;
     t_withAnswer := if truthyOpt (q_correctAnswer q)
                     then (t_withAnswer t + 1)%Z else t_withAnswer t;
     t_withoutAnswer := if truthyOpt (q_correctAnswer q)
                        then t_withoutAnswer t else (t_withoutAnswer t + 1)%Z |}.

Definition validateExamData (data : ExamData) : Validation :=
  let errors0 := if nonEmptyList (questions data) then [] else [noQuestionError] in
  let t := fold_left tallyQuestion (questions data)
             {| t_errors := errors0; t_part1 := 0; t_part2 := 0; t_part3 := 0;
                t_withAnswer := 0; t_withoutAnswer := 0 |} in
  {| valid := negb (nonEmptyList (t_errors t)); errors := t_errors t |}.

(** ** The document tree ([DOMParser]) *)

(** The nodes of a parsed XML document: elements with their qualified name,
    attributes and children, text (and CDATA) nodes, and the nodes that
    carry no text content (comments, processing instructions). *)
Unset Elimination Schemes.
Inductive Node : Type :=
| Element (name : jsstring) (attributes : list (jsstring * jsstring)) (children : list Node)
| TextNode (data : jsstring)
| CommentNode (data : jsstring).
Set Elimination Schemes.

(** The descendants of a node, in document order. *)
Fixpoint descendants (n : Node) : list Node :=
  match n with
  | Element _ _ children => flat_map (fun c => c :: descendants c) children
  | TextNode _ => []
  | CommentNode _ => []
  end.

Definition isElementNamed (name : jsstring) (n : Node) : bool :=
  match n with
  | Element name1 _ _ => jsstring_eqb name1 name
  | _ => false
  end.

(** [Element.getElementsByTagName]: the descendant elements with that
    qualified name, in document order. *)
Definition getElementsByTagName (n : Node) (name : jsstring) : list Node :=
  filter (isElementNamed name) (descendants n).

(** [Document.getElementsByTagName]: the root element is among them. *)
Definition documentElementsByTagName (roots : list Node) (name : jsstring) : list Node :=
  filter (isElementNamed name) (flat_map (fun c => c :: descendants c) roots).

(** [Node.textContent]. *)
Fixpoint textContent (n : Node) : jsstring :=
  match n with
  | Element _ _ children => flat_map textContent children
  | TextNode data => data
  | CommentNode _ => []
  end.

(** [Element.getAttribute]: [None] is [null]. *)
Definition getAttribute (n : Node) (name : jsstring) : option jsstring :=
  match n with
  | Element _ attributes _ =>
      option_map snd (find (fun a => jsstring_eqb (fst a) name) attributes)
  | _ => None
  end.

(** [a || b] on nullable strings. *)
Definition orElse (a b : option jsstring) : option jsstring :=
  if truthyOpt a then a else b.

(** [if (v) ids.push(v)]. *)
Definition pushIfAny (ids : list jsstring) (v : option jsstring) : list jsstring :=
  match v with
  | Some s => if truthy s then ids ++ [s] else ids
  | None => ids
  end.

(** ** Paragraph extraction ([extractParagraphsWithUnderline]) *)

(** [Array.prototype.includes] on strings. *)
Definition includesString (l : list jsstring) (s : jsstring) : bool :=
  existsb (jsstring_eqb s) l.

(** The three image loops of a run. *)
Definition blipLoop (imageRIds : list jsstring) (run : Node) : list jsstring :=
  fold_left (fun ids blip => pushIfAny ids (getAttribute blip (utf8 "r:embed")))
    (getElementsByTagName run (utf8 "a:blip")) imageRIds.

Definition vmlLoop (imageRIds : list jsstring) (run : Node) : list jsstring :=
  fold_left (fun ids v => pushIfAny ids (orElse (getAttribute v (utf8 "r:id"))
                                                (getAttribute v (utf8 "o:relid"))))
    (getElementsByTagName run (utf8 "v:imagedata")) imageRIds.

Definition pushInnerBlip (ids : list jsstring) (blip : Node) : list jsstring :=
  match getAttribute blip (utf8 "r:embed") with
  | Some embed => if truthy embed && negb (includesString ids embed)
                  then ids ++ [embed] else ids
  | None => ids
  end.

Definition drawingLoop (imageRIds : list jsstring) (run : Node) : list jsstring :=
  fold_left (fun ids drawing =>
               fold_left pushInnerBlip (getElementsByTagName drawing (utf8 "a:blip")) ids)
    (getElementsByTagName run (utf8 "w:drawing")) imageRIds.

(** [rPr ? rPr.getElementsByTagName('w:u').length > 0 : false]. *)
Definition isUnderlinedRun (run : Node) : bool :=
  match getElementsByTagName run (utf8 "w:rPr") with
  | rPr :: _ => nonEmptyList (getElementsByTagName rPr (utf8 "w:u"))
  | [] => false
  end.

(** ['\n'.repeat(n)]. *)
Definition newlines (n : nat) : jsstring := repeat 10 n.

Definition runTextOf (run : Node) : jsstring :=
  let runText := flat_map textContent (getElementsByTagName run (utf8 "w:t")) in
  let runText := runText ++ flat_map textContent (getElementsByTagName run (utf8 "m:t")) in
  let runText :=
    runText ++ flat_map textContent (getElementsByTagName run (utf8 "w:instrText")) in
  let brs := getElementsByTagName run (utf8 "w:br") in
  if nonEmptyList brs then runText ++ newlines (List.length brs) else runText.

(** The local variables of the loop over the paragraphs' runs. *)
Record RunState : Type := {
  rs_text : jsstring;
  rs_imageRIds : list jsstring;
  rs_hasUnderline : bool;
  rs_underlinedSegments : list jsstring
}.

Definition runStep (st : RunState) (run : Node) : RunState :=
  let imageRIds := drawingLoop (vmlLoop (blipLoop (rs_imageRIds st) run) run) run in
  let isUnderlined := isUnderlinedRun run in
  let runText := runTextOf run in
  let marked := isUnderlined && truthy (trim runText) in
  {| rs_text := rs_text st ++ runText;
     rs_imageRIds := imageRIds;
     rs_hasUnderline := if marked then true else rs_hasUnderline st;
     rs_underlinedSegments :=
       if marked then rs_underlinedSegments st ++ [trim runText]
       else rs_underlinedSegments st |}.

(** [/\[([A-Da-d])\]\{\.underline\}/g]. *)
Definition markdownUnderlinePattern : regex :=
  seqs [Chr 91; Grp 1 (Cls [(65, 68); (97, 100)]); Chr 93; lit (utf8 "{.underline}")].

(** [/[ \t]*\n[ \t]*/g]. *)
Definition newlineBlanksPattern : regex :=
  seqs [star (Cls [(32, 32); (9, 9)]); Chr 10; star (Cls [(32, 32); (9, 9)])].

(** The loop [while ((m = pattern.exec(text)) !== null)] of a global
    pattern: the captures of the successive matches.  A match that consumes
    nothing would keep the loop of the source at the same index for ever;
    the one pattern it is used with consumes at least the two brackets. *)
Fixpoint execLoop (r : regex) (fuel : nat) (pos : nat) (s : jsstring) : list caps :=
  match fuel with
  | O => []
  | S fuel1 =>
      match searchFrom false r pos s with
      | None => []
      | Some (_, (stop, rest, cs)) => cs :: execLoop r fuel1 stop rest
      end
  end.

Definition execAll (r : regex) (s : jsstring) : list caps :=
  execLoop r (S (List.length s)) 0 s.

Section Extraction.

(** [String.prototype.normalize('NFC')]: the normalisation tables are those
    of the platform. *)
Variable nfc : jsstring -> jsstring.

Definition normalizeVietnamese (text : jsstring) : jsstring :=
  if isEmpty text then [] else nfc text.

(** The body of the loop over the [w:p] elements: the record pushed for
    the paragraph, if any. *)
Definition extractParagraph (p : Node) : option ParagraphData :=
  let st := fold_left runStep (getElementsByTagName p (utf8 "w:r"))
              {| rs_text := []; rs_imageRIds := []; rs_hasUnderline := false;
                 rs_underlinedSegments := [] |} in
  let text := normalizeVietnamese (trim (rs_text st)) in
  let text := normalizeLatex text in
  let marks := execAll markdownUnderlinePattern text in
  let hasUnderline := if nonEmptyList marks then true else rs_hasUnderline st in
  let underlinedSegments := rs_underlinedSegments st ++ map (capText 1) marks in
  let text := replaceAll false markdownUnderlinePattern (utf8 "$1") text in
  let text := trim (replaceAll false newlineBlanksPattern [10] text) in
  if truthy text || nonEmptyList (rs_imageRIds st)
  then Some {| para_text := text; para_imageRIds := rs_imageRIds st;
               para_hasUnderline := hasUnderline;
               para_underlinedSegments := underlinedSegments |}
  else None.

Definition extractParagraphsWithUnderline (xmlDoc : list Node)
  (_imageRelMap : list (jsstring * jsstring)) : list ParagraphData :=
  flat_map (fun p => match extractParagraph p with
                     | Some para => [para]
                     | None => []
                     end)
    (documentElementsByTagName xmlDoc (utf8 "w:p")).

End Extraction.

(** ** Image extraction ([extractImages]) *)

(** The outcome of reading a zip entry: the promise of [async(...)] resolves
    with the content, or rejects. *)
Inductive Read : Type :=
| Loaded (content : jsstring)
| Rejected.

(** An entry of [zip.files], with what [async('base64')] gives for it. *)
Record ZipEntry : Type := {
  ze_path : jsstring;
  ze_dir : bool;
  ze_base64 : Read
}.

(** A [Map] from strings to strings, in insertion order: [set] replaces the
    value of a key that is present and keeps its place. *)
Definition StringMap : Type := list (jsstring * jsstring).

Fixpoint mapSet (k v : jsstring) (m : StringMap) : StringMap :=
  match m with
  | [] => [(k, v)]
  | (k1, v1) :: m1 => if jsstring_eqb k1 k then (k, v) :: m1 else (k1, v1) :: mapSet k v m1
  end.

(** The units of [s] before the first [sep]. *)
Fixpoint untilUnit (sep : N) (s : jsstring) : jsstring :=
  match s with
  | [] => []
  | c :: s1 => if c =? sep then [] else c :: untilUnit sep s1
  end.

(** [s.split(sep).pop()]: what follows the last [sep] of [s]. *)
Definition lastSegment (sep : N) (s : jsstring) : jsstring :=
  rev (untilUnit sep (rev s)).

(** The global pattern of a relationship: [Id=] and, between double quotes,
    the captured [rId\d+]; then [[^>]*], [Target=] and, between double
    quotes, the captured run of one or more units other than the double
    quote. *)
Definition relPattern : regex :=
  seqs [lit (utf8 "Id=" ++ [34]); Grp 1 (Seq (lit (utf8 "rId")) (plus digit)); Chr 34;
        star (Cls [(0, 61); (63, 65535)]); lit (utf8 "Target=" ++ [34]);
        Grp 2 (plus (Cls [(0, 33); (35, 65535)])); Chr 34].

(** The body of the loop over the relationships. *)
Definition relStep (imageRelMap : StringMap) (m : caps) : StringMap :=
  let rId := capText 1 m in
  let target := capText 2 m in
  if includes target (utf8 "media/")
  then mapSet rId (lastSegment 47 target) imageRelMap
  else imageRelMap.

Definition readRelationships (relsContent : jsstring) : StringMap :=
  fold_left relStep (execAll relPattern relsContent) [].

(** The object literal [contentTypes]. *)
Definition contentTypes : StringMap :=
  [(utf8 "png", utf8 "image/png"); (utf8 "jpg", utf8 "image/jpeg");
   (utf8 "jpeg", utf8 "image/jpeg"); (utf8 "gif", utf8 "image/gif");
   (utf8 "webp", utf8 "image/webp"); (utf8 "bmp", utf8 "image/bmp");
   (utf8 "svg", utf8 "image/svg+xml")].

(** The property names an object literal inherits from [Object.prototype]. *)
Definition objectPrototypeKeys : list jsstring :=
  [utf8 "constructor"; utf8 "__defineGetter__"; utf8 "__defineSetter__";
   utf8 "hasOwnProperty"; utf8 "__lookupGetter__"; utf8 "__lookupSetter__";
   utf8 "isPrototypeOf"; utf8 "propertyIsEnumerable"; utf8 "toString"; utf8 "valueOf";
   utf8 "__proto__"; utf8 "toLocaleString"].

(** The value of [contentTypes[ext] || 'image/png']: a string of the table,
    the default, or, for an inherited name, the member of the prototype
    (a function or an object, not a string). *)
Inductive ContentType : Type :=
| Mime (s : jsstring)
| Inherited (key : jsstring).

Definition contentTypeOf (ext : jsstring) : ContentType :=
  match find (fun kv => jsstring_eqb (fst kv) ext) contentTypes with
  | Some (_, v) => Mime v
  | None =>
      if existsb (jsstring_eqb ext) objectPrototypeKeys then Inherited ext
      else Mime (utf8 "image/png")
  end.

(** The object pushed on [images]. *)
Record ExtractedImage : Type := {
  x_id : jsstring;
  x_filename : jsstring;
  x_base64 : jsstring;
  x_contentType : ContentType;
  x_rId : jsstring
}.

(** [path.startsWith('word/media/') && !zipEntry.dir]. *)
Definition isMediaEntry (e : ZipEntry) : bool :=
  isPrefix (utf8 "word/media/") (ze_path e) && negb (ze_dir e).

(** The relationship id of a file: the first key of the map whose value is
    the file name, else the empty string. *)
Definition relationshipOf (imageRelMap : StringMap) (filename : jsstring) : jsstring :=
  match find (fun kv => jsstring_eqb (snd kv) filename) imageRelMap with
  | Some (rid, _) => rid
  | None => []
  end.

Definition newImage (imageRelMap : StringMap) (count : nat) (path data : jsstring)
  : ExtractedImage :=
  let filename := lastSegment 47 path in
  let ext := toLowerCase (lastSegment 46 filename) in
  {| x_id := utf8 "img_" ++ stringOfN (N.of_nat count);
     x_filename := filename;
     x_base64 := data;
     x_contentType := contentTypeOf ext;
     x_rId := relationshipOf imageRelMap filename |}.

(** The loop over [Object.entries(zip.files)]; a read that rejects leaves
    the [try] block with the images pushed so far. *)
Fixpoint entryLoop (imageRelMap : StringMap) (entries : list ZipEntry)
  (images : list ExtractedImage) : list ExtractedImage :=
  match entries with
  | [] => images
  | e :: entries1 =>
      if isMediaEntry e then
        match ze_base64 e with
        | Loaded data =>
            entryLoop imageRelMap entries1
              (images ++ [newImage imageRelMap (List.length images) (ze_path e) data])
        | Rejected => images
        end
      else entryLoop imageRelMap entries1 images
  end.

(** [relsContent] is [None] when the archive has no relationship file. *)
Definition extractImages (relsContent : option Read) (entries : list ZipEntry)
  : list ExtractedImage * StringMap :=
  match relsContent with
  | Some Rejected => ([], [])
  | Some (Loaded content) =>
      let imageRelMap := if truthy content then readRelationships content else [] in
      (entryLoop imageRelMap entries [], imageRelMap)
  | None => (entryLoop [] entries [], [])
  end.

(** The image as the rest of the service reads it, when its content type is
    a string. *)
Definition toImageData (x : ExtractedImage) : option ImageData :=
  match x_contentType x with
  | Mime s => Some {| img_id := x_id x; img_filename := x_filename x;
                      img_base64 := x_base64 x; img_contentType := s;
                      img_rId := x_rId x |}
  | Inherited _ => None
  end.

(** ** Utilities ([isWebCompatibleImage]) *)

Definition webTypes : list jsstring :=
  [utf8 "image/png"; utf8 "image/jpeg"; utf8 "image/gif"; utf8 "image/webp";
   utf8 "image/svg+xml"].

Definition isWebCompatibleImage (contentType : jsstring) : bool :=
  includesString webTypes contentType.

(** ** Scoring: the sections of a question list ([scoringService.detectSections]) *)

Module Scoring.

(** [mapQuestionType], on the [type] of a question. *)
Definition mapQuestionType (ty : QuestionType) : QuestionType :=
  match ty with
  | true_false => true_false
  | short_answer => short_answer
  | writing => short_answer
  | _ => multiple_choice
  end.

(** The values of [sectionMap]. *)
Record SectionTally : Type := {
  tally_type : QuestionType;
  tally_count : Z;
  tally_part : Z
}.

(** The objects pushed on [sections]; the two point fields are filled in
    later, by the caller. *)
Record SectionPointsConfig : Type := {
  sectionId : jsstring;
  sectionName : jsstring;
  questionType : QuestionType;
  totalQuestions : Z;
  totalPoints : Z;
  pointsPerQuestion : Z
}.

(** [Math.floor(q.number / 100) || 1]. *)
Definition partOf (q : Question) : Z :=
  let part := (q_number q / 100)%Z in
  if (part =? 0)%Z then 1%Z else part.

(** The key [`part${part}`]. *)
Definition sectionKey (part : Z) : jsstring := utf8 "part" ++ stringOfZ part.

(** [if (!sectionMap.has(key)) sectionMap.set(key, {type, count: 0, part});
    sectionMap.get(key).count++]: the map keeps the insertion order. *)
Fixpoint countInto (key : jsstring) (ty : QuestionType) (part : Z)
  (sectionMap : list (jsstring * SectionTally)) : list (jsstring * SectionTally) :=
  match sectionMap with
  | [] => [(key, {| tally_type := ty; tally_count := 0 + 1; tally_part := part |})]
  | (k1, t1) :: m1 =>
      if jsstring_eqb k1 key
      then (k1, {| tally_type := tally_type t1; tally_count := tally_count t1 + 1;
                   tally_part := tally_part t1 |}) :: m1
      else (k1, t1) :: countInto key ty part m1
  end.

(** The body of [questions.forEach]. *)
Definition tallyStep (sectionMap : list (jsstring * SectionTally)) (q : Question)
  : list (jsstring * SectionTally) :=
  let part := partOf q in
  let mappedType := mapQuestionType (q_type q) in
  countInto (sectionKey part) mappedType part sectionMap.

(** [sectionNames[data.part] || `Phần ${data.part}`]. *)
Definition sectionNameOf (part : Z) : jsstring :=
  if (part =? 1)%Z then utf8 "PHẦN 1. TRẮC NGHIỆM NHIỀU LỰA CHỌN"
  else if (part =? 2)%Z then utf8 "PHẦN 2. TRẮC NGHIỆM ĐÚNG SAI"
  else if (part =? 3)%Z then utf8 "PHẦN 3. TRẢ LỜI NGẮN"
  else utf8 "Phần " ++ stringOfZ part.

(** The body of [sectionMap.forEach]. *)
Definition toConfig (entry : jsstring * SectionTally) : SectionPointsConfig :=
  {| sectionId := fst entry;
     sectionName := sectionNameOf (tally_part (snd entry));
     questionType := tally_type (snd entry);
     totalQuestions := tally_count (snd entry);
     totalPoints := 0;
     pointsPerQuestion := 0 |}.

(** [parseInt] on an optional minus sign followed by decimal digits, the
    form of what is left of a key without its prefix. *)
Definition parseIntSigned (s : jsstring) : Z :=
  match s with
  | 45 :: ds => (- parseInt ds)%Z
  | _ => parseInt s
  end.

(** [parseInt(a.sectionId.replace('part', ''))]. *)
Definition sortKey (c : SectionPointsConfig) : Z :=
  parseIntSigned (replaceString (utf8 "part") [] (sectionId c)).

(** [sections.sort((a, b) => partA - partB)]: the sort is stable. *)
Fixpoint insertSection (c : SectionPointsConfig) (l : list SectionPointsConfig)
  : list SectionPointsConfig :=
  match l with
  | [] => [c]
  | x :: l1 => if (sortKey c <? sortKey x)%Z then c :: l else x :: insertSection c l1
  end.

Definition sortSections (l : list SectionPointsConfig) : list SectionPointsConfig :=
  fold_left (fun acc c => insertSection c acc) l [].

Definition detectSections (questions : list Question) : list SectionPointsConfig :=
  sortSections (map toConfig (fold_left tallyStep questions [])).

(** [normalizeAnswer]:
    [answer.toLowerCase().replace(/\s+/g, '').replace(/,/g, '.').trim()].
    An answer is free text, so [String.prototype.toLowerCase] is here the
    case mapping of the platform over all of Unicode, which this
    development does not tabulate: it is the parameter [lowerCase]. *)
Definition normalizeAnswer (lowerCase : jsstring -> jsstring) (answer : jsstring)
  : jsstring :=
  trim (replaceAll false (Chr 44) (utf8 ".")
          (replaceAll false (plus ws) [] (lowerCase answer))).

End Scoring.

(** ** A relational reading of the matcher *)

(** [matches ic r p s cs p' s' cs'] holds when [r] can consume a prefix of
    [s] from position [p], leaving [s'] at position [p'], and turn the
    captures [cs] into [cs'].  It forgets the bounds of quantifiers and the
    priorities between alternatives: every success of [rmatch] is one of
    its derivations (lemma [rmatch_sound]). *)
Inductive matches (ic : bool)
  : regex -> nat -> jsstring -> caps -> nat -> jsstring -> caps -> Prop :=
| M_Eps p s cs : matches ic Eps p s cs p s cs
| M_Chr c x p s cs :
    chrMatches ic c x = true -> matches ic (Chr c) p (x :: s) cs (S p) s cs
| M_Cls rs x p s cs :
    clsMatches ic rs x = true -> matches ic (Cls rs) p (x :: s) cs (S p) s cs
| M_Dot x p s cs :
    isLineTerminator x = false -> matches ic Dot p (x :: s) cs (S p) s cs
| M_All x p s cs : matches ic All p (x :: s) cs (S p) s cs
| M_Bol s cs : matches ic Bol O s cs O s cs
| M_Eol p cs : matches ic Eol p [] cs p [] cs
| M_Seq r1 r2 p s cs p1 s1 cs1 p2 s2 cs2 :
    matches ic r1 p s cs p1 s1 cs1 -> matches ic r2 p1 s1 cs1 p2 s2 cs2 ->
    matches ic (Seq r1 r2) p s cs p2 s2 cs2
| M_AltL r1 r2 p s cs p1 s1 cs1 :
    matches ic r1 p s cs p1 s1 cs1 -> matches ic (Alt r1 r2) p s cs p1 s1 cs1
| M_AltR r1 r2 p s cs p1 s1 cs1 :
    matches ic r2 p s cs p1 s1 cs1 -> matches ic (Alt r1 r2) p s cs p1 s1 cs1
| M_Grp i r p s cs p1 s1 cs1 :
    matches ic r p s cs p1 s1 cs1 ->
    matches ic (Grp i r) p s cs p1 s1 ((i, firstn (p1 - p) s) :: cs1)
| M_NLook r p s cs : matches ic (NLook r) p s cs p s cs
| M_RepStop g lo hi r p s cs : matches ic (Rep g lo hi r) p s cs p s cs
| M_RepMore g lo hi r p s cs p1 s1 cs1 p2 s2 cs2 :
    matches ic r p s cs p1 s1 cs1 ->
    matches ic (Rep g lo hi r) p1 s1 cs1 p2 s2 cs2 ->
    matches ic (Rep g lo hi r) p s cs p2 s2 cs2.

(** [s1], at position [p1], is what is left of [s], at position [p], after
    some prefix; two continuations agree from [(p, s)] when they agree on
    everything that can be left of it. *)
Definition reaches (p : nat) (s : jsstring) (p1 : nat) (s1 : jsstring) : Prop :=
  exists pre, s = pre ++ s1 /\ p1 = (p + List.length pre)%nat.

Definition agree (p : nat) (s : jsstring) (k k1 : cont) : Prop :=
  forall p1 s1 cs1, reaches p s p1 s1 -> k p1 s1 cs1 = k1 p1 s1 cs1.

(** ** Vocabulary of the statements *)

(** A property of a question that no assignment of the parsers breaks:
    they write the stem, the options, the answer and the solution, and
    they attach images. *)
Record stable (P : ParsedQuestion -> Prop) : Prop := {
  stable_text : forall q v, P q -> P (setText q v);
  stable_options : forall q v, P q -> P (setOptions q v);
  stable_answer : forall q v, P q -> P (setCorrectAnswer q v);
  stable_solution : forall q v, P q -> P (setSolution q v);
  stable_images : forall q rIds images, P q -> P (attachImages q rIds images)
}.

(** [P] holds of the question a marker paragraph opens. *)
Definition opens (P : ParsedQuestion -> Prop) (part : Z) (ty : QuestionType)
  (para : ParagraphData) : Prop :=
  forall cs, isQuestionLine (para_text para) = Some cs ->
             P (newQuestion (parseInt (capText 1 cs)) part ty).

(** The questions closed so far and the question in progress satisfy [P]
    (section 1). *)
Definition p1_Inv (P : ParsedQuestion -> Prop) (st : Part1.State) : Prop :=
  Forall P (Part1.questions st) /\ forall q, Part1.currentQ st = Some q -> P q.

(** The questions closed so far and the question in progress satisfy [P]
    (section 2). *)
Definition p2_Inv (P : ParsedQuestion -> Prop) (st : Part2.State) : Prop :=
  Forall P (Part2.questions st) /\ forall q, Part2.currentQ st = Some q -> P q.

(** The questions closed so far and the question in progress satisfy [P]
    (section 3). *)
Definition p3_Inv (P : ParsedQuestion -> Prop) (st : Part3.State) : Prop :=
  Forall P (Part3.questions st) /\ forall q, Part3.currentQ st = Some q -> P q.

(** The identifiers of the images of a question are pairwise distinct. *)
Definition distinctImages (l : list ImageData) : Prop := NoDup (map img_id l).

(** The question [pq] of section [part] carries the number of a question
    marker of the document. *)
Definition authored (paragraphs : list ParagraphData) (part : Z) (ty : QuestionType)
  (pq : ParsedQuestion) : Prop :=
  pq_part pq = part /\ pq_type pq = ty /\
  exists para cs, In para paragraphs /\ isQuestionLine (para_text para) = Some cs
                  /\ pq_number pq = parseInt (capText 1 cs).

(** No pattern of the three header lists matches the paragraph. *)
Definition noSectionHeader (para : ParagraphData) : bool :=
  negb (anyPattern part1Patterns (para_text para))
  && negb (anyPattern part2Patterns (para_text para))
  && negb (anyPattern part3Patterns (para_text para)).

(** The letters of the four statements of a true/false question. *)
Definition statementLetters : list jsstring := [utf8 "a"; utf8 "b"; utf8 "c"; utf8 "d"].

Definition strLt (a b : jsstring) : Prop := strLtb a b = true.
Definition strLe (a b : jsstring) : Prop := strLtb b a = false.

(** The answers of section 2: the letters of a non-empty subset of a, b, c,
    d, in increasing order and without repetition, joined by commas. *)
Definition trueFalseAnswer (a : jsstring) : Prop :=
  exists l, l <> [] /\ NoDup l /\ Sorted strLt l
            /\ Forall (fun x => In x statementLetters) l /\ a = join [44] l.

Definition nullOrTrueFalse (o : option jsstring) : Prop :=
  match o with
  | None => True
  | Some a => trueFalseAnswer a
  end.

(** The invariant of the loop of section 2: the closed questions have an
    answer of the right form or none, the set of underlined letters holds
    distinct statement letters, the question in progress has no answer yet,
    its statements carry statement letters, and the statement index is -1
    or that of the last statement. *)
Definition p2_Good (st : Part2.State) : Prop :=
  Forall (fun q => nullOrTrueFalse (pq_correctAnswer q)) (Part2.questions st)
  /\ NoDup (Part2.currentQuestionTrueStatements st)
  /\ Forall (fun x => In x statementLetters) (Part2.currentQuestionTrueStatements st)
  /\ forall q, Part2.currentQ st = Some q ->
       pq_correctAnswer q = None
       /\ Forall (fun o => In (opt_letter o) statementLetters) (pq_options q)
       /\ (Part2.currentStmtIndex st = -1
           \/ Part2.currentStmtIndex st = Z.of_nat (List.length (pq_options q)) - 1)%Z.

(** The letters of the four options of a multiple-choice question. *)
Definition choiceLetters : list jsstring := [utf8 "A"; utf8 "B"; utf8 "C"; utf8 "D"].


(** The text content of a question: stem, options and solution. *)
Definition questionText (q : ParsedQuestion) : jsstring * list QuestionOption * jsstring :=
  (pq_text q, pq_options q, pq_solution q).

(** The text content a parser state holds: that of the closed questions and
    of the question in progress, and the two buffers. *)
Definition p1_text (st : Part1.State) :=
  (map questionText (Part1.questions st), option_map questionText (Part1.currentQ st),
   Part1.contentBuffer st, Part1.solutionBuffer st).

Definition p2_text (st : Part2.State) :=
  (map questionText (Part2.questions st), option_map questionText (Part2.currentQ st),
   Part2.contentBuffer st, Part2.solutionBuffer st).

Definition p3_text (st : Part3.State) :=
  (map questionText (Part3.questions st), option_map questionText (Part3.currentQ st),
   Part3.contentBuffer st, Part3.solutionBuffer st).

(** The option index is -1 or that of the last option of the question in
    progress. *)
Definition p1_Indexed (st : Part1.State) : Prop :=
  forall q, Part1.currentQ st = Some q ->
    (Part1.currentOptionIndex st = -1
     \/ Part1.currentOptionIndex st = Z.of_nat (List.length (pq_options q)) - 1)%Z.

(** [Number.isSafeInteger]: the integers a JavaScript number holds exactly.
    On them the arithmetic of the code is that of [Z]. *)
Definition safeInteger (z : Z) : Prop := (- 2 ^ 53 < z < 2 ^ 53)%Z.

















(** ** Example documents *)

Definition plain (text : string) : ParagraphData :=
  {| para_text := utf8 text; para_imageRIds := []; para_hasUnderline := false;
     para_underlinedSegments := [] |}.

(** A paragraph made of one underlined run. *)
Definition underlined (text : string) : ParagraphData :=
  {| para_text := utf8 text; para_imageRIds := []; para_hasUnderline := true;
     para_underlinedSegments := [utf8 text] |}.

(** A paragraph that holds a picture. *)
Definition withPicture (text : string) (rId : string) : ParagraphData :=
  {| para_text := utf8 text; para_imageRIds := [utf8 rId]; para_hasUnderline := false;
     para_underlinedSegments := [] |}.

Definition picture (id filename rId : string) : ImageData :=
  {| img_id := utf8 id; img_filename := utf8 filename; img_base64 := [];
     img_contentType := utf8 "image/png"; img_rId := utf8 rId |}.

(** A true/false section with one question whose statement a) is underlined. *)
Definition trueFalseDoc : list ParagraphData :=
  [plain "PHẦN 2"; plain "Câu 1. Xét"; underlined "a) một"; plain "b) hai"].

(** Two questions of section 1 with the same authored number. *)
Definition repeatedNumberDoc : list ParagraphData :=
  [plain "Câu 1. a"; plain "Câu 1. b"].

(** Question 101 of section 1 and question 1 of section 2. *)
Definition overflowDoc : list ParagraphData :=
  [plain "PHẦN 1"; plain "Câu 101. a"; plain "PHẦN 2"; plain "Câu 1. b"].

(** A document without section headers whose question is numbered 150. *)
Definition headerlessDoc : list ParagraphData := [plain "Câu 150. x"].

(** The scenario of the specification: option B is underlined. *)
Definition scenarioQuestion : ParagraphData := plain "Câu 1. 2+2=?".
Definition scenarioOptions : list ParagraphData :=
  [plain "A. 3"; underlined "B. 4"; plain "C. 5"; plain "D. 6"].
Definition scenarioDoc : list ParagraphData := scenarioQuestion :: scenarioOptions.

(** A figure paragraph with a picture, and the asset of the picture. *)
Definition figureParagraph : ParagraphData := withPicture "Hình 3" "rId5".
Definition figureAsset : ImageData := picture "img_0" "image1.png" "rId5".

(** The state of the parser of section 1 after a question marker, and
    after the solution marker that follows it. *)
Definition inStemState : Part1.State :=
  Part1.run [figureAsset] Part1.init [plain "Câu 1. x"].
Definition inSolutionState : Part1.State :=
  Part1.run [figureAsset] Part1.init [plain "Câu 1. x"; plain "Lời giải"].

(** A question whose figure comes after the solution marker. *)
Definition figureInSolutionDoc : list ParagraphData :=
  [plain "Câu 1. x"; plain "Lời giải"; figureParagraph].

(** An option that runs over two paragraphs. *)
Definition multilineOptionDoc : list ParagraphData :=
  [plain "Câu 2. Chọn?"; plain "A. foo"; plain "bar"; plain "B. baz"].

(** Three sections whose questions carry the same authored numbers 1 and 2. *)
Definition threeSectionDoc : list ParagraphData :=
  [plain "PHẦN 1"; plain "Câu 1. a"; plain "Câu 2. b";
   plain "PHẦN 2"; plain "Câu 1. c"; plain "Câu 2. d";
   plain "PHẦN 3"; plain "Câu 1. e"; plain "Câu 2. f"].




(** ** Vocabulary of the further properties *)

(** The index of the first paragraph, counted from [i], whose text matches
    one of [patterns]. *)
Fixpoint firstHeader (patterns : list regex) (i : Z) (ps : list ParagraphData) : option Z :=
  match ps with
  | [] => None
  | p :: ps1 =>
      if anyPattern patterns (para_text p) then Some i
      else firstHeader patterns (i + 1)%Z ps1
  end.

(** [start] is the default [dflt], or the index of a paragraph of [ps] that
    matches one of [patterns]. *)
Definition headerAt (patterns : list regex) (ps : list ParagraphData) (dflt start : Z)
  : Prop :=
  start = dflt
  \/ exists para, nth_error ps (Z.to_nat start) = Some para
                  /\ (0 <= start < Z.of_nat (List.length ps))%Z
                  /\ anyPattern patterns (para_text para) = true.

Definition scanned (patterns : list regex) (whole : list ParagraphData) (i start : Z) : Prop :=
  start = (-1)%Z
  \/ exists para, nth_error whole (Z.to_nat start) = Some para
                  /\ (0 <= start < i)%Z
                  /\ anyPattern patterns (para_text para) = true.

(** The index of the first paragraph, counted from [i], whose text matches
    one of [patterns] and whose index is not in [skip]. *)
Fixpoint firstHeaderExcept (patterns : list regex) (skip : list Z) (i : Z)
  (ps : list ParagraphData) : option Z :=
  match ps with
  | [] => None
  | p :: ps1 =>
      if anyPattern patterns (para_text p) && negb (existsb (Z.eqb i) skip) then Some i
      else firstHeaderExcept patterns skip (i + 1)%Z ps1
  end.

(** The value of a start index: that of the header found, else [dflt]. *)
Definition startOr (dflt : Z) (found : option Z) : Z :=
  match found with
  | Some j => j
  | None => dflt
  end.

(** The order of the parsers' sort: [a.number - b.number <= 0]. *)
Definition numberLe (a b : ParsedQuestion) : Prop := (pq_number a <= pq_number b)%Z.

(** The questions of [l] numbered [n], in the order of [l]. *)
Definition numbered (n : Z) (l : list ParsedQuestion) : list ParsedQuestion :=
  filter (fun q => (pq_number q =? n)%Z) l.

(** [P] holds of the question in progress, if there is one. *)
Definition p1_current (P : ParsedQuestion -> Prop) (st : Part1.State) : Prop :=
  forall q, Part1.currentQ st = Some q -> P q.
Definition p2_current (P : ParsedQuestion -> Prop) (st : Part2.State) : Prop :=
  forall q, Part2.currentQ st = Some q -> P q.
Definition p3_current (P : ParsedQuestion -> Prop) (st : Part3.State) : Prop :=
  forall q, Part3.currentQ st = Some q -> P q.

(** The options of [q] carry letters of [letters]. *)
Definition lettered (letters : list jsstring) (q : ParsedQuestion) : Prop :=
  Forall (fun o => In (opt_letter o) letters) (pq_options q).

(** The answer of [q], when it has one, is a letter of [letters]. *)
Definition answeredAmong (letters : list jsstring) (q : ParsedQuestion) : Prop :=
  forall a, pq_correctAnswer q = Some a -> In a letters.

Definition choiceQuestion (q : ParsedQuestion) : Prop :=
  lettered choiceLetters q /\ answeredAmong choiceLetters q.

(** The assignment [examData.answers[q.number] = q.correctAnswer] of a
    section loop, guarded by [if (q.correctAnswer)]; the loop of section 2
    has none. *)
Definition recordAnswer (keyed : bool) (m : AnswerKey) (q : Question) : AnswerKey :=
  answers (pushQuestion keyed
             {| title := []; timeLimit := 0; sections := []; questions := [];
                answers := m; images := [] |} q).

Definition questionLe (a b : Question) : Prop := (q_number a <= q_number b)%Z.

(** The sections an exam can have, in order. *)
Definition sectionTypes : list QuestionType := [multiple_choice; true_false; short_answer].

(** [l] is [full] with some elements left out. *)
Inductive sublist (A : Type) : list A -> list A -> Prop :=
| sublist_nil : sublist [] []
| sublist_skip x l full : sublist l full -> sublist l (x :: full)
| sublist_keep x l full : sublist l full -> sublist (x :: l) (x :: full).

(** A string that neither starts nor ends with white space. *)
Definition trimmed (s : jsstring) : Prop :=
  match s with
  | [] => True
  | c :: _ => isSpace c = false /\ isSpace (last s c) = false
  end.

(** The texts of a question, stem, options and solution, are trimmed. *)
Definition tidy (q : ParsedQuestion) : Prop :=
  trimmed (pq_text q) /\ Forall (fun o => trimmed (opt_text o)) (pq_options q)
  /\ trimmed (pq_solution q).

(** [a] is the trimmed capture of an answer line among [ps]: a paragraph
    whose text matches the answer pattern of section 3, of which [a] is the
    first group, trimmed. *)
Definition answerLineOf (ps : list ParagraphData) (a : jsstring) : Prop :=
  exists para m, In para ps
                 /\ jsmatch true Part3.answerPattern (para_text para) = Some m
                 /\ a = trim (capText 1 m).

(** A question without options whose answer, if any, is the trimmed capture
    of an answer line among [ps]. *)
Definition shortAnswerQuestion (ps : list ParagraphData) (q : ParsedQuestion) : Prop :=
  pq_options q = []
  /\ forall a, pq_correctAnswer q = Some a -> trimmed a /\ answerLineOf ps a.

(** The entity of one code unit. *)
Definition escapeUnit (c : N) : jsstring :=
  if c =? 38 then utf8 "&amp;"
  else if c =? 60 then utf8 "&lt;"
  else if c =? 62 then utf8 "&gt;"
  else [c].

(** [s.replace(/c/g, template)] unit by unit, for a template without [$]. *)
Definition replaceUnit (c : N) (template : jsstring) (x : N) : jsstring :=
  if x =? c then template else [x].

(** A record as the extraction pushes them: text or image ids, a trimmed
    text, the underline flag set exactly when a segment is recorded, and
    no empty segment or id. *)
Definition wellFormedParagraph (para : ParagraphData) : Prop :=
  isEmpty (para_text para) && negb (nonEmptyList (para_imageRIds para)) = false
  /\ trimmed (para_text para)
  /\ (para_hasUnderline para = true <-> para_underlinedSegments para <> [])
  /\ Forall (fun s => s <> [] /\ trimmed s) (para_underlinedSegments para)
  /\ Forall (fun id => id <> []) (para_imageRIds para).

(** The ids the first two image loops take from a run. *)
Definition runImageIds (run : Node) : list jsstring := vmlLoop (blipLoop [] run) run.

(** The invariant of the loop over the runs. *)
Definition runsInv (st : RunState) : Prop :=
  (rs_hasUnderline st = true <-> rs_underlinedSegments st <> [])
  /\ Forall (fun s => s <> [] /\ trimmed s) (rs_underlinedSegments st)
  /\ Forall (fun id => id <> []) (rs_imageRIds st).

(** The media entries read before the first read that rejects, with their
    content. *)
Fixpoint loadedMedia (entries : list ZipEntry) : list (jsstring * jsstring) :=
  match entries with
  | [] => []
  | e :: entries1 =>
      if isMediaEntry e then
        match ze_base64 e with
        | Loaded data => (ze_path e, data) :: loadedMedia entries1
        | Rejected => []
        end
      else loadedMedia entries1
  end.

(** The images of the files [files], numbered from [count]. *)
Fixpoint imagesFrom (imageRelMap : StringMap) (count : nat)
  (files : list (jsstring * jsstring)) : list ExtractedImage :=
  match files with
  | [] => []
  | (path, data) :: files1 =>
      newImage imageRelMap count path data :: imagesFrom imageRelMap (S count) files1
  end.

(** The identifier of the image pushed at index [i]. *)
Definition imageId (i : nat) : jsstring := utf8 "img_" ++ stringOfN (N.of_nat i).

(** A relationship id as the pattern captures it: [rId] and decimal digits. *)
Definition relationshipId (k : jsstring) : Prop :=
  exists ds, k = utf8 "rId" ++ ds /\ Forall (fun c => isDigitUnit c = true) ds.

(** The keys of the map are pairwise distinct relationship ids, and no value
    holds a slash. *)
Definition relMapInv (m : StringMap) : Prop :=
  NoDup (map fst m)
  /\ Forall (fun kv => relationshipId (fst kv) /\ Forall (fun c => c <> 47) (snd kv)) m.

(** The content type of an image is a web type, unless its extension is
    [bmp]; an extension that names a member of [Object.prototype] gives no
    string at all. *)
Definition contentTypeChecked (ext : jsstring) (t : ContentType) : Prop :=
  match t with
  | Mime s => isWebCompatibleImage s = false <-> ext = utf8 "bmp"
  | Inherited key => key = ext /\ (ext = utf8 "constructor" \/ ext = utf8 "__proto__")
  end.





(** The part of the sections of each type. *)
Definition sectionPart (ty : QuestionType) : Z :=
  match ty with
  | multiple_choice => 1
  | true_false => 2
  | short_answer => 3
  | _ => 0
  end.

(** What scoring reads of a section of the exam. *)
Definition sectionSummary (s : Section) : jsstring * QuestionType * Z :=
  (Scoring.sectionKey (sectionPart (s_sectionType s)), s_sectionType s,
   Z.of_nat (List.length (s_questions s))).

Definition configSummary (c : Scoring.SectionPointsConfig) : jsstring * QuestionType * Z :=
  (Scoring.sectionId c, Scoring.questionType c, Scoring.totalQuestions c).

(** A decimal comma becomes a point. *)
Definition commaToPoint (c : N) : N := if c =? 44 then 46 else c.

(** The units of [s] that are not white space. *)
Definition withoutSpaces (s : jsstring) : jsstring := filter (fun c => negb (isSpace c)) s.

(** * Properties *)

(** ** The matcher *)

Lemma jsstring_eqb_eq (a b : jsstring) : jsstring_eqb a b = true <-> a = b.
Proof.
  unfold jsstring_eqb. destruct (list_eq_dec N.eq_dec a b); split; congruence.
Qed.

Lemma repeatMatcher_sound (ic : bool) (r1 : regex) (g : bool) (lo : nat) (hi : option nat)
  (m : cont -> cont) :
  (forall k p s cs res, m k p s cs = Some res ->
     exists p1 s1 cs1, matches ic r1 p s cs p1 s1 cs1 /\ k p1 s1 cs1 = Some res) ->
  forall fuel k n p s cs res,
    repeatMatcher m g lo hi k fuel n p s cs = Some res ->
    exists p1 s1 cs1,
      matches ic (Rep g lo hi r1) p s cs p1 s1 cs1 /\ k p1 s1 cs1 = Some res.
Proof.
  intros Hm fuel. induction fuel as [|fuel IH]; intros k n p s cs res H; [discriminate|].
  cbn [repeatMatcher] in H.
  assert (Hagain : forall out,
    (if below hi n then
       m (fun p1 t1 c1 => if Nat.leb lo n && Nat.eqb p1 p then None
                          else repeatMatcher m g lo hi k fuel (S n) p1 t1 c1) p s cs
     else None) = Some out ->
    exists p1 s1 cs1, matches ic (Rep g lo hi r1) p s cs p1 s1 cs1 /\ k p1 s1 cs1 = Some out).
  { intros out Ho. destruct (below hi n); [|discriminate].
    apply Hm in Ho. destruct Ho as (p1 & s1 & cs1 & Hr & Hk).
    destruct (Nat.leb lo n && Nat.eqb p1 p); [discriminate|].
    apply IH in Hk. destruct Hk as (p2 & s2 & cs2 & Hrep & Hk).
    exists p2, s2, cs2. split; [eapply M_RepMore; eauto|exact Hk]. }
  assert (Hstop : forall out, (if Nat.leb lo n then k p s cs else None) = Some out ->
    exists p1 s1 cs1, matches ic (Rep g lo hi r1) p s cs p1 s1 cs1 /\ k p1 s1 cs1 = Some out).
  { intros out Ho. destruct (Nat.leb lo n); [|discriminate].
    exists p, s, cs. split; [apply M_RepStop|exact Ho]. }
  destruct g.
  - match type of H with
    | match ?a with _ => _ end = _ => destruct a as [out|] eqn:Ha
    end.
    + inversion H; subst. apply Hagain; reflexivity.
    + apply Hstop; exact H.
  - match type of H with
    | match ?a with _ => _ end = _ => destruct a as [out|] eqn:Ha
    end.
    + inversion H; subst. apply Hstop; reflexivity.
    + apply Hagain; exact H.
Qed.

Ltac matched :=
  do 3 eexists; split; [econstructor; eassumption | eassumption].

Lemma rmatch_sound (ic : bool) (r : regex) :
  forall k p s cs res, rmatch ic r k p s cs = Some res ->
    exists p1 s1 cs1, matches ic r p s cs p1 s1 cs1 /\ k p1 s1 cs1 = Some res.
Proof.
  induction r; intros k p s cs res H; cbn [rmatch] in H.
  - matched.
  - destruct s as [|x s]; [discriminate|].
    destruct (chrMatches ic c x) eqn:E; [|discriminate]. matched.
  - destruct s as [|x s]; [discriminate|].
    destruct (clsMatches ic rs x) eqn:E; [|discriminate]. matched.
  - destruct s as [|x s]; [discriminate|].
    destruct (isLineTerminator x) eqn:E; [discriminate|]. matched.
  - destruct s as [|x s]; [discriminate|]. matched.
  - destruct p; [|discriminate]. matched.
  - destruct s; [|discriminate]. matched.
  - apply IHr1 in H. destruct H as (p1 & s1 & cs1 & H1 & H).
    apply IHr2 in H. destruct H as (p2 & s2 & cs2 & H2 & H). matched.
  - destruct (rmatch ic r1 k p s cs) eqn:E.
    + inversion H; subst. apply IHr1 in E. destruct E as (p1 & s1 & cs1 & H1 & E1).
      do 3 eexists; split; [apply M_AltL; eassumption | eassumption].
    + apply IHr2 in H. destruct H as (p1 & s1 & cs1 & H1 & E1).
      do 3 eexists; split; [apply M_AltR; eassumption | eassumption].
  - eapply repeatMatcher_sound in H; [exact H|exact IHr].
  - apply IHr in H. destruct H as (p1 & s1 & cs1 & H1 & H).
    do 3 eexists; split; [apply M_Grp; eassumption | exact H].
  - destruct (rmatch ic r ret p s cs); [discriminate|]. matched.
Qed.

Lemma matches_span (ic : bool) (r : regex) p s cs p1 s1 cs1 :
  matches ic r p s cs p1 s1 cs1 ->
  exists m, s = m ++ s1 /\ p1 = (p + List.length m)%nat.
Proof.
  induction 1;
    try (exists []; split; [reflexivity | cbn; lia]);
    try (exists [x]; split; [reflexivity | cbn; lia]);
    try assumption.
  - destruct IHmatches1 as (m1 & -> & ->). destruct IHmatches2 as (m2 & -> & ->).
    exists (m1 ++ m2). rewrite <- app_assoc, length_app. split; [reflexivity | lia].
  - destruct IHmatches1 as (m1 & -> & ->). destruct IHmatches2 as (m2 & -> & ->).
    exists (m1 ++ m2). rewrite <- app_assoc, length_app. split; [reflexivity | lia].
Qed.

(** A pattern without groups leaves the captures as they are. *)
Lemma matches_nocap (ic : bool) (r : regex) p s cs p1 s1 cs1 :
  matches ic r p s cs p1 s1 cs1 -> ngroups r = O -> cs1 = cs.
Proof.
  induction 1; cbn [ngroups]; intros Hg; try reflexivity; try discriminate; auto.
  - assert (ngroups r1 = O /\ ngroups r2 = O) as [H1 H2] by lia.
    rewrite (IHmatches2 H2). auto.
  - apply IHmatches. lia.
  - apply IHmatches. lia.
  - rewrite (IHmatches2 Hg). auto.
Qed.

(** What a quantified class consumes is made of units of the class. *)
Lemma matches_rep_cls (ic : bool) g lo hi rs p s cs p1 s1 cs1 :
  matches ic (Rep g lo hi (Cls rs)) p s cs p1 s1 cs1 ->
  exists m, s = m ++ s1 /\ p1 = (p + List.length m)%nat /\
            Forall (fun x => clsMatches ic rs x = true) m.
Proof.
  remember (Rep g lo hi (Cls rs)) as r eqn:Er. intros H. revert Er.
  induction H; intros Er; try discriminate.
  - exists []. repeat split; [cbn; lia | constructor].
  - inversion Er; subst. destruct (IHmatches2 eq_refl) as (m2 & -> & -> & Hm2).
    inversion H; subst.
    exists (x :: m2). repeat split; [cbn; lia | constructor; assumption].
Qed.

Lemma searchFrom_sound (ic : bool) (r : regex) (s : jsstring) :
  forall pos start stop rest cs,
    searchFrom ic r pos s = Some (start, (stop, rest, cs)) ->
    exists s0, matches ic r start s0 [] stop rest cs.
Proof.
  induction s as [|x s IH]; intros pos start stop rest cs H; cbn [searchFrom] in H.
  - destruct (rmatch ic r ret pos [] []) eqn:E; [|discriminate].
    inversion H; subst. apply rmatch_sound in E.
    destruct E as (p1 & s1 & cs1 & Hm & Hr). inversion Hr; subst. eauto.
  - destruct (rmatch ic r ret pos (x :: s) []) eqn:E.
    + inversion H; subst. apply rmatch_sound in E.
      destruct E as (p1 & s1 & cs1 & Hm & Hr). inversion Hr; subst. eauto.
    + eapply IH; eassumption.
Qed.

Lemma jsmatch_sound (ic : bool) (r : regex) (s : jsstring) (cs : caps) :
  jsmatch ic r s = Some cs ->
  exists start s0 stop rest, matches ic r start s0 [] stop rest cs.
Proof.
  unfold jsmatch. destruct (searchFrom ic r 0 s) as [[start [[stop rest] cs0]]|] eqn:E;
    [|discriminate].
  intros H; inversion H; subst. apply searchFrom_sound in E. destruct E as (s0 & Hm).
  eauto.
Qed.

(** A pattern that starts with [^] matches at index 0 or not at all. *)
Lemma searchFrom_anchored (ic : bool) (r : regex) (s : jsstring) :
  forall pos, searchFrom ic (Seq Bol r) (S pos) s = None.
Proof.
  induction s as [|x s IH]; intros pos; cbn [searchFrom rmatch Nat.eqb]; auto.
Qed.

Lemma firstn_span (A : Type) (m s : list A) (p : nat) :
  firstn (p + List.length m - p) (m ++ s) = m.
Proof.
  replace (p + List.length m - p)%nat with (List.length m + 0)%nat by lia.
  rewrite firstn_app_2. cbn. apply app_nil_r.
Qed.

(** ** Fuel *)

Lemma reaches_refl p s : reaches p s p s.
Proof. exists []. split; [reflexivity | cbn; lia]. Qed.

Lemma reaches_step p x s : reaches p (x :: s) (S p) s.
Proof. exists [x]. split; [reflexivity | cbn; lia]. Qed.

Lemma reaches_trans p s p1 s1 p2 s2 :
  reaches p s p1 s1 -> reaches p1 s1 p2 s2 -> reaches p s p2 s2.
Proof.
  intros (a & -> & ->) (b & -> & ->). exists (a ++ b).
  rewrite <- app_assoc, length_app. split; [reflexivity | lia].
Qed.

Lemma agree_from p s p1 s1 k k1 : agree p s k k1 -> reaches p s p1 s1 -> agree p1 s1 k k1.
Proof.
  intros H R p2 s2 cs2 R2. apply H. eapply reaches_trans; eassumption.
Qed.

Lemma repeatMatcher_S (m : cont -> cont) g lo hi k fuel n p t c :
  repeatMatcher m g lo hi k (S fuel) n p t c
  = let again (_ : unit) :=
      if below hi n then
        m (fun p1 t1 c1 =>
             if Nat.leb lo n && Nat.eqb p1 p then None
             else repeatMatcher m g lo hi k fuel (S n) p1 t1 c1)
          p t c
      else None in
    let stop (_ : unit) := if Nat.leb lo n then k p t c else None in
    if g then
      match again tt with
      | Some res => Some res
      | None => stop tt
      end
    else
      match stop tt with
      | Some res => Some res
      | None => again tt
      end.
Proof. reflexivity. Qed.

Lemma repeatMatcher_ext (m : cont -> cont) g lo hi :
  (forall k k1 p s cs, agree p s k k1 -> m k p s cs = m k1 p s cs) ->
  forall fuel k k1 n p s cs, agree p s k k1 ->
    repeatMatcher m g lo hi k fuel n p s cs = repeatMatcher m g lo hi k1 fuel n p s cs.
Proof.
  intros Hm fuel. induction fuel as [|fuel IH]; intros k k1 n p s cs Hk; [reflexivity|].
  cbn [repeatMatcher].
  rewrite (Hk p s cs (reaches_refl p s)).
  replace (m (fun p1 t1 c1 => if Nat.leb lo n && Nat.eqb p1 p then None
                              else repeatMatcher m g lo hi k fuel (S n) p1 t1 c1) p s cs)
    with (m (fun p1 t1 c1 => if Nat.leb lo n && Nat.eqb p1 p then None
                             else repeatMatcher m g lo hi k1 fuel (S n) p1 t1 c1) p s cs);
    [reflexivity|].
  apply Hm. intros p1 s1 cs1 R. destruct (Nat.leb lo n && Nat.eqb p1 p); [reflexivity|].
  symmetry. apply IH. eapply agree_from; eassumption.
Qed.

(** The matcher only looks at its continuation on what is left of the
    input. *)
Lemma rmatch_ext (ic : bool) (r : regex) :
  forall k k1 p s cs, agree p s k k1 -> rmatch ic r k p s cs = rmatch ic r k1 p s cs.
Proof.
  induction r; intros k k1 p s cs Hk; cbn [rmatch].
  - apply Hk, reaches_refl.
  - destruct s as [|x s]; [reflexivity|]. rewrite (Hk _ _ cs (reaches_step p x s)). reflexivity.
  - destruct s as [|x s]; [reflexivity|]. rewrite (Hk _ _ cs (reaches_step p x s)). reflexivity.
  - destruct s as [|x s]; [reflexivity|]. rewrite (Hk _ _ cs (reaches_step p x s)). reflexivity.
  - destruct s as [|x s]; [reflexivity|]. apply Hk, reaches_step.
  - rewrite (Hk _ _ cs (reaches_refl p s)). reflexivity.
  - rewrite (Hk _ _ cs (reaches_refl p s)). reflexivity.
  - apply IHr1. intros p1 s1 cs1 R. apply IHr2. eapply agree_from; eassumption.
  - rewrite (IHr1 k k1 p s cs Hk), (IHr2 k k1 p s cs Hk). reflexivity.
  - apply repeatMatcher_ext; [exact IHr | exact Hk].
  - apply IHr. intros p1 s1 cs1 R. apply Hk. exact R.
  - rewrite (Hk _ _ cs (reaches_refl p s)). reflexivity.
Qed.

(** The fuel of the quantifier loop: above [length t + (lo - n)] one more
    unit changes nothing. *)
Lemma repeatMatcher_fuel (ic : bool) (r : regex) g lo hi k :
  forall fuel n p t c,
    (List.length t + (lo - n) < fuel)%nat ->
    repeatMatcher (rmatch ic r) g lo hi k (S fuel) n p t c
    = repeatMatcher (rmatch ic r) g lo hi k fuel n p t c.
Proof.
  induction fuel as [|fuel IH]; intros n p t c Hf; [lia|].
  rewrite (repeatMatcher_S (rmatch ic r) g lo hi k (S fuel) n p t c).
  rewrite (repeatMatcher_S (rmatch ic r) g lo hi k fuel n p t c). cbv zeta.
  replace (rmatch ic r
             (fun p1 t1 c1 => if Nat.leb lo n && Nat.eqb p1 p then None
                              else repeatMatcher (rmatch ic r) g lo hi k (S fuel) (S n) p1 t1 c1)
             p t c)
    with (rmatch ic r
            (fun p1 t1 c1 => if Nat.leb lo n && Nat.eqb p1 p then None
                             else repeatMatcher (rmatch ic r) g lo hi k fuel (S n) p1 t1 c1)
            p t c);
    [reflexivity|].
  apply rmatch_ext. intros p1 t1 c1 (pre & -> & ->).
  destruct (Nat.leb lo n && Nat.eqb (p + List.length pre) p) eqn:E; [reflexivity|].
  symmetry. apply IH. rewrite length_app in Hf.
  destruct (Nat.leb lo n) eqn:El; cbn [andb] in E.
  - apply Nat.eqb_neq in E. apply Nat.leb_le in El. lia.
  - apply Nat.leb_gt in El. lia.
Qed.

(** The fuel [rmatch] gives to the loop is never exhausted: any larger fuel
    gives the same result. *)
Lemma rmatch_rep_enough_fuel (ic : bool) (r : regex) g lo hi k p s cs (extra : nat) :
  repeatMatcher (rmatch ic r) g lo hi k (List.length s + lo + 1 + extra) O p s cs
  = rmatch ic (Rep g lo hi r) k p s cs.
Proof.
  cbn [rmatch]. induction extra as [|extra IH].
  - rewrite Nat.add_0_r. reflexivity.
  - rewrite <- IH. replace (List.length s + lo + 1 + S extra)%nat
      with (S (List.length s + lo + 1 + extra)) by lia.
    apply repeatMatcher_fuel. lia.
Qed.

(** What [searchFrom] returns is a match of a suffix of the input. *)
Lemma searchFrom_suffix (ic : bool) (r : regex) (s : jsstring) :
  forall pos start stop rest cs,
    searchFrom ic r pos s = Some (start, (stop, rest, cs)) ->
    exists pre m, s = pre ++ m ++ rest /\ start = (pos + List.length pre)%nat
                  /\ stop = (start + List.length m)%nat
                  /\ matches ic r start (m ++ rest) [] stop rest cs.
Proof.
  induction s as [|x s IH]; intros pos start stop rest cs H; cbn [searchFrom] in H.
  - destruct (rmatch ic r ret pos [] []) eqn:E; [|discriminate].
    inversion H; subst. apply rmatch_sound in E.
    destruct E as (p1 & s1 & cs1 & Hm & Hr). inversion Hr; subst.
    destruct (matches_span Hm) as (m & Hs & Hp).
    exists [], m. rewrite <- Hs. cbn. repeat split; try lia; assumption.
  - destruct (rmatch ic r ret pos (x :: s) []) eqn:E.
    + inversion H; subst. apply rmatch_sound in E.
      destruct E as (p1 & s1 & cs1 & Hm & Hr). inversion Hr; subst.
      destruct (matches_span Hm) as (m & Hs & Hp).
      exists [], m. rewrite <- Hs. cbn. repeat split; try lia; assumption.
    + apply IH in H. destruct H as (pre & m & -> & -> & -> & Hm).
      exists (x :: pre), m. cbn. repeat split; try lia; assumption.
Qed.

Lemma replaceFrom_S (St : Type) ic r
  (replacer : St -> caps -> jsstring -> jsstring -> jsstring -> St * jsstring) whole
  fuel st pos s :
  replaceFrom ic r replacer whole (S fuel) st pos s
  = match searchFrom ic r pos s with
    | None => (st, s)
    | Some (start, (stop, rest, cs)) =>
        let between := firstn (start - pos) s in
        let matched := firstn (stop - start) (skipn (start - pos) s) in
        let '(st1, sub) := replacer st cs matched (firstn start whole) rest in
        if Nat.eqb stop start then
          match rest with
          | [] => (st1, between ++ sub)
          | c :: rest1 =>
              let '(st2, out) := replaceFrom ic r replacer whole fuel st1 (S stop) rest1 in
              (st2, between ++ sub ++ c :: out)
          end
        else
          let '(st2, out) := replaceFrom ic r replacer whole fuel st1 stop rest in
          (st2, between ++ sub ++ out)
    end.
Proof. reflexivity. Qed.

(** The fuel of the replacement loop: above the length of the text that is
    left, one more unit changes nothing, so the fuel [replaceWith] and
    [replaceAll] give is never exhausted. *)
Lemma replaceFrom_fuel (St : Type) ic r
  (replacer : St -> caps -> jsstring -> jsstring -> jsstring -> St * jsstring) whole :
  forall fuel st pos s,
    (List.length s < fuel)%nat ->
    replaceFrom ic r replacer whole (S fuel) st pos s
    = replaceFrom ic r replacer whole fuel st pos s.
Proof.
  induction fuel as [|fuel IH]; intros st pos s Hf; [lia|].
  rewrite (replaceFrom_S ic r replacer whole (S fuel)), (replaceFrom_S ic r replacer whole fuel).
  destruct (searchFrom ic r pos s) as [[start [[stop rest] cs]]|] eqn:E; [|reflexivity].
  apply searchFrom_suffix in E. destruct E as (pre & m & -> & -> & -> & _).
  cbv zeta. rewrite !length_app in Hf.
  destruct (replacer st cs _ _ rest) as [st1 sub].
  destruct (Nat.eqb (pos + List.length pre + List.length m) (pos + List.length pre)) eqn:Ee.
  - destruct rest as [|c rest1]; [reflexivity|]. cbn [List.length] in Hf.
    rewrite IH by lia. reflexivity.
  - apply Nat.eqb_neq in Ee. rewrite IH by lia. reflexivity.
Qed.

(** ** Patterns *)

Ltac inv H := inversion H; subst; clear H.

Ltac split_seq :=
  repeat match goal with
         | H : matches _ (Seq _ _) _ _ _ _ _ _ |- _ => inv H
         end.

Ltac drop_nocap :=
  repeat match goal with
         | H : matches _ ?r _ _ ?cs _ _ ?cs1 |- _ =>
             lazymatch r with
             | Grp _ _ => fail
             | _ => apply matches_nocap in H; [subst cs1 | reflexivity]
             end
         end.

Ltac break_if :=
  match goal with
  | |- context [if ?b then _ else _] => destruct b eqn:?
  end.

Ltac break_match :=
  match goal with
  | |- context [match ?x with _ => _ end] => destruct x eqn:?
  end.

Lemma digit_class (x : N) : clsMatches true [(48, 57)] x = true -> isDigitUnit x = true.
Proof.
  unfold clsMatches, in_ranges, isDigitUnit, toUpperUnit, toLowerUnit. cbn [existsb fst snd].
  repeat break_if; lia.
Qed.

(** The first capture of a question marker is a run of digits. *)
Lemma questionLine_digits (t : jsstring) (cs : caps) :
  isQuestionLine t = Some cs ->
  exists ds, cap 1 cs = Some ds /\ Forall (fun x => isDigitUnit x = true) ds.
Proof.
  unfold isQuestionLine. intros H. apply jsmatch_sound in H.
  destruct H as (start & s0 & stop & rest & H).
  unfold questionPattern in H. cbn [seqs] in H. split_seq.
  match goal with H : matches _ (Grp 2 _) _ _ _ _ _ _ |- _ => inv H end.
  match goal with H : matches _ (Grp 1 _) _ _ _ _ _ _ |- _ => inv H end.
  match goal with H : matches _ (plus digit) _ _ _ _ _ _ |- _ =>
    apply matches_rep_cls in H; destruct H as (ds & -> & -> & Hds) end.
  drop_nocap. exists ds. split.
  - cbn [cap Nat.eqb]. rewrite firstn_span. reflexivity.
  - eapply Forall_impl; [|exact Hds]. apply digit_class.
Qed.

Lemma parseInt_nonneg (ds : jsstring) :
  Forall (fun x => isDigitUnit x = true) ds -> (0 <= parseInt ds)%Z.
Proof.
  unfold parseInt.
  assert (G : forall acc, Forall (fun x => isDigitUnit x = true) ds -> (0 <= acc)%Z ->
    (0 <= fold_left (fun acc c => acc * 10 + (Z.of_N c - 48))%Z ds acc)%Z).
  { induction ds as [|d ds IH]; intros acc Hd Hacc; cbn [fold_left]; [exact Hacc|].
    inversion Hd; subst. apply IH; [assumption|]. unfold isDigitUnit in *. lia. }
  intros H. apply G; [exact H|lia].
Qed.

(** The number a question marker carries is not negative. *)
Lemma questionLine_nonneg (t : jsstring) (cs : caps) :
  isQuestionLine t = Some cs -> (0 <= parseInt (capText 1 cs))%Z.
Proof.
  intros H. apply questionLine_digits in H. destruct H as (ds & Hc & Hd).
  unfold capText. rewrite Hc. apply parseInt_nonneg. exact Hd.
Qed.

Lemma letter_class_lower (x : N) :
  clsMatches true [(97, 100)] x = true ->
  In (toLowerCase [x]) [utf8 "a"; utf8 "b"; utf8 "c"; utf8 "d"].
Proof.
  unfold clsMatches, in_ranges, toUpperUnit. cbn [existsb fst snd toLowerCase map].
  intros H.
  assert (Hx : (97 <= toLowerUnit x <= 100)).
  { unfold toLowerUnit in *.
    repeat match goal with
           | |- context [if ?b then _ else _] => destruct b eqn:?
           | H : context [if ?b then _ else _] |- _ => destruct b eqn:?
           end; lia. }
  assert (E : toLowerUnit x = 97 \/ toLowerUnit x = 98 \/ toLowerUnit x = 99
              \/ toLowerUnit x = 100) by lia.
  cbn. destruct E as [-> | [-> | [-> | ->]]]; auto.
Qed.

(** The letter of a statement line, lowercased, is one of a, b, c, d. *)
Lemma statement_letter (t : jsstring) (cs : caps) :
  jsmatch true Part2.statementPattern t = Some cs ->
  In (toLowerCase (capText 1 cs)) [utf8 "a"; utf8 "b"; utf8 "c"; utf8 "d"].
Proof.
  intros H. apply jsmatch_sound in H.
  destruct H as (start & s0 & stop & rest & H).
  unfold Part2.statementPattern in H. cbn [seqs] in H. split_seq.
  match goal with H : matches _ (Grp 2 _) _ _ _ _ _ _ |- _ => inv H end.
  match goal with H : matches _ (Grp 1 _) _ _ _ _ _ _ |- _ => inv H end.
  match goal with H : matches _ (Cls _) _ _ _ _ _ _ |- _ => inv H end.
  drop_nocap. unfold capText. cbn [cap Nat.eqb].
  match goal with
  | |- context [(S ?p - ?p)%nat] => replace (S p - p)%nat with 1%nat by lia
  end.
  cbn [firstn]. apply letter_class_lower; assumption.
Qed.

(** ** Invariants of the section parsers *)

Lemma stable_attachIfAny P q rIds images : stable P -> P q -> P (attachIfAny q rIds images).
Proof.
  intros HP Hq. unfold attachIfAny. destruct (nonEmptyList rIds); [apply HP|]; assumption.
Qed.

Lemma In_insertByNumber q x l : In x (insertByNumber q l) <-> x = q \/ In x l.
Proof.
  induction l as [|y l IH]; cbn [insertByNumber In].
  - intuition.
  - destruct (pq_number q <? pq_number y)%Z; cbn [In]; rewrite ?IH; intuition.
Qed.

Lemma In_sortByNumber x l : In x (sortByNumber l) <-> In x l.
Proof.
  unfold sortByNumber.
  assert (G : forall acc, In x (fold_left (fun acc q => insertByNumber q acc) l acc)
                          <-> In x l \/ In x acc).
  { induction l as [|y l IH]; intros acc; cbn [fold_left In]; [intuition|].
    rewrite IH, In_insertByNumber. intuition. }
  rewrite G. cbn [In]. intuition.
Qed.

Lemma In_slice (A : Type) (x : A) (l : list A) (a b : Z) : In x (slice l a b) -> In x l.
Proof.
  unfold slice. intros H.
  rewrite <- (firstn_skipn (Z.to_nat a) l). apply in_or_app. right.
  rewrite <- (firstn_skipn (Z.to_nat (b - a)) (skipn (Z.to_nat a) l)).
  apply in_or_app. left. exact H.
Qed.

Ltac solve_question HP Hopen :=
  repeat first [ assumption
               | apply stable_attachIfAny; [exact HP|]
               | apply HP
               | apply Hopen; assumption
               | break_if ].

Ltac solve_step HP Hopen Hcur :=
  repeat first [break_if | break_match];
  (split; [ cbn; try assumption
          | cbn; intros q0 Hq0; try rewrite Hcur in Hq0; inversion Hq0; subst; clear Hq0;
            solve_question HP Hopen ]).

(** *** Section 1 *)

Lemma p1_close_stable P st q : stable P -> P q -> P (Part1.closeQuestion st q).
Proof.
  intros HP Hq. unfold Part1.closeQuestion, Part1.inferAnswer.
  repeat break_if; repeat break_match; repeat (apply HP); assumption.
Qed.

Lemma p1_flush_stable P st : stable P -> p1_Inv P st -> Forall P (Part1.flush st).
Proof.
  intros HP [Hqs Hc]. unfold Part1.flush. destruct (Part1.currentQ st) as [q|]; [|exact Hqs].
  break_if; [|exact Hqs]. apply Forall_app. split; [exact Hqs|].
  constructor; [|constructor]. apply p1_close_stable; auto.
Qed.

Lemma p1_step_stable P images st para :
  stable P -> opens P 1 multiple_choice para -> p1_Inv P st ->
  p1_Inv P (Part1.step images st para).
Proof.
  intros HP Hopen HI. pose proof (@p1_flush_stable P st HP HI) as Hfl.
  destruct HI as [Hqs Hc].
  unfold Part1.step, Part1.continuation, Part1.fallThrough.
  destruct (Part1.currentQ st) as [q|] eqn:Hcur; [specialize (Hc q eq_refl)|clear Hc];
    solve_step HP Hopen Hcur.
Qed.

Lemma p1_run_stable P images ps : forall st,
  stable P -> (forall para, In para ps -> opens P 1 multiple_choice para) ->
  p1_Inv P st -> p1_Inv P (Part1.run images st ps).
Proof.
  unfold Part1.run.
  induction ps as [|para ps IH]; intros st HP Hopen HI; cbn [fold_left]; [exact HI|].
  apply IH; [exact HP | intros; apply Hopen; right; assumption |].
  apply p1_step_stable; [exact HP | apply Hopen; left; reflexivity | exact HI].
Qed.

Lemma p1_parse_stable P paragraphs startIdx endIdx images :
  stable P -> (forall para, In para paragraphs -> opens P 1 multiple_choice para) ->
  Forall P (Part1.parsePart1WithUnderline paragraphs startIdx endIdx images).
Proof.
  intros HP Hopen. unfold Part1.parsePart1WithUnderline. break_if; [constructor|].
  apply Forall_forall. intros q Hq. rewrite In_sortByNumber in Hq. revert q Hq.
  apply Forall_forall. apply p1_flush_stable; [exact HP|].
  apply p1_run_stable; [exact HP | | split; [constructor | discriminate]].
  intros para Hin. apply Hopen. eapply In_slice; exact Hin.
Qed.

(** *** Section 2 *)

Lemma p2_close_stable P st q : stable P -> P q -> P (Part2.closeQuestion st q).
Proof.
  intros HP Hq. unfold Part2.closeQuestion, Part2.inferAnswer.
  repeat break_if; repeat break_match; repeat (apply HP); assumption.
Qed.

Lemma p2_flush_stable P st : stable P -> p2_Inv P st -> Forall P (Part2.flush st).
Proof.
  intros HP [Hqs Hc]. unfold Part2.flush. destruct (Part2.currentQ st) as [q|]; [|exact Hqs].
  break_if; [|exact Hqs]. apply Forall_app. split; [exact Hqs|].
  constructor; [|constructor]. apply p2_close_stable; auto.
Qed.

Lemma p2_step_stable P images st para :
  stable P -> opens P 2 true_false para -> p2_Inv P st ->
  p2_Inv P (Part2.step images st para).
Proof.
  intros HP Hopen HI. pose proof (@p2_flush_stable P st HP HI) as Hfl.
  destruct HI as [Hqs Hc].
  unfold Part2.step, Part2.continuation, Part2.fallThrough.
  destruct (Part2.currentQ st) as [q|] eqn:Hcur; [specialize (Hc q eq_refl)|clear Hc];
    solve_step HP Hopen Hcur.
Qed.

Lemma p2_run_stable P images ps : forall st,
  stable P -> (forall para, In para ps -> opens P 2 true_false para) ->
  p2_Inv P st -> p2_Inv P (Part2.run images st ps).
Proof.
  unfold Part2.run.
  induction ps as [|para ps IH]; intros st HP Hopen HI; cbn [fold_left]; [exact HI|].
  apply IH; [exact HP | intros; apply Hopen; right; assumption |].
  apply p2_step_stable; [exact HP | apply Hopen; left; reflexivity | exact HI].
Qed.

Lemma p2_parse_stable P paragraphs startIdx endIdx images :
  stable P -> (forall para, In para paragraphs -> opens P 2 true_false para) ->
  Forall P (Part2.parsePart2 paragraphs startIdx endIdx images).
Proof.
  intros HP Hopen. unfold Part2.parsePart2. break_if; [constructor|].
  apply Forall_forall. intros q Hq. rewrite In_sortByNumber in Hq. revert q Hq.
  apply Forall_forall. apply p2_flush_stable; [exact HP|].
  apply p2_run_stable; [exact HP | | split; [constructor | discriminate]].
  intros para Hin. apply Hopen. eapply In_slice; exact Hin.
Qed.

(** *** Section 3 *)

Lemma p3_close_stable P st q : stable P -> P q -> P (Part3.closeQuestion st q).
Proof.
  intros HP Hq. unfold Part3.closeQuestion.
  repeat break_if; repeat (apply HP); assumption.
Qed.

Lemma p3_flush_stable P st : stable P -> p3_Inv P st -> Forall P (Part3.flush st).
Proof.
  intros HP [Hqs Hc]. unfold Part3.flush. destruct (Part3.currentQ st) as [q|]; [|exact Hqs].
  break_if; [|exact Hqs]. apply Forall_app. split; [exact Hqs|].
  constructor; [|constructor]. apply p3_close_stable; auto.
Qed.

Lemma p3_step_stable P images st para :
  stable P -> opens P 3 short_answer para -> p3_Inv P st ->
  p3_Inv P (Part3.step images st para).
Proof.
  intros HP Hopen HI. pose proof (@p3_flush_stable P st HP HI) as Hfl.
  destruct HI as [Hqs Hc].
  unfold Part3.step, Part3.fallThrough.
  destruct (Part3.currentQ st) as [q|] eqn:Hcur; [specialize (Hc q eq_refl)|clear Hc];
    solve_step HP Hopen Hcur.
Qed.

Lemma p3_run_stable P images ps : forall st,
  stable P -> (forall para, In para ps -> opens P 3 short_answer para) ->
  p3_Inv P st -> p3_Inv P (Part3.run images st ps).
Proof.
  unfold Part3.run.
  induction ps as [|para ps IH]; intros st HP Hopen HI; cbn [fold_left]; [exact HI|].
  apply IH; [exact HP | intros; apply Hopen; right; assumption |].
  apply p3_step_stable; [exact HP | apply Hopen; left; reflexivity | exact HI].
Qed.

Lemma p3_parse_stable P paragraphs startIdx endIdx images :
  stable P -> (forall para, In para paragraphs -> opens P 3 short_answer para) ->
  Forall P (Part3.parsePart3 paragraphs startIdx endIdx images).
Proof.
  intros HP Hopen. unfold Part3.parsePart3. break_if; [constructor|].
  apply Forall_forall. intros q Hq. rewrite In_sortByNumber in Hq. revert q Hq.
  apply Forall_forall. apply p3_flush_stable; [exact HP|].
  apply p3_run_stable; [exact HP | | split; [constructor | discriminate]].
  intros para Hin. apply Hopen. eapply In_slice; exact Hin.
Qed.

(** ** Images *)

Lemma hasImage_false (l : list ImageData) (img : ImageData) :
  hasImage l img = false -> ~ In (img_id img) (map img_id l).
Proof.
  unfold hasImage. induction l as [|i l IH]; cbn [existsb map In]; [tauto|].
  intros H. apply orb_false_iff in H. destruct H as [H1 H2].
  intros [E | Hin]; [|exact (IH H2 Hin)].
  assert (jsstring_eqb (img_id i) (img_id img) = true) by (apply jsstring_eqb_eq; exact E).
  congruence.
Qed.

Lemma attachOne_distinct (images l : list ImageData) (rId : jsstring) :
  distinctImages l -> distinctImages (attachOne images l rId).
Proof.
  unfold attachOne, distinctImages. intros Hl.
  destruct (resolveImage images rId) as [img|]; [|exact Hl].
  destruct (hasImage l img) eqn:E; [exact Hl|].
  rewrite map_app. cbn [map]. apply NoDup_app.
  - exact Hl.
  - constructor; [intros []|constructor].
  - intros x Hx [<- | []]. exact (hasImage_false _ _ E Hx).
Qed.

Lemma attachImages_distinct (q : ParsedQuestion) (rIds : list jsstring)
  (images : list ImageData) :
  distinctImages (pq_images q) -> distinctImages (pq_images (attachImages q rIds images)).
Proof.
  unfold attachImages. cbn [pq_images setImages]. generalize (pq_images q) as l.
  induction rIds as [|rId rIds IH]; intros l Hl; cbn [fold_left]; [exact Hl|].
  apply IH. apply attachOne_distinct. exact Hl.
Qed.

Lemma distinct_stable : stable (fun q => distinctImages (pq_images q)).
Proof.
  split; intros; try assumption. apply attachImages_distinct. assumption.
Qed.

Lemma distinct_opens part ty para : opens (fun q => distinctImages (pq_images q)) part ty para.
Proof.
  intros cs _. cbn. constructor.
Qed.

(** ** The assembler *)

Lemma sectionLoop_questions keyed pqs : forall gi ed sq,
  let '(gi1, ed1, sq1) := fold_left (sectionLoopBody keyed) pqs (gi, ed, sq) in
  questions ed1 = questions ed ++ map (fun pq => convertToQuestion pq 0) pqs
  /\ sq1 = sq ++ map (fun pq => convertToQuestion pq 0) pqs
  /\ sections ed1 = sections ed.
Proof.
  induction pqs as [|pq pqs IH]; intros gi ed sq; cbn [fold_left map].
  - rewrite !app_nil_r. auto.
  - cbn [sectionLoopBody].
    specialize (IH (gi + 1)%Z (pushQuestion keyed ed (convertToQuestion pq gi))
                  (sq ++ [convertToQuestion pq gi])).
    destruct (fold_left (sectionLoopBody keyed) pqs _) as [[gi1 ed1] sq1].
    destruct IH as (H1 & H2 & H3). cbn [pushQuestion questions sections] in *.
    rewrite H1, H2, H3, <- !app_assoc. auto.
Qed.

Lemma assemblePart_questions keyed name description ty pqs a :
  questions (examData (assemblePart keyed name description ty pqs a))
  = questions (examData a) ++ map (fun pq => convertToQuestion pq 0) pqs.
Proof.
  unfold assemblePart. destruct pqs as [|pq pqs]; cbn [nonEmptyList].
  - cbn. rewrite app_nil_r. reflexivity.
  - pose proof (sectionLoop_questions keyed (pq :: pqs) (globalIndex a) (examData a) []) as H.
    destruct (fold_left (sectionLoopBody keyed) (pq :: pqs) _) as [[gi1 ed1] sq1].
    destruct H as (H1 & _). cbn. exact H1.
Qed.

Lemma assemblePart_sections keyed name description ty pqs a :
  sections (examData (assemblePart keyed name description ty pqs a))
  = sections (examData a)
    ++ (if nonEmptyList pqs
        then [{| s_name := name; s_description := description; s_points := [];
                 s_questions := map (fun pq => convertToQuestion pq 0) pqs;
                 s_sectionType := ty |}]
        else []).
Proof.
  unfold assemblePart. destruct pqs as [|pq pqs]; cbn [nonEmptyList].
  - rewrite app_nil_r. reflexivity.
  - pose proof (sectionLoop_questions keyed (pq :: pqs) (globalIndex a) (examData a) []) as H.
    destruct (fold_left (sectionLoopBody keyed) (pq :: pqs) _) as [[gi1 ed1] sq1].
    destruct H as (_ & H2 & H3). cbn [examData pushSection sections]. rewrite H2, H3.
    reflexivity.
Qed.

(** The three lists the section parsers hand to the assembler. *)
Lemma parseAllQuestions_questions paragraphs images :
  let info := detectSections (join [10] (map para_text paragraphs)) paragraphs in
  questions (parseAllQuestions paragraphs images)
  = map (fun pq => convertToQuestion pq 0)
      (Part1.parsePart1WithUnderline paragraphs (part1Start info) (part2Start info) images
       ++ Part2.parsePart2 paragraphs (part2Start info) (part3Start info) images
       ++ Part3.parsePart3 paragraphs (part3Start info)
            (Z.of_nat (List.length paragraphs)) images).
Proof.
  cbv zeta. unfold parseAllQuestions.
  rewrite !assemblePart_questions. cbn [questions examData app].
  rewrite !map_app, <- app_assoc. reflexivity.
Qed.

(** ** Claims on images and validation *)

(** C10.  No question ever holds two images with the same identifier:
    [attachImages] keeps the identifiers of a question's images pairwise
    distinct, attaching a relationship id whose asset is already in the list
    leaves the list as it is, any sequence of [attachImages] calls on a new
    question yields distinct identifiers, and so do the questions of the
    three section parsers and of the assembled exam. *)
Theorem attachImages_never_duplicates (paragraphs : list ParagraphData) (startIdx endIdx : Z)
  (images : list ImageData) :
  (forall q rIds, distinctImages (pq_images q) ->
                  distinctImages (pq_images (attachImages q rIds images)))
  /\ (forall q rId img, resolveImage images rId = Some img ->
                        hasImage (pq_images q) img = true ->
                        pq_images (attachImages q [rId] images) = pq_images q)
  /\ (forall (calls : list (list jsstring)) qNum part ty,
        distinctImages
          (pq_images (fold_left (fun q rIds => attachImages q rIds images) calls
                        (newQuestion qNum part ty))))
  /\ Forall (fun q => distinctImages (pq_images q))
       (Part1.parsePart1WithUnderline paragraphs startIdx endIdx images)
  /\ Forall (fun q => distinctImages (pq_images q))
       (Part2.parsePart2 paragraphs startIdx endIdx images)
  /\ Forall (fun q => distinctImages (pq_images q))
       (Part3.parsePart3 paragraphs startIdx endIdx images)
  /\ Forall (fun q => distinctImages (q_images q))
       (questions (parseAllQuestions paragraphs images)).
Proof.
  repeat split.
  - intros q rIds. apply attachImages_distinct.
  - intros q rId img Hres Hhas. unfold attachImages, attachOne.
    cbn [fold_left pq_images setImages]. rewrite Hres, Hhas. reflexivity.
  - intros calls qNum part ty.
    assert (G : forall q, distinctImages (pq_images q) ->
      distinctImages (pq_images (fold_left (fun q rIds => attachImages q rIds images) calls q))).
    { induction calls as [|c calls IH]; intros q Hq; cbn [fold_left]; [exact Hq|].
      apply IH. apply attachImages_distinct. exact Hq. }
    apply G. constructor.
  - apply p1_parse_stable; [apply distinct_stable | intros; apply distinct_opens].
  - apply p2_parse_stable; [apply distinct_stable | intros; apply distinct_opens].
  - apply p3_parse_stable; [apply distinct_stable | intros; apply distinct_opens].
  - rewrite parseAllQuestions_questions. apply Forall_map. cbn [convertToQuestion q_images].
    repeat (apply Forall_app; split).
    + apply p1_parse_stable; [apply distinct_stable | intros; apply distinct_opens].
    + apply p2_parse_stable; [apply distinct_stable | intros; apply distinct_opens].
    + apply p3_parse_stable; [apply distinct_stable | intros; apply distinct_opens].
Qed.

Lemma tally_errors (qs : list Question) : forall t,
  t_errors (fold_left tallyQuestion qs t)
  = t_errors t ++ map missingTextError (filter stemMissing qs).
Proof.
  induction qs as [|q qs IH]; intros t; cbn [fold_left filter map].
  - rewrite app_nil_r. reflexivity.
  - rewrite IH. cbn [tallyQuestion t_errors].
    destruct (stemMissing q); cbn [map]; rewrite <- ?app_assoc; reflexivity.
Qed.

(** C9, as the code has it.  The validation pass reports one error for each
    question whose stem is empty or blank, in order, after a first error
    when the exam has no question at all; [valid] holds exactly when the
    exam has a question and no stem is missing. *)
Theorem validateExamData_errors (data : ExamData) :
  errors (validateExamData data)
  = (if nonEmptyList (questions data) then [] else [noQuestionError])
    ++ map missingTextError (filter stemMissing (questions data))
  /\ (valid (validateExamData data) = true
      <-> questions data <> [] /\ Forall (fun q => stemMissing q = false) (questions data)).
Proof.
  unfold validateExamData. cbn [errors valid]. rewrite tally_errors. cbn [t_errors].
  split; [reflexivity|].
  destruct (questions data) as [|q qs] eqn:E; cbn [nonEmptyList app].
  - cbn. split; [discriminate | intros [H _]; congruence].
  - split.
    + intros H. split; [discriminate|].
      apply Forall_forall. intros x Hx. destruct (stemMissing x) eqn:Ex; [|reflexivity].
      assert (Hin : In x (filter stemMissing (q :: qs))) by (apply filter_In; auto).
      destruct (filter stemMissing (q :: qs)); [destruct Hin | discriminate H].
    + intros [_ H].
      assert (Hf : filter stemMissing (q :: qs) = []).
      { clear E. induction H as [|x l Hx Hl IH]; cbn [filter]; [reflexivity|].
        rewrite Hx. exact IH. }
      rewrite Hf. reflexivity.
Qed.

(** C9, counterexample: an exam without questions has no question with an
    empty stem, yet it is not valid and carries an error. *)
Lemma validateExamData_empty_exam_invalid :
  let data := {| title := []; timeLimit := 90; sections := []; questions := [];
                 answers := []; images := [] |} in
  Forall (fun q => stemMissing q = false) (questions data)
  /\ valid (validateExamData data) = false
  /\ errors (validateExamData data) = [noQuestionError]
  /\ filter stemMissing (questions data) = [].
Proof.
  cbv zeta. repeat split. constructor.
Qed.

(** ** Claims on the text functions *)

(** C2, at the failing input: a block math region does not come back
    verbatim.  The placeholder is put back by [String.prototype.replace],
    which expands [$$] in the replacement text to one [$]: the block region
    [$$x$$] becomes the inline region [$x$], and the inline region [$&$]
    becomes the placeholder followed by [$]. *)
Theorem escapeHtml_rewrites_block_math :
  escapeHtmlPreserveLaTeX (utf8 "$$x$$") = utf8 "$x$"
  /\ escapeHtmlPreserveLaTeX (utf8 "a < $$u>v$$") = utf8 "a &lt; $u>v$"
  /\ escapeHtmlPreserveLaTeX (utf8 "$&$") = utf8 "__LATEX_BLOCK_0__$".
Proof.
  repeat split; vm_compute; reflexivity.
Qed.

(** C3, at the failing inputs: the replacement text of the block rule,
    [$$$$1$$$$], expands to the five units [$$1$$], so the content of a
    [\[...\]] region is replaced by the digit 1; and the replacement text of
    the dollar rule, [$$], expands to one [$], so a run of three or more
    dollar signs becomes one dollar sign. *)
Theorem normalizeLatex_loses_block_content :
  normalizeLatex (utf8 "\[x+y\]") = utf8 "$$1$$"
  /\ normalizeLatex (utf8 "a $$$ b") = utf8 "a $ b"
  /\ normalizeLatex (utf8 "\(x+y\)") = utf8 "$x+y$".
Proof.
  repeat split; vm_compute; reflexivity.
Qed.

(** ** Claims on the assembler *)

(** C1, at the failing input: a true/false question with an inferred answer
    is in the exam with its answer, and the answer key is empty. *)
Theorem answer_key_misses_section2 :
  let exam := parseAllQuestions trueFalseDoc [] in
  map (fun q => (q_number q, q_correctAnswer q)) (questions exam)
  = [(201%Z, Some (utf8 "a"))]
  /\ getAnswer 201 (answers exam) = None.
Proof.
  cbv zeta. split; vm_compute; reflexivity.
Qed.

Lemma authored_stable paragraphs part ty : stable (authored paragraphs part ty).
Proof.
  split; intros; assumption.
Qed.

Lemma authored_opens paragraphs part ty para :
  In para paragraphs -> opens (authored paragraphs part ty) part ty para.
Proof.
  intros Hin cs Hcs. unfold authored. cbn [newQuestion pq_part pq_type pq_number].
  repeat split. exists para, cs. auto.
Qed.

Lemma authored_nonneg paragraphs part ty pq :
  authored paragraphs part ty pq -> (0 <= pq_number pq)%Z.
Proof.
  intros (_ & _ & para & cs & _ & Hcs & ->). eapply questionLine_nonneg; exact Hcs.
Qed.

Lemma NoDup_map_shift (k : Z) (l : list ParsedQuestion) :
  Forall (fun pq => pq_part pq = k) l -> NoDup (map pq_number l) ->
  NoDup (map (fun pq => q_number (convertToQuestion pq 0)) l).
Proof.
  intros Hk Hn. cbn [convertToQuestion q_number].
  induction l as [|pq l IH]; cbn [map]; [constructor|].
  inversion Hk; subst. inversion Hn; subst. constructor; [|apply IH; assumption].
  intros Hin. apply in_map_iff in Hin. destruct Hin as (x & Hx & Hxl).
  match goal with H : ~ In _ _ |- _ => apply H end.
  apply in_map_iff. exists x. split; [|exact Hxl].
  rewrite Forall_forall in H2. rewrite (H2 x Hxl) in Hx. lia.
Qed.

(** A run of [n] digits reads as a number below [10 ^ n]. *)
Lemma parseInt_upper (ds : jsstring) :
  Forall (fun x => isDigitUnit x = true) ds ->
  (parseInt ds < 10 ^ Z.of_nat (List.length ds))%Z.
Proof.
  unfold parseInt.
  assert (G : forall acc, Forall (fun x => isDigitUnit x = true) ds -> (0 <= acc)%Z ->
    (fold_left (fun acc c => acc * 10 + (Z.of_N c - 48))%Z ds acc
     < (acc + 1) * 10 ^ Z.of_nat (List.length ds))%Z).
  { induction ds as [|d ds IH]; intros acc Hd Hacc; cbn [fold_left List.length].
    - cbn. lia.
    - inversion Hd as [|x l Hx Hl]; subst.
      assert (Hr : (0 <= Z.of_N d - 48 <= 9)%Z) by (unfold isDigitUnit in Hx; lia).
      specialize (IH (acc * 10 + (Z.of_N d - 48))%Z Hl ltac:(lia)).
      rewrite Nat2Z.inj_succ, Z.pow_succ_r by lia.
      assert (Hp : (0 < 10 ^ Z.of_nat (List.length ds))%Z) by (apply Z.pow_pos_nonneg; lia).
      set (P := (10 ^ Z.of_nat (List.length ds))%Z) in *. clearbody P.
      set (r := (Z.of_N d - 48)%Z) in *. clearbody r.
      clear - IH Hr Hp Hacc. nia. }
  intros H. specialize (G 0%Z H ltac:(lia)). lia.
Qed.

(** A question marker of at most fifteen digits carries a safe integer, and
    so does its encoding in any of the three sections. *)
Lemma questionLine_safe (t : jsstring) (cs : caps) (part : Z) :
  isQuestionLine t = Some cs ->
  (List.length (capText 1 cs) <= 15)%nat -> (1 <= part <= 3)%Z ->
  safeInteger (parseInt (capText 1 cs))
  /\ safeInteger (part * 100 + parseInt (capText 1 cs)).
Proof.
  intros H Hlen Hpart. pose proof (questionLine_nonneg _ H) as Hn.
  apply questionLine_digits in H. destruct H as (ds & Hc & Hd).
  unfold capText in *. rewrite Hc in *. pose proof (parseInt_upper Hd) as Hu.
  assert (Hp : (10 ^ Z.of_nat (List.length ds) <= 10 ^ 15)%Z)
    by (apply Z.pow_le_mono_r; lia).
  unfold safeInteger.
  change (2 ^ 53)%Z with 9007199254740992%Z.
  change (10 ^ 15)%Z with 1000000000000000%Z in Hp.
  set (v := parseInt ds) in *. clearbody v.
  set (P := (10 ^ Z.of_nat (List.length ds))%Z) in *. clearbody P.
  clear - Hn Hu Hp Hpart. lia.
Qed.

(** C4, as the code has it.  The questions of the exam are the conversions
    of the questions of the three section parsers; each has the section
    index of its parser and the number of a question marker of the document,
    and its final number is [section * 100 + authored number].  A marker of
    at most fifteen digits gives safe integers, on which this arithmetic is
    that of the code.  The final numbers are pairwise distinct when the
    authored numbers are distinct within each section and below 100; the
    code checks neither. *)
Theorem encoded_number_of_every_question (paragraphs : list ParagraphData)
  (images : list ImageData) :
  let info := detectSections (join [10] (map para_text paragraphs)) paragraphs in
  let l1 := Part1.parsePart1WithUnderline paragraphs (part1Start info) (part2Start info)
              images in
  let l2 := Part2.parsePart2 paragraphs (part2Start info) (part3Start info) images in
  let l3 := Part3.parsePart3 paragraphs (part3Start info)
              (Z.of_nat (List.length paragraphs)) images in
  let exam := parseAllQuestions paragraphs images in
  questions exam = map (fun pq => convertToQuestion pq 0) (l1 ++ l2 ++ l3)
  /\ Forall (authored paragraphs 1 multiple_choice) l1
  /\ Forall (authored paragraphs 2 true_false) l2
  /\ Forall (authored paragraphs 3 short_answer) l3
  /\ (forall pq i, q_number (convertToQuestion pq i) = (pq_part pq * 100 + pq_number pq)%Z)
  /\ (forall para cs part,
        isQuestionLine (para_text para) = Some cs ->
        (List.length (capText 1 cs) <= 15)%nat -> (1 <= part <= 3)%Z ->
        safeInteger (parseInt (capText 1 cs))
        /\ safeInteger (part * 100 + parseInt (capText 1 cs)))
  /\ (NoDup (map pq_number l1) -> NoDup (map pq_number l2) -> NoDup (map pq_number l3) ->
      Forall (fun pq => (pq_number pq < 100)%Z) (l1 ++ l2 ++ l3) ->
      NoDup (map q_number (questions exam))).
Proof.
  cbv zeta.
  set (info := detectSections _ paragraphs).
  set (l1 := Part1.parsePart1WithUnderline _ _ _ _).
  set (l2 := Part2.parsePart2 _ _ _ _).
  set (l3 := Part3.parsePart3 _ _ _ _).
  assert (H1 : Forall (authored paragraphs 1 multiple_choice) l1).
  { apply p1_parse_stable; [apply authored_stable | apply authored_opens]. }
  assert (H2 : Forall (authored paragraphs 2 true_false) l2).
  { apply p2_parse_stable; [apply authored_stable | apply authored_opens]. }
  assert (H3 : Forall (authored paragraphs 3 short_answer) l3).
  { apply p3_parse_stable; [apply authored_stable | apply authored_opens]. }
  assert (Hq : questions (parseAllQuestions paragraphs images)
               = map (fun pq => convertToQuestion pq 0) (l1 ++ l2 ++ l3))
    by apply parseAllQuestions_questions.
  split; [exact Hq|]. split; [exact H1|]. split; [exact H2|]. split; [exact H3|].
  split; [reflexivity|].
  split; [intros para cs part Hcs Hlen Hpart; eapply questionLine_safe; eassumption|].
  intros N1 N2 N3 Hlt. rewrite Hq, map_map, !map_app.
  apply Forall_app in Hlt. destruct Hlt as [L1 L23].
  apply Forall_app in L23. destruct L23 as [L2 L3].
  rewrite Forall_forall in H1, H2, H3, L1, L2, L3.
  assert (R1 : forall x, In x (map (fun pq => q_number (convertToQuestion pq 0)) l1) ->
                         (100 <= x < 200)%Z).
  { intros x Hx. apply in_map_iff in Hx. destruct Hx as (pq & <- & Hin).
    pose proof (authored_nonneg (H1 pq Hin)). pose proof (L1 pq Hin).
    destruct (H1 pq Hin) as (Hp & _). cbn [convertToQuestion q_number]. lia. }
  assert (R2 : forall x, In x (map (fun pq => q_number (convertToQuestion pq 0)) l2) ->
                         (200 <= x < 300)%Z).
  { intros x Hx. apply in_map_iff in Hx. destruct Hx as (pq & <- & Hin).
    pose proof (authored_nonneg (H2 pq Hin)). pose proof (L2 pq Hin).
    destruct (H2 pq Hin) as (Hp & _). cbn [convertToQuestion q_number]. lia. }
  assert (R3 : forall x, In x (map (fun pq => q_number (convertToQuestion pq 0)) l3) ->
                         (300 <= x < 400)%Z).
  { intros x Hx. apply in_map_iff in Hx. destruct Hx as (pq & <- & Hin).
    pose proof (authored_nonneg (H3 pq Hin)). pose proof (L3 pq Hin).
    destruct (H3 pq Hin) as (Hp & _). cbn [convertToQuestion q_number]. lia. }
  apply NoDup_app.
  - apply (@NoDup_map_shift 1); [|exact N1].
    apply Forall_forall. intros pq Hin. apply (H1 pq Hin).
  - apply NoDup_app.
    + apply (@NoDup_map_shift 2); [|exact N2].
      apply Forall_forall. intros pq Hin. apply (H2 pq Hin).
    + apply (@NoDup_map_shift 3); [|exact N3].
      apply Forall_forall. intros pq Hin. apply (H3 pq Hin).
    + intros x Hx2 Hx3. specialize (R2 x Hx2). specialize (R3 x Hx3). lia.
  - intros x Hx1 Hx23. specialize (R1 x Hx1).
    apply in_app_or in Hx23. destruct Hx23 as [Hx|Hx];
      [specialize (R2 x Hx) | specialize (R3 x Hx)]; lia.
Qed.

(** C4, witness: three sections whose questions carry the authored numbers
    1 and 2; the six encoded numbers are pairwise distinct.  And the marker
    [Câu 12], whose encoding 212 in section 2 is a safe integer. *)
Lemma encoded_number_witness :
  map q_number (questions (parseAllQuestions threeSectionDoc []))
  = [101; 102; 201; 202; 301; 302]%Z
  /\ NoDup (map q_number (questions (parseAllQuestions threeSectionDoc [])))
  /\ exists cs, isQuestionLine (utf8 "Câu 12. x") = Some cs
                /\ parseInt (capText 1 cs) = 12%Z
                /\ safeInteger (2 * 100 + parseInt (capText 1 cs)).
Proof.
  split; [vm_compute; reflexivity|]. split.
  - apply (proj2 (proj2 (proj2 (proj2 (proj2 (proj2
             (encoded_number_of_every_question threeSectionDoc []))))))).
    + vm_compute. repeat (constructor; [intros H; cbn in H; intuition discriminate|]).
      constructor.
    + vm_compute. repeat (constructor; [intros H; cbn in H; intuition discriminate|]).
      constructor.
    + vm_compute. repeat (constructor; [intros H; cbn in H; intuition discriminate|]).
      constructor.
    + vm_compute. repeat constructor.
  - destruct (isQuestionLine (utf8 "Câu 12. x")) as [cs|] eqn:E; [|vm_compute in E; discriminate].
    exists cs. split; [reflexivity|].
    assert (V : parseInt (capText 1 cs) = 12%Z)
      by (vm_compute in E; inversion E; vm_compute; reflexivity).
    split; [exact V|].
    apply (proj1 (proj2 (proj2 (proj2 (proj2 (proj2
             (encoded_number_of_every_question threeSectionDoc []))))))
             (plain "Câu 12. x") cs 2%Z).
    + exact E.
    + vm_compute in E. inversion E. vm_compute. lia.
    + lia.
Defined.

(** C4, counterexample: two markers [Câu 1] in section 1 give two questions
    numbered 101, and question 101 of section 1 collides with question 1 of
    section 2. *)
Lemma encoded_numbers_collide :
  ~ NoDup (map q_number (questions (parseAllQuestions repeatedNumberDoc [])))
  /\ map q_number (questions (parseAllQuestions overflowDoc [])) = [201%Z; 201%Z].
Proof.
  split.
  - assert (E : map q_number (questions (parseAllQuestions repeatedNumberDoc []))
                = [101%Z; 101%Z]) by (vm_compute; reflexivity).
    rewrite E. intros H. inversion H as [|x l Hx Hl]; subst. apply Hx. left. reflexivity.
  - vm_compute. reflexivity.
Qed.

(** ** Section boundaries *)

Lemma detectLoop_no_header (ps : list ParagraphData) : forall i,
  Forall (fun para => noSectionHeader para = true) ps ->
  detectLoop {| part1Start := -1; part2Start := -1; part3Start := -1 |} i ps
  = {| part1Start := -1; part2Start := -1; part3Start := -1 |}.
Proof.
  induction ps as [|para ps IH]; intros i H; cbn [detectLoop]; [reflexivity|].
  inversion H as [|x l Hx Hl]; subst. rewrite <- (IH (i + 1)%Z Hl) at 2. f_equal.
  unfold noSectionHeader in Hx.
  apply andb_true_iff in Hx. destruct Hx as [Hx H3].
  apply andb_true_iff in Hx. destruct Hx as [H1 H2].
  apply negb_true_iff in H1, H2, H3.
  unfold detectStep. cbn [part1Start part2Start part3Start].
  rewrite H1, H2, H3, !andb_false_r. reflexivity.
Qed.

Lemma detectSections_no_header (fullText : jsstring) (ps : list ParagraphData) :
  Forall (fun para => noSectionHeader para = true) ps ->
  detectSections fullText ps
  = {| part1Start := 0; part2Start := Z.of_nat (List.length ps);
       part3Start := Z.of_nat (List.length ps) |}.
Proof.
  intros H. unfold detectSections. rewrite (detectLoop_no_header 0 H). reflexivity.
Qed.

Lemma part1_type_stable : stable (fun pq => pq_type pq = multiple_choice).
Proof.
  split; intros; assumption.
Qed.

(** C8, as the code has it.  When no paragraph matches a section-header
    pattern, section 1 starts at index 0 and sections 2 and 3 at the end of
    the document; every question of the exam comes from the parser of
    section 1, is labelled with part 1 and numbered 100 plus its authored
    number (so within 100..199 exactly when the authored number is below
    100); the exam has no section besides section 1. *)
Theorem headerless_document_is_section1 (paragraphs : list ParagraphData)
  (images : list ImageData) :
  Forall (fun para => noSectionHeader para = true) paragraphs ->
  let len := Z.of_nat (List.length paragraphs) in
  let l1 := Part1.parsePart1WithUnderline paragraphs 0 len images in
  let exam := parseAllQuestions paragraphs images in
  detectSections (join [10] (map para_text paragraphs)) paragraphs
  = {| part1Start := 0; part2Start := len; part3Start := len |}
  /\ questions exam = map (fun pq => convertToQuestion pq 0) l1
  /\ Forall (authored paragraphs 1 multiple_choice) l1
  /\ Forall (fun q => exists n, (0 <= n)%Z /\ q_number q = (100 + n)%Z
                                /\ (q_number q < 200 <-> n < 100)%Z
                                /\ q_part q = utf8 "PHẦN 1"
                                /\ q_type q = multiple_choice)
       (questions exam)
  /\ sections exam
     = (if nonEmptyList l1
        then [{| s_name := utf8 "PHẦN 1. Trắc nghiệm nhiều lựa chọn";
                 s_description := utf8 "Thí sinh chọn một phương án đúng A, B, C hoặc D";
                 s_points := [];
                 s_questions := questions exam;
                 s_sectionType := multiple_choice |}]
        else []).
Proof.
  intros Hno. cbv zeta.
  set (len := Z.of_nat (List.length paragraphs)).
  set (l1 := Part1.parsePart1WithUnderline paragraphs 0 len images).
  pose proof (detectSections_no_header (join [10] (map para_text paragraphs)) Hno) as Hd.
  fold len in Hd.
  assert (H2 : Part2.parsePart2 paragraphs len len images = []).
  { unfold Part2.parsePart2. rewrite Z.leb_refl, orb_true_r. reflexivity. }
  assert (H3 : Part3.parsePart3 paragraphs len len images = []).
  { unfold Part3.parsePart3. fold len. rewrite Z.leb_refl, orb_true_r. reflexivity. }
  assert (H1 : Forall (authored paragraphs 1 multiple_choice) l1).
  { apply p1_parse_stable; [apply authored_stable | apply authored_opens]. }
  assert (Hq : questions (parseAllQuestions paragraphs images)
               = map (fun pq => convertToQuestion pq 0) l1).
  { rewrite parseAllQuestions_questions. rewrite Hd.
    cbn [part1Start part2Start part3Start]. fold len. rewrite H2, H3, !app_nil_r.
    reflexivity. }
  split; [exact Hd|]. split; [exact Hq|]. split; [exact H1|]. split.
  - rewrite Hq. apply Forall_map. eapply Forall_impl; [|exact H1].
    intros pq Hpq. exists (pq_number pq).
    pose proof (authored_nonneg Hpq) as Hn. destruct Hpq as (Hp & Ht & _).
    cbn [convertToQuestion q_number q_part q_type]. rewrite Hp, Ht.
    repeat split; try lia.
  - rewrite Hq. unfold parseAllQuestions. rewrite Hd.
    cbn [part1Start part2Start part3Start]. fold len. rewrite H2, H3. fold l1.
    rewrite !assemblePart_sections. cbn [nonEmptyList app sections examData].
    rewrite !app_nil_r. reflexivity.
Qed.

(** C8, witness: the scenario of the specification has no section header. *)
Lemma headerless_witness :
  map q_number (questions (parseAllQuestions scenarioDoc [])) = [101%Z]
  /\ List.length (sections (parseAllQuestions scenarioDoc [])) = 1%nat.
Proof.
  assert (Hno : Forall (fun para => noSectionHeader para = true) scenarioDoc)
    by (repeat (apply Forall_cons; [vm_compute; reflexivity|]); apply Forall_nil).
  destruct (@headerless_document_is_section1 scenarioDoc [] Hno) as (_ & Hq & _ & _ & Hs).
  split.
  - rewrite Hq. vm_compute. reflexivity.
  - rewrite Hs. vm_compute. reflexivity.
Defined.

(** C8, counterexample: a document without section headers whose question
    is numbered 150 yields question 250, outside 100..199. *)
Lemma headerless_number_outside_1xx :
  Forall (fun para => noSectionHeader para = true) headerlessDoc
  /\ map q_number (questions (parseAllQuestions headerlessDoc [])) = [250%Z]
  /\ ~ Forall (fun q => (100 <= q_number q < 200)%Z)
         (questions (parseAllQuestions headerlessDoc [])).
Proof.
  split; [repeat (apply Forall_cons; [vm_compute; reflexivity|]); apply Forall_nil|].
  split; [vm_compute; reflexivity|].
  intros H. apply (Forall_map q_number (fun n => (100 <= n < 200)%Z)) in H.
  assert (E : map q_number (questions (parseAllQuestions headerlessDoc [])) = [250%Z])
    by (vm_compute; reflexivity).
  rewrite E in H. inversion H; subst. lia.
Qed.

(** ** Section 2: the form of the answers *)

Lemma strLtb_asym (a : jsstring) : forall b, strLtb a b = true -> strLtb b a = false.
Proof.
  induction a as [|x a IH]; intros [|y b]; cbn [strLtb]; try congruence.
  intros H. apply orb_true_iff in H. apply orb_false_iff.
  destruct H as [H | H].
  - split; [lia|]. apply andb_false_iff. left. lia.
  - apply andb_true_iff in H. destruct H as [E H]. split; [lia|].
    apply andb_false_iff. right. apply IH. exact H.
Qed.

Lemma strLtb_trichotomy (a : jsstring) : forall b,
  strLtb a b = false -> strLtb b a = false -> a = b.
Proof.
  induction a as [|x a IH]; intros [|y b]; cbn [strLtb]; try congruence.
  intros H1 H2. apply orb_false_iff in H1, H2.
  destruct H1 as [A1 B1]. destruct H2 as [A2 B2].
  assert (x = y) by lia. subst y. rewrite N.eqb_refl in B1, B2. cbn in B1, B2.
  f_equal. apply IH; assumption.
Qed.

Lemma insertStr_perm (x : jsstring) (l : list jsstring) : Permutation (insertStr x l) (x :: l).
Proof.
  induction l as [|y l IH]; cbn [insertStr]; [reflexivity|].
  destruct (strLtb x y); [reflexivity|].
  rewrite IH. apply perm_swap.
Qed.

Lemma sortStrings_perm (l : list jsstring) : Permutation (sortStrings l) l.
Proof.
  unfold sortStrings.
  assert (G : forall acc, Permutation (fold_left (fun acc x => insertStr x acc) l acc) (l ++ acc)).
  { induction l as [|x l IH]; intros acc; cbn [fold_left app]; [reflexivity|].
    rewrite IH, insertStr_perm. symmetry. apply Permutation_middle. }
  rewrite G, app_nil_r. reflexivity.
Qed.

Lemma insertStr_sorted (x : jsstring) (l : list jsstring) :
  Sorted strLe l -> Sorted strLe (insertStr x l).
Proof.
  induction l as [|y l IH]; intros H; cbn [insertStr].
  - repeat constructor.
  - destruct (strLtb x y) eqn:E.
    + constructor; [exact H|]. constructor. unfold strLe. apply strLtb_asym. exact E.
    + inversion H as [|? ? Hs Hh]; subst. constructor; [apply IH; exact Hs|].
      destruct l as [|z l]; cbn [insertStr].
      * constructor. exact E.
      * destruct (strLtb x z); constructor; [exact E|].
        inversion Hh; subst. assumption.
Qed.

Lemma sortStrings_sorted (l : list jsstring) : Sorted strLe (sortStrings l).
Proof.
  unfold sortStrings.
  assert (G : forall acc, Sorted strLe acc ->
                          Sorted strLe (fold_left (fun acc x => insertStr x acc) l acc)).
  { induction l as [|x l IH]; intros acc Hacc; cbn [fold_left]; [exact Hacc|].
    apply IH. apply insertStr_sorted. exact Hacc. }
  apply G. constructor.
Qed.

Lemma sorted_strict (l : list jsstring) : Sorted strLe l -> NoDup l -> Sorted strLt l.
Proof.
  induction 1 as [|x l Hs IH Hh]; intros Hn; [constructor|].
  inversion Hn; subst. constructor; [apply IH; assumption|].
  destruct Hh as [|y l Hxy]; constructor.
  unfold strLe in Hxy. unfold strLt.
  destruct (strLtb x y) eqn:E; [reflexivity|].
  exfalso. match goal with H : ~ In _ _ |- _ => apply H end. left.
  apply strLtb_trichotomy; assumption.
Qed.

Lemma trueStatementsAnswer_form (set : list jsstring) :
  set <> [] -> NoDup set -> Forall (fun x => In x statementLetters) set ->
  trueFalseAnswer (Part2.trueStatementsAnswer set).
Proof.
  intros Hne Hnd Hall. exists (sortStrings set).
  pose proof (sortStrings_perm set) as Hp.
  repeat split.
  - intros E. rewrite E in Hp. apply Permutation_nil in Hp. contradiction.
  - eapply Permutation_NoDup; [symmetry; exact Hp | exact Hnd].
  - apply sorted_strict; [apply sortStrings_sorted|].
    eapply Permutation_NoDup; [symmetry; exact Hp | exact Hnd].
  - eapply Permutation_Forall; [symmetry; exact Hp | exact Hall].
Qed.

Lemma attachIfAny_answer q rIds images :
  pq_correctAnswer (attachIfAny q rIds images) = pq_correctAnswer q.
Proof. unfold attachIfAny. destruct (nonEmptyList rIds); reflexivity. Qed.

Lemma attachIfAny_options q rIds images :
  pq_options (attachIfAny q rIds images) = pq_options q.
Proof. unfold attachIfAny. destruct (nonEmptyList rIds); reflexivity. Qed.

Lemma appendToOption_letters (P : jsstring -> Prop) opts : forall i text,
  Forall (fun o => P (opt_letter o)) opts ->
  Forall (fun o => P (opt_letter o)) (Part1.appendToOption opts i text).
Proof.
  induction opts as [|o opts IH]; intros i text H; cbn [Part1.appendToOption]; [constructor|].
  inversion H; subst. destruct i; constructor; auto.
Qed.

Lemma appendToOption_length opts : forall i text,
  List.length (Part1.appendToOption opts i text) = List.length opts.
Proof.
  induction opts as [|o opts IH]; intros i text; cbn [Part1.appendToOption]; [reflexivity|].
  destruct i; cbn [List.length]; auto.
Qed.

Lemma optionLetterAt_in (P : jsstring -> Prop) opts i :
  Forall (fun o => P (opt_letter o)) opts -> (i < List.length opts)%nat ->
  P (Part1.optionLetterAt opts i).
Proof.
  intros H Hi. unfold Part1.optionLetterAt.
  destruct (nth_error opts i) as [o|] eqn:E.
  - rewrite Forall_forall in H. apply H. eapply nth_error_In; exact E.
  - apply nth_error_None in E. lia.
Qed.

Lemma statementLetter_lower x : In x statementLetters -> toLowerCase x = x.
Proof.
  intros [<- | [<- | [<- | [<- | []]]]]; reflexivity.
Qed.

Lemma setAdd_NoDup x l : NoDup l -> NoDup (setAdd x l).
Proof.
  intros H. unfold setAdd. destruct (existsb (jsstring_eqb x) l) eqn:E; [exact H|].
  apply NoDup_app; [exact H | repeat constructor; intros [] |].
  intros y Hy [<- | []].
  assert (existsb (jsstring_eqb x) l = true); [|congruence].
  apply existsb_exists. exists x. split; [exact Hy | apply jsstring_eqb_eq; reflexivity].
Qed.

Lemma setAdd_Forall (P : jsstring -> Prop) x l : P x -> Forall P l -> Forall P (setAdd x l).
Proof.
  intros Hx H. unfold setAdd. destruct (existsb (jsstring_eqb x) l); [exact H|].
  apply Forall_app. split; [exact H | repeat constructor; exact Hx].
Qed.

Lemma p2_close_answer st q :
  pq_correctAnswer q = None ->
  pq_correctAnswer (Part2.closeQuestion st q)
  = if nonEmptyList (Part2.currentQuestionTrueStatements st)
    then Some (Part2.trueStatementsAnswer (Part2.currentQuestionTrueStatements st))
    else None.
Proof.
  intros H. unfold Part2.closeQuestion, Part2.inferAnswer.
  repeat match goal with
         | |- context [if nonEmptyList (Part2.contentBuffer st) && ?b then _ else _] =>
             destruct (nonEmptyList (Part2.contentBuffer st) && b)
         | |- context [if nonEmptyList (Part2.solutionBuffer st) then _ else _] =>
             destruct (nonEmptyList (Part2.solutionBuffer st))
         end;
    cbn [pq_correctAnswer setText setSolution]; rewrite H; cbn [truthyOpt negb andb];
    destruct (nonEmptyList (Part2.currentQuestionTrueStatements st)); cbn; auto.
Qed.

Lemma p2_flush_good st : p2_Good st ->
  Forall (fun q => nullOrTrueFalse (pq_correctAnswer q)) (Part2.flush st).
Proof.
  intros (Hqs & Hnd & Hall & Hc). unfold Part2.flush.
  destruct (Part2.currentQ st) as [q|]; [|exact Hqs].
  destruct (truthy _); [|exact Hqs].
  apply Forall_app. split; [exact Hqs|]. constructor; [|constructor].
  destruct (Hc q eq_refl) as (Hnone & _). rewrite (p2_close_answer st q Hnone).
  destruct (Part2.currentQuestionTrueStatements st) as [|x l] eqn:E; cbn [nonEmptyList];
    [exact I|].
  cbn [nullOrTrueFalse]. rewrite <- E in *. apply trueStatementsAnswer_form; auto.
  rewrite E. discriminate.
Qed.

Ltac qsimp :=
  cbn [pq_options pq_correctAnswer pq_text pq_images pq_solution pq_number pq_part pq_type
       setOptions setText setCorrectAnswer setSolution setImages newQuestion attachImages
       List.length].

Ltac good_split :=
  split; [|split; [|split;
    [|let q0 := fresh "q0" in let Hq0 := fresh "Hq0" in
      intros q0 Hq0; cbn in Hq0;
      try match goal with
          | Hc : Part2.currentQ ?s = Some ?x |- _ =>
              lazymatch x with q0 => fail | _ => rewrite Hc in Hq0 end
          end;
      inversion Hq0; subst q0; clear Hq0;
      split; [|split]]]];
  cbn [Part2.questions Part2.currentQuestionTrueStatements Part2.currentStmtIndex
       Part2.withCurrentQ Part2.withTrueStatements Part2.withContentBuffer
       Part2.withSolutionBuffer].

Lemma p2_step_good images st para : p2_Good st -> p2_Good (Part2.step images st para).
Proof.
  intros HG. pose proof (p2_flush_good HG) as Hfl. pose proof HG as HG0.
  destruct HG as (Hqs & Hnd & Hall & Hc).
  unfold Part2.step.
  destruct (isEmpty (para_text para) && negb (nonEmptyList (para_imageRIds para)));
    [exact HG0|].
  destruct (isPartHeader (para_text para)); [exact HG0|].
  destruct (isQuestionLine (para_text para)) as [qMatch|].
  { good_split; try assumption; try constructor;
      rewrite ?attachIfAny_answer, ?attachIfAny_options; qsimp; auto. }
  destruct (Part2.currentQ st) as [q|] eqn:Hcur; [|exact HG0].
  destruct (Hc q eq_refl) as (Hnone & Hopts & Hidx).
  destruct (isSolutionMarker (para_text para)).
  { good_split; try assumption; break_if; qsimp; auto. }
  assert (Hstmt : forall stmtMatch,
    jsmatch true Part2.statementPattern (para_text para) = Some stmtMatch ->
    p2_Good
      (let flushStem := negb (nonEmptyList (pq_options q)) && nonEmptyList (Part2.contentBuffer st) in
       let q1 := if flushStem then setText q (joinTrim (Part2.contentBuffer st)) else q in
       let letter := toLowerCase (capText 1 stmtMatch) in
       let stmtText := trim (capText 2 stmtMatch) in
       let opts := pq_options q1 ++ [{| opt_letter := letter; opt_text := stmtText |}] in
       {| Part2.questions := Part2.questions st;
          Part2.currentQ := Some (setOptions q1 opts);
          Part2.collectingContent := Part2.collectingContent st;
          Part2.contentBuffer := if flushStem then [] else Part2.contentBuffer st;
          Part2.inSolution := Part2.inSolution st;
          Part2.solutionBuffer := Part2.solutionBuffer st;
          Part2.currentQuestionTrueStatements :=
            if para_hasUnderline para
            then setAdd letter (Part2.currentQuestionTrueStatements st)
            else Part2.currentQuestionTrueStatements st;
          Part2.currentStmtIndex := Z.of_nat (List.length opts) - 1;
          Part2.startedStatements := true |})).
  { intros stmtMatch Hm. pose proof (statement_letter _ Hm) as Hletter. cbv zeta.
    good_split; try assumption.
    - break_if; [apply setAdd_NoDup|]; assumption.
    - break_if; [apply setAdd_Forall|]; assumption.
    - qsimp. break_if; qsimp; assumption.
    - qsimp. apply Forall_app. split; [break_if; qsimp; assumption|].
      constructor; [exact Hletter | constructor].
    - right. qsimp. reflexivity. }
  assert (Hrest : p2_Good
     (if Part2.collectingContent st && Part2.startedStatements st
         && (0 <=? Part2.currentStmtIndex st)%Z && truthy (para_text para)
         && negb (Part2.inSolution st)
      then Part2.continuation images st q para
      else Part2.fallThrough images st q para)).
  { destruct (Part2.collectingContent st && Part2.startedStatements st
              && (0 <=? Part2.currentStmtIndex st)%Z && truthy (para_text para)
              && negb (Part2.inSolution st)) eqn:Hcond.
    - assert (Hi : (Z.to_nat (Part2.currentStmtIndex st) < List.length (pq_options q))%nat)
        by lia.
      unfold Part2.continuation. good_split; try assumption.
      + break_if; [|assumption]. apply setAdd_NoDup. assumption.
      + break_if; [|assumption]. apply setAdd_Forall; [|assumption].
        destruct (isFigure (para_text para)); [discriminate|]. cbn [pq_options setOptions].
        assert (Hin : In (Part1.optionLetterAt
                            (Part1.appendToOption (pq_options q)
                               (Z.to_nat (Part2.currentStmtIndex st)) (para_text para))
                            (Z.to_nat (Part2.currentStmtIndex st))) statementLetters).
        { apply (@optionLetterAt_in (fun x => In x statementLetters)).
          - apply (@appendToOption_letters (fun x => In x statementLetters)). exact Hopts.
          - rewrite appendToOption_length. exact Hi. }
        rewrite (statementLetter_lower Hin). exact Hin.
      + rewrite attachIfAny_answer. break_if; qsimp; assumption.
      + rewrite attachIfAny_options. break_if; qsimp; [assumption|].
        apply (@appendToOption_letters (fun x => In x statementLetters)); assumption.
      + rewrite attachIfAny_options. break_if; qsimp; [assumption|].
        rewrite appendToOption_length. assumption.
    - unfold Part2.fallThrough. cbv zeta.
      repeat break_if; good_split; try assumption;
        rewrite ?attachIfAny_answer, ?attachIfAny_options; qsimp; assumption. }
  destruct (Part2.collectingContent st) eqn:Hcoll.
  - destruct (jsmatch true Part2.statementPattern (para_text para)) as [stmtMatch|] eqn:Hm.
    + apply Hstmt. reflexivity.
    + exact Hrest.
  - exact Hrest.
Qed.

Lemma p2_init_good : p2_Good Part2.init.
Proof.
  unfold p2_Good. cbn. repeat split; try constructor; discriminate.
Qed.

Lemma p2_run_good images ps : forall st, p2_Good st -> p2_Good (Part2.run images st ps).
Proof.
  unfold Part2.run. induction ps as [|para ps IH]; intros st H; cbn [fold_left]; [exact H|].
  apply IH. apply p2_step_good. exact H.
Qed.


(** ** Section 1: the answer inferred from underlined letters *)


Lemma letter_class_upper (x : N) :
  clsMatches true [(65, 68)] x = true -> In (toUpperCase [x]) choiceLetters.
Proof.
  unfold clsMatches, in_ranges, toLowerUnit. cbn [existsb fst snd toUpperCase map].
  intros H.
  assert (Hx : (65 <= toUpperUnit x <= 68)).
  { unfold toUpperUnit in *.
    repeat match goal with
           | |- context [if ?b then _ else _] => destruct b eqn:?
           | H : context [if ?b then _ else _] |- _ => destruct b eqn:?
           end; lia. }
  assert (E : toUpperUnit x = 65 \/ toUpperUnit x = 66 \/ toUpperUnit x = 67
              \/ toUpperUnit x = 68) by lia.
  cbn. destruct E as [-> | [-> | [-> | ->]]]; auto.
Qed.

Lemma singleLetter_inv (l : jsstring) :
  Part1.isSingleLetter l = true ->
  exists c, l = [c] /\ clsMatches true [(65, 68)] c = true.
Proof.
  unfold Part1.isSingleLetter, test, Part1.singleLetterPattern. cbn [seqs].
  destruct l as [|c [|d l]].
  - vm_compute. discriminate.
  - intros H. exists c. split; [reflexivity|].
    cbn [searchFrom rmatch Nat.eqb] in H.
    destruct (clsMatches true [(65, 68)] c); [reflexivity|]. cbn in H. discriminate.
  - cbn [searchFrom rmatch Nat.eqb].
    destruct (clsMatches true [(65, 68)] c); rewrite searchFrom_anchored; discriminate.
Qed.








(** The letter of an option line, uppercased, is one of A, B, C, D. *)
Lemma option_letter (t : jsstring) (cs : caps) :
  jsmatch true Part1.optionPattern t = Some cs ->
  In (toUpperCase (capText 1 cs)) choiceLetters.
Proof.
  intros H. apply jsmatch_sound in H.
  destruct H as (start & s0 & stop & rest & H).
  unfold Part1.optionPattern in H. cbn [seqs] in H. split_seq.
  match goal with H : matches _ (Grp 2 _) _ _ _ _ _ _ |- _ => inv H end.
  match goal with H : matches _ (Grp 1 _) _ _ _ _ _ _ |- _ => inv H end.
  match goal with H : matches _ (Cls _) _ _ _ _ _ _ |- _ => inv H end.
  drop_nocap. unfold capText. cbn [cap Nat.eqb].
  match goal with
  | |- context [(S ?p - ?p)%nat] => replace (S p - p)%nat with 1%nat by lia
  end.
  cbn [firstn]. apply letter_class_upper; assumption.
Qed.

Lemma choiceLetter_single x : In x choiceLetters -> Part1.isSingleLetter x = true.
Proof.
  intros [<- | [<- | [<- | [<- | []]]]]; vm_compute; reflexivity.
Qed.

(** An underlined option line records its letter. *)
Lemma p1_underlined_option_recorded images st q para m :
  Part1.currentQ st = Some q ->
  Part1.collectingContent st = true ->
  isEmpty (para_text para) && negb (nonEmptyList (para_imageRIds para)) = false ->
  Part1.isSectionHeader (para_text para) = false ->
  isQuestionLine (para_text para) = None ->
  isSolutionMarker (para_text para) = false ->
  jsmatch true Part1.answerPattern (para_text para) = None ->
  jsmatch true Part1.optionPattern (para_text para) = Some m ->
  para_hasUnderline para = true ->
  Part1.currentQuestionUnderlinedLetters (Part1.step images st para)
  = Part1.currentQuestionUnderlinedLetters st ++ [toUpperCase (capText 1 m)]
  /\ In (toUpperCase (capText 1 m)) choiceLetters
  /\ Part1.isSingleLetter (toUpperCase (capText 1 m)) = true.
Proof.
  intros Hcur Hcoll H1 H2 H3 H4 H5 H6 H7.
  pose proof (option_letter _ H6) as Hl.
  split; [|split; [exact Hl | apply choiceLetter_single; exact Hl]].
  unfold Part1.step. rewrite H1, H2, H3, Hcur, H4, H5, Hcoll, H6, H7. reflexivity.
Qed.

Lemma attachImages_options q rIds images :
  pq_options (attachImages q rIds images) = pq_options q.
Proof. reflexivity. Qed.















(** ** Section 2: the statements flagged by underlines *)

















(** ** Figure paragraphs *)

Lemma anchored_first_unit ic c r x s :
  test ic (Seq Bol (Seq (Chr c) r)) (x :: s) = true -> chrMatches ic c x = true.
Proof.
  unfold test. cbn [searchFrom rmatch Nat.eqb]. rewrite searchFrom_anchored.
  destruct (chrMatches ic c x); [reflexivity|discriminate].
Qed.

Lemma upper_is_H (c : N) : chrMatches true 72 c = true -> c = 72 \/ c = 104.
Proof.
  unfold chrMatches, toUpperUnit. cbn [N.leb N.eqb andb].
  repeat match goal with
         | |- context [if ?b then _ else _] => destruct b eqn:?
         end; lia.
Qed.

Lemma figure_first_unit (t : jsstring) :
  isFigure t = true -> exists c rest, t = c :: rest /\ (c = 72 \/ c = 104).
Proof.
  unfold isFigure, figurePattern. cbn [seqs]. destruct t as [|c rest].
  - vm_compute. discriminate.
  - intros H. apply anchored_first_unit in H. apply upper_is_H in H. eauto.
Qed.

Lemma anchored_jsmatch ic r x s :
  rmatch ic r ret 0 (x :: s) [] = None -> jsmatch ic (Seq Bol r) (x :: s) = None.
Proof.
  intros H. unfold jsmatch. cbn [searchFrom rmatch Nat.eqb]. rewrite H, searchFrom_anchored.
  reflexivity.
Qed.

Lemma anchored_test ic r x s :
  rmatch ic r ret 0 (x :: s) [] = None -> test ic (Seq Bol r) (x :: s) = false.
Proof.
  intros H. unfold test. cbn [searchFrom rmatch Nat.eqb]. rewrite H, searchFrom_anchored.
  reflexivity.
Qed.

Lemma figure_excludes (t : jsstring) :
  isFigure t = true ->
  truthy t = true
  /\ isQuestionLine t = None
  /\ isSolutionMarker t = false
  /\ jsmatch true Part1.optionPattern t = None
  /\ jsmatch true Part2.statementPattern t = None
  /\ jsmatch true Part3.answerPattern t = None.
Proof.
  intros H. apply figure_first_unit in H. destruct H as (c & rest & -> & Hc).
  split; [reflexivity|].
  unfold isQuestionLine, isSolutionMarker, questionPattern, solutionPattern,
    Part1.optionPattern, Part2.statementPattern, Part3.answerPattern.
  cbn [seqs].
  repeat split; first [apply anchored_jsmatch | apply anchored_test];
    destruct Hc as [-> | ->]; vm_compute; reflexivity.
Qed.

Lemma truthy_not_empty t : truthy t = true -> isEmpty t = false.
Proof. unfold truthy. destruct (isEmpty t); [discriminate|reflexivity]. Qed.

Lemma p1_withCurrentQ_same st q : Part1.currentQ st = Some q -> Part1.withCurrentQ st q = st.
Proof. destruct st; cbn; intros ->; reflexivity. Qed.

Lemma p2_withCurrentQ_same st q : Part2.currentQ st = Some q -> Part2.withCurrentQ st q = st.
Proof. destruct st; cbn; intros ->; reflexivity. Qed.

Lemma p3_withCurrentQ_same st q : Part3.currentQ st = Some q -> Part3.withCurrentQ st q = st.
Proof. destruct st; cbn; intros ->; reflexivity. Qed.

Lemma attachIfAny_none q images : attachIfAny q [] images = q.
Proof. reflexivity. Qed.

Lemma questionText_attachIfAny q rIds images :
  questionText (attachIfAny q rIds images) = questionText q.
Proof. unfold attachIfAny. destruct (nonEmptyList rIds); reflexivity. Qed.

Lemma p1_figure_step images st para :
  isFigure (para_text para) = true ->
  Part1.isSectionHeader (para_text para) = false ->
  jsmatch true Part1.answerPattern (para_text para) = None ->
  Part1.step images st para
  = match Part1.currentQ st with
    | None => st
    | Some q =>
        if Part1.inSolution st then st
        else Part1.withCurrentQ st (attachIfAny q (para_imageRIds para) images)
    end.
Proof.
  intros Hfig Hhdr Hans.
  destruct (figure_excludes _ Hfig) as (Ht & Hq & Hsol & Hopt & _ & _).
  unfold Part1.step. rewrite (truthy_not_empty _ Ht), Hhdr, Hq. cbn [andb].
  destruct (Part1.currentQ st) as [q|] eqn:Hcur; [|reflexivity].
  rewrite Hsol, Hans, Hopt, Ht.
  replace (if Part1.collectingContent st then None else None) with (@None caps)
    by (destruct (Part1.collectingContent st); reflexivity).
  unfold Part1.continuation, Part1.fallThrough, attachIfAny. rewrite Hfig, Ht. cbv zeta.
  cbn [negb andb].
  destruct (Part1.inSolution st) eqn:Hin; destruct (Part1.collectingContent st);
    destruct (Part1.startedOptions st); destruct (0 <=? Part1.currentOptionIndex st)%Z;
    destruct (nonEmptyList (para_imageRIds para));
    cbn [negb andb orb]; rewrite ?Hin; cbn [negb andb orb];
    try reflexivity;
    try (rewrite (p1_withCurrentQ_same st Hcur); reflexivity);
    try (destruct st; cbn in *; subst; reflexivity).
Qed.

Lemma p2_figure_step images st para :
  isFigure (para_text para) = true ->
  isPartHeader (para_text para) = false ->
  Part2.step images st para
  = match Part2.currentQ st with
    | None => st
    | Some q =>
        if Part2.inSolution st then st
        else Part2.withCurrentQ st (attachIfAny q (para_imageRIds para) images)
    end.
Proof.
  intros Hfig Hhdr.
  destruct (figure_excludes _ Hfig) as (Ht & Hq & Hsol & _ & Hstmt & _).
  unfold Part2.step. rewrite (truthy_not_empty _ Ht), Hhdr, Hq. cbn [andb].
  destruct (Part2.currentQ st) as [q|] eqn:Hcur; [|reflexivity].
  rewrite Hsol, Hstmt, Ht.
  replace (if Part2.collectingContent st then None else None) with (@None caps)
    by (destruct (Part2.collectingContent st); reflexivity).
  unfold Part2.continuation, Part2.fallThrough, attachIfAny. rewrite Hfig, Ht. cbv zeta.
  cbn [negb andb].
  destruct (Part2.inSolution st) eqn:Hin; destruct (Part2.collectingContent st);
    destruct (Part2.startedStatements st); destruct (0 <=? Part2.currentStmtIndex st)%Z;
    destruct (nonEmptyList (para_imageRIds para));
    cbn [negb andb orb]; rewrite ?Hin; cbn [negb andb orb];
    try reflexivity;
    try (rewrite (p2_withCurrentQ_same st Hcur); reflexivity);
    try (destruct st; cbn in *; subst; reflexivity).
Qed.

Lemma p3_figure_step images st para :
  isFigure (para_text para) = true ->
  isPartHeader (para_text para) = false ->
  Part3.step images st para
  = match Part3.currentQ st with
    | None => st
    | Some q => Part3.withCurrentQ st (attachIfAny q (para_imageRIds para) images)
    end.
Proof.
  intros Hfig Hhdr.
  destruct (figure_excludes _ Hfig) as (Ht & Hq & Hsol & _ & _ & Hans).
  unfold Part3.step. rewrite (truthy_not_empty _ Ht), Hhdr, Hq. cbn [andb].
  destruct (Part3.currentQ st) as [q|] eqn:Hcur; [|reflexivity].
  rewrite Hsol, Hans.
  unfold Part3.fallThrough. rewrite Hfig, Ht. cbv zeta.
  destruct (Part3.collectingContent st); cbn [negb andb]; rewrite ?andb_false_r;
    reflexivity.
Qed.

Lemma p1_text_withCurrentQ st q q1 :
  Part1.currentQ st = Some q -> questionText q1 = questionText q ->
  p1_text (Part1.withCurrentQ st q1) = p1_text st.
Proof.
  intros Hcur Hq. unfold p1_text. cbn. rewrite Hcur, Hq. reflexivity.
Qed.

Lemma p2_text_withCurrentQ st q q1 :
  Part2.currentQ st = Some q -> questionText q1 = questionText q ->
  p2_text (Part2.withCurrentQ st q1) = p2_text st.
Proof.
  intros Hcur Hq. unfold p2_text. cbn. rewrite Hcur, Hq. reflexivity.
Qed.

Lemma p3_text_withCurrentQ st q q1 :
  Part3.currentQ st = Some q -> questionText q1 = questionText q ->
  p3_text (Part3.withCurrentQ st q1) = p3_text st.
Proof.
  intros Hcur Hq. unfold p3_text. cbn. rewrite Hcur, Hq. reflexivity.
Qed.

Lemma p1_figure_text images st para :
  isFigure (para_text para) = true -> p1_text (Part1.step images st para) = p1_text st.
Proof.
  intros Hfig.
  destruct (Part1.isSectionHeader (para_text para)) eqn:Hhdr.
  { unfold Part1.step. rewrite Hhdr. break_if; reflexivity. }
  destruct (jsmatch true Part1.answerPattern (para_text para)) as [m|] eqn:Hans.
  - destruct (figure_excludes _ Hfig) as (Ht & Hq & Hsol & _).
    unfold Part1.step. rewrite (truthy_not_empty _ Ht), Hhdr, Hq. cbn [andb].
    destruct (Part1.currentQ st) as [q|] eqn:Hcur; [|reflexivity].
    rewrite Hsol, Hans. apply (p1_text_withCurrentQ st Hcur). reflexivity.
  - rewrite (p1_figure_step images st para Hfig Hhdr Hans).
    destruct (Part1.currentQ st) as [q|] eqn:Hcur; [|reflexivity].
    destruct (Part1.inSolution st); [reflexivity|].
    apply (p1_text_withCurrentQ st Hcur). apply questionText_attachIfAny.
Qed.

Lemma p2_figure_text images st para :
  isFigure (para_text para) = true -> p2_text (Part2.step images st para) = p2_text st.
Proof.
  intros Hfig.
  destruct (isPartHeader (para_text para)) eqn:Hhdr.
  { unfold Part2.step. rewrite Hhdr. break_if; reflexivity. }
  rewrite (p2_figure_step images st para Hfig Hhdr).
  destruct (Part2.currentQ st) as [q|] eqn:Hcur; [|reflexivity].
  destruct (Part2.inSolution st); [reflexivity|].
  apply (p2_text_withCurrentQ st Hcur). apply questionText_attachIfAny.
Qed.

Lemma p3_figure_text images st para :
  isFigure (para_text para) = true -> p3_text (Part3.step images st para) = p3_text st.
Proof.
  intros Hfig.
  destruct (isPartHeader (para_text para)) eqn:Hhdr.
  { unfold Part3.step. rewrite Hhdr. break_if; reflexivity. }
  rewrite (p3_figure_step images st para Hfig Hhdr).
  destruct (Part3.currentQ st) as [q|] eqn:Hcur; [|reflexivity].
  apply (p3_text_withCurrentQ st Hcur). apply questionText_attachIfAny.
Qed.

(** C7, as the code has it.  A paragraph whose text begins with the figure
    marker never changes the text content of a parser state: stems, options,
    solutions and the two buffers stay as they are, in every state of the
    three parsers.  When it is not taken as a section header (nor, in
    section 1, as an explicit answer line), it attaches its images to the
    question in progress and changes nothing else, except in the solution
    state of sections 1 and 2, where the state is left as it is: there the
    images are not attached. *)
Theorem figure_paragraph_handling images para :
  isFigure (para_text para) = true ->
  (forall st, p1_text (Part1.step images st para) = p1_text st)
  /\ (forall st, p2_text (Part2.step images st para) = p2_text st)
  /\ (forall st, p3_text (Part3.step images st para) = p3_text st)
  /\ (forall st q,
        Part1.isSectionHeader (para_text para) = false ->
        jsmatch true Part1.answerPattern (para_text para) = None ->
        Part1.currentQ st = Some q ->
        Part1.step images st para
        = if Part1.inSolution st then st
          else Part1.withCurrentQ st (attachIfAny q (para_imageRIds para) images))
  /\ (forall st q,
        isPartHeader (para_text para) = false ->
        Part2.currentQ st = Some q ->
        Part2.step images st para
        = if Part2.inSolution st then st
          else Part2.withCurrentQ st (attachIfAny q (para_imageRIds para) images))
  /\ (forall st q,
        isPartHeader (para_text para) = false ->
        Part3.currentQ st = Some q ->
        Part3.step images st para
        = Part3.withCurrentQ st (attachIfAny q (para_imageRIds para) images)).
Proof.
  intros Hfig. repeat split.
  - intros st. apply p1_figure_text. exact Hfig.
  - intros st. apply p2_figure_text. exact Hfig.
  - intros st. apply p3_figure_text. exact Hfig.
  - intros st q Hhdr Hans Hcur. rewrite (p1_figure_step images st para Hfig Hhdr Hans), Hcur.
    reflexivity.
  - intros st q Hhdr Hcur. rewrite (p2_figure_step images st para Hfig Hhdr), Hcur.
    reflexivity.
  - intros st q Hhdr Hcur. rewrite (p3_figure_step images st para Hfig Hhdr), Hcur.
    reflexivity.
Qed.

(** C7, witness: a figure paragraph with a picture right after a question
    marker of section 1; the picture is attached and no text is added. *)
Lemma figure_paragraph_witness :
  option_map pq_images (Part1.currentQ (Part1.step [figureAsset] inStemState figureParagraph))
  = Some [figureAsset]
  /\ p1_text (Part1.step [figureAsset] inStemState figureParagraph) = p1_text inStemState.
Proof.
  assert (Hfig : isFigure (para_text figureParagraph) = true) by (vm_compute; reflexivity).
  destruct (@figure_paragraph_handling [figureAsset] figureParagraph Hfig)
    as (H1 & _ & _ & H4 & _).
  split; [|apply H1].
  rewrite (H4 inStemState (newQuestion 1 1 multiple_choice));
    vm_compute; reflexivity.
Defined.

(** C7, counterexample: in the solution state of section 1 the images of a
    figure paragraph are not attached, although the relationship id
    resolves to an asset; the parsed question has no image. *)
Lemma figure_image_dropped_in_solution :
  isFigure (para_text figureParagraph) = true
  /\ (exists q, Part1.currentQ inSolutionState = Some q
                /\ pq_images (attachImages q (para_imageRIds figureParagraph) [figureAsset])
                   = [figureAsset])
  /\ Part1.step [figureAsset] inSolutionState figureParagraph = inSolutionState
  /\ map pq_images (Part1.parsePart1WithUnderline figureInSolutionDoc 0 3 [figureAsset])
     = [[]].
Proof.
  split; [vm_compute; reflexivity|]. split.
  - eexists. split; vm_compute; reflexivity.
  - split; vm_compute; reflexivity.
Qed.

(** ** The option index *)

Lemma p1_step_indexed images st para : p1_Indexed st -> p1_Indexed (Part1.step images st para).
Proof.
  intros HI. unfold p1_Indexed in *.
  unfold Part1.step, Part1.continuation, Part1.fallThrough. cbv zeta.
  destruct (Part1.currentQ st) as [q|] eqn:Hcur.
  - specialize (HI q eq_refl).
    repeat first [break_if | break_match];
      intros q0 Hq0; cbn in Hq0; rewrite ?Hcur in Hq0; inversion Hq0; subst q0; clear Hq0;
      cbn [Part1.currentOptionIndex Part1.withCurrentQ Part1.withLetters
           Part1.withContentBuffer Part1.withSolutionBuffer];
      rewrite ?attachIfAny_options; qsimp; rewrite ?appendToOption_length;
      auto; repeat break_if; qsimp; auto.
  - repeat first [break_if | break_match];
      intros q0 Hq0; cbn in Hq0; rewrite ?Hcur in Hq0; inversion Hq0; subst q0; clear Hq0;
      cbn [Part1.currentOptionIndex]; rewrite ?attachIfAny_options; qsimp; auto.
Qed.

Lemma p1_index_in_range images ps q :
  let st := Part1.run images Part1.init ps in
  Part1.currentQ st = Some q -> (0 <= Part1.currentOptionIndex st)%Z ->
  (Z.to_nat (Part1.currentOptionIndex st) < List.length (pq_options q))%nat.
Proof.
  cbv zeta.
  assert (G : forall st, p1_Indexed st -> p1_Indexed (Part1.run images st ps)).
  { unfold Part1.run. induction ps as [|para ps IH]; intros st H; cbn [fold_left]; [exact H|].
    apply IH. apply p1_step_indexed. exact H. }
  intros Hcur Hidx.
  assert (H0 : p1_Indexed Part1.init) by (intros q0 Hq0; discriminate).
  specialize (G _ H0 q Hcur). lia.
Qed.

Lemma p2_index_in_range images ps q :
  let st := Part2.run images Part2.init ps in
  Part2.currentQ st = Some q -> (0 <= Part2.currentStmtIndex st)%Z ->
  (Z.to_nat (Part2.currentStmtIndex st) < List.length (pq_options q))%nat.
Proof.
  cbv zeta. intros Hcur Hidx.
  pose proof (p2_run_good images ps p2_init_good) as (_ & _ & _ & Hc).
  destruct (Hc q Hcur) as (_ & _ & H). lia.
Qed.

(** ** Scenarios of the specification *)

(** One question of section 1 whose option B is underlined and no answer
    line: one question, number 101, answer B, keyed in the answer key. *)
Example scenario_underlined_option :
  let exam := parseAllQuestions scenarioDoc [] in
  map (fun q => (q_number q, q_text q, q_correctAnswer q)) (questions exam)
  = [(101%Z, utf8 "2+2=?", Some (utf8 "B"))]
  /\ answers exam = [(101%Z, utf8 "B")].
Proof.
  cbv zeta. split; vm_compute; reflexivity.
Qed.

(** An option followed by a paragraph that is neither an option nor a figure:
    the text of the option is the two texts joined by a space. *)
Example scenario_multiline_option :
  map (fun q => map opt_text (q_options q))
    (questions (parseAllQuestions multilineOptionDoc []))
  = [[utf8 "foo bar"; utf8 "baz"]].
Proof.
  vm_compute. reflexivity.
Qed.

(** * Further properties of the code *)

(** ** Section boundaries: the indices [detectSections] finds *)

Lemma firstHeader_ge patterns ps : forall i j,
  firstHeader patterns i ps = Some j -> (i <= j)%Z.
Proof.
  induction ps as [|p ps IH]; intros i j H; cbn [firstHeader] in H; [discriminate|].
  destruct (anyPattern patterns (para_text p)).
  - inversion H. lia.
  - apply IH in H. lia.
Qed.

Lemma detectLoop_part1 (ps : list ParagraphData) : forall info i,
  (0 <= i)%Z ->
  part1Start (detectLoop info i ps)
  = if (part1Start info =? -1)%Z
    then match firstHeader part1Patterns i ps with
         | Some j => j
         | None => (-1)%Z
         end
    else part1Start info.
Proof.
  induction ps as [|p ps IH]; intros info i Hi; cbn [detectLoop firstHeader].
  - destruct (part1Start info =? -1)%Z eqn:E; [lia | reflexivity].
  - rewrite IH by lia. unfold detectStep. cbn [part1Start].
    destruct (part1Start info =? -1)%Z eqn:E; cbn [andb].
    + destruct (anyPattern part1Patterns (para_text p)).
      * destruct (i =? -1)%Z eqn:E1; [lia | reflexivity].
      * rewrite E. reflexivity.
    + rewrite E. reflexivity.
Qed.

Lemma scanned_mono patterns whole i j start :
  (i <= j)%Z -> scanned patterns whole i start -> scanned patterns whole j start.
Proof.
  intros Hij [H | (para & H1 & H2 & H3)]; [left; exact H|].
  right. exists para. repeat split; try assumption; lia.
Qed.

Lemma detectLoop_scanned (whole : list ParagraphData) (ps : list ParagraphData) :
  forall pre info,
    whole = pre ++ ps ->
    scanned part1Patterns whole (Z.of_nat (List.length pre)) (part1Start info) ->
    scanned part2Patterns whole (Z.of_nat (List.length pre)) (part2Start info) ->
    scanned part3Patterns whole (Z.of_nat (List.length pre)) (part3Start info) ->
    let out := detectLoop info (Z.of_nat (List.length pre)) ps in
    scanned part1Patterns whole (Z.of_nat (List.length whole)) (part1Start out)
    /\ scanned part2Patterns whole (Z.of_nat (List.length whole)) (part2Start out)
    /\ scanned part3Patterns whole (Z.of_nat (List.length whole)) (part3Start out).
Proof.
  induction ps as [|p ps IH]; intros pre info Hw H1 H2 H3; cbn [detectLoop]; cbv zeta.
  - subst whole. rewrite app_nil_r in *. auto.
  - assert (Hnth : nth_error whole (List.length pre) = Some p).
    { rewrite Hw, nth_error_app2 by lia. rewrite Nat.sub_diag. reflexivity. }
    assert (Hhere : forall patterns,
      anyPattern patterns (para_text p) = true ->
      scanned patterns whole (Z.of_nat (List.length (pre ++ [p])))
        (Z.of_nat (List.length pre))).
    { intros patterns Hp. right. exists p. rewrite Nat2Z.id, length_app. cbn [List.length].
      repeat split; try assumption; lia. }
    assert (Hlen : (Z.of_nat (List.length pre) + 1)%Z = Z.of_nat (List.length (pre ++ [p])))
      by (rewrite length_app; cbn [List.length]; lia).
    rewrite Hlen.
    assert (Hle : (Z.of_nat (List.length pre) <= Z.of_nat (List.length (pre ++ [p])))%Z) by lia.
    apply IH.
    + rewrite Hw, <- app_assoc. reflexivity.
    + unfold detectStep. cbn [part1Start].
      destruct ((part1Start info =? -1)%Z && anyPattern part1Patterns (para_text p)) eqn:E.
      * apply andb_true_iff in E. apply Hhere, E.
      * eapply scanned_mono; eassumption.
    + unfold detectStep. cbn [part2Start].
      match goal with |- context [if ?b then _ else _] => destruct b eqn:E end.
      * apply andb_true_iff in E. apply Hhere, E.
      * eapply scanned_mono; eassumption.
    + unfold detectStep. cbn [part3Start].
      match goal with |- context [if ?b then _ else _] => destruct b eqn:E end.
      * apply andb_true_iff in E. apply Hhere, E.
      * eapply scanned_mono; eassumption.
Qed.

(** X1.  The start indices [detectSections] returns lie within the document,
    and each is the index of a paragraph that matches a header pattern of
    its section, or the default of the section: 0 for section 1, the number
    of paragraphs for sections 2 and 3. *)
Theorem detectSections_within_document (fullText : jsstring) (ps : list ParagraphData) :
  let info := detectSections fullText ps in
  let len := Z.of_nat (List.length ps) in
  (0 <= part1Start info <= len)%Z /\ (0 <= part2Start info <= len)%Z
  /\ (0 <= part3Start info <= len)%Z
  /\ headerAt part1Patterns ps 0 (part1Start info)
  /\ headerAt part2Patterns ps len (part2Start info)
  /\ headerAt part3Patterns ps len (part3Start info).
Proof.
  cbv zeta.
  pose proof (@detectLoop_scanned ps ps [] {| part1Start := -1; part2Start := -1; part3Start := -1 |}
                eq_refl (or_introl eq_refl) (or_introl eq_refl) (or_introl eq_refl)) as H.
  cbv zeta in H. cbn [List.length Z.of_nat] in H. destruct H as (H1 & H2 & H3).
  unfold detectSections. cbn [part1Start part2Start part3Start].
  set (out := detectLoop _ 0%Z ps) in *.
  assert (G : forall patterns dflt start,
    (0 <= dflt <= Z.of_nat (List.length ps))%Z ->
    scanned patterns ps (Z.of_nat (List.length ps)) start ->
    (0 <= (if (start =? -1)%Z then dflt else start) <= Z.of_nat (List.length ps))%Z
    /\ headerAt patterns ps dflt (if (start =? -1)%Z then dflt else start)).
  { intros patterns dflt start Hd [-> | (para & Hn & Hr & Hp)].
    - cbn. split; [exact Hd | left; reflexivity].
    - destruct (start =? -1)%Z eqn:E; [lia|]. split; [lia|].
      right. exists para. auto. }
  destruct (G part1Patterns 0%Z _ ltac:(lia) H1).
  destruct (G part2Patterns (Z.of_nat (List.length ps)) _ ltac:(lia) H2).
  destruct (G part3Patterns (Z.of_nat (List.length ps)) _ ltac:(lia) H3).
  auto 10.
Qed.

Lemma firstHeaderExcept_ge patterns skip ps : forall i j,
  firstHeaderExcept patterns skip i ps = Some j -> (i <= j)%Z.
Proof.
  induction ps as [|p ps IH]; intros i j H; cbn [firstHeaderExcept] in H; [discriminate|].
  destruct (anyPattern patterns (para_text p) && negb (existsb (Z.eqb i) skip)).
  - inversion H. lia.
  - apply IH in H. lia.
Qed.

Lemma startOr_ge patterns skip ps i :
  (0 <= i)%Z ->
  startOr (-1) (firstHeaderExcept patterns skip i ps) = (-1)%Z
  \/ (i <= startOr (-1) (firstHeaderExcept patterns skip i ps))%Z.
Proof.
  intros Hi. destruct (firstHeaderExcept patterns skip i ps) as [j|] eqn:E; cbn [startOr].
  - right. eapply firstHeaderExcept_ge; exact E.
  - left. reflexivity.
Qed.

Lemma firstHeader_startOr_ge ps i :
  (0 <= i)%Z ->
  startOr (-1) (firstHeader part1Patterns i ps) = (-1)%Z
  \/ (i <= startOr (-1) (firstHeader part1Patterns i ps))%Z.
Proof.
  intros Hi. destruct (firstHeader part1Patterns i ps) as [j|] eqn:E; cbn [startOr].
  - right. eapply firstHeader_ge; exact E.
  - left. reflexivity.
Qed.

(** Section 1, from a state of the scan. *)
Lemma detectLoop_part1_from ps info i :
  (0 <= i)%Z ->
  part1Start (detectLoop info i ps)
  = if (part1Start info =? -1)%Z then startOr (-1) (firstHeader part1Patterns i ps)
    else part1Start info.
Proof.
  intros Hi. rewrite detectLoop_part1 by exact Hi. reflexivity.
Qed.

(** Section 2, from a state of the scan: the paragraph taken for section 1
    is passed over. *)
Lemma detectLoop_part2_from (ps : list ParagraphData) : forall info i,
  (0 <= i)%Z -> (part1Start info < i)%Z ->
  part2Start (detectLoop info i ps)
  = if (part2Start info =? -1)%Z
    then startOr (-1) (firstHeaderExcept part2Patterns
                         [part1Start (detectLoop info i ps)] i ps)
    else part2Start info.
Proof.
  induction ps as [|p ps IH]; intros info i Hi H1; cbn [detectLoop firstHeaderExcept].
  - cbn [startOr]. destruct (part2Start info =? -1)%Z eqn:E; [lia | reflexivity].
  - set (info1 := detectStep info i (para_text p)).
    assert (Hp1 : (part1Start info1 <= i)%Z).
    { unfold info1, detectStep. cbn [part1Start]. break_if; lia. }
    assert (Hfin : part1Start (detectLoop info1 (i + 1) ps) = part1Start info1
                   \/ (part1Start info1 = -1
                       /\ (part1Start (detectLoop info1 (i + 1) ps) = -1
                           \/ i + 1 <= part1Start (detectLoop info1 (i + 1) ps)))%Z).
    { rewrite detectLoop_part1_from by lia.
      destruct (part1Start info1 =? -1)%Z eqn:E; [|left; reflexivity].
      right. split; [lia|]. apply firstHeader_startOr_ge. lia. }
    assert (Eq2 : part2Start info1
                  = if (part2Start info =? -1)%Z && (part1Start info1 <? i)%Z
                       && anyPattern part2Patterns (para_text p)
                    then i else part2Start info) by reflexivity.
    clearbody info1.
    rewrite IH by lia. cbn [existsb]. rewrite orb_false_r.
    assert (Hcond : (part1Start info1 <? i)%Z
                    = negb (i =? part1Start (detectLoop info1 (i + 1) ps))%Z).
    { destruct Hfin as [-> | [E [-> | G]]]; lia. }
    rewrite <- Hcond, Eq2.
    destruct (part2Start info =? -1)%Z eqn:E; cbn [andb]; [|rewrite E; reflexivity].
    rewrite andb_comm.
    destruct (anyPattern part2Patterns (para_text p) && (part1Start info1 <? i)%Z);
      cbn [startOr].
    + replace (i =? -1)%Z with false by lia. reflexivity.
    + rewrite E. reflexivity.
Qed.

(** Section 3, from a state of the scan: the paragraphs taken for sections
    1 and 2 are passed over. *)
Lemma detectLoop_part3_from (ps : list ParagraphData) : forall info i,
  (0 <= i)%Z -> (part1Start info < i)%Z -> (part2Start info < i)%Z ->
  (-1 <= part1Start info)%Z -> (-1 <= part2Start info)%Z ->
  part3Start (detectLoop info i ps)
  = if (part3Start info =? -1)%Z
    then startOr (-1) (firstHeaderExcept part3Patterns
                         [part1Start (detectLoop info i ps);
                          part2Start (detectLoop info i ps)] i ps)
    else part3Start info.
Proof.
  induction ps as [|p ps IH]; intros info i Hi H1 H2 L1 L2;
    cbn [detectLoop firstHeaderExcept].
  - cbn [startOr]. destruct (part3Start info =? -1)%Z eqn:E; [lia | reflexivity].
  - set (info1 := detectStep info i (para_text p)).
    assert (Hp1 : (-1 <= part1Start info1 <= i)%Z).
    { unfold info1, detectStep. cbn [part1Start]. break_if; lia. }
    assert (Hp2 : (-1 <= part2Start info1 <= i)%Z).
    { unfold info1, detectStep. cbn [part2Start]. break_if; lia. }
    assert (Hfin1 : part1Start (detectLoop info1 (i + 1) ps) = part1Start info1
                    \/ (part1Start info1 = -1
                        /\ (part1Start (detectLoop info1 (i + 1) ps) = -1
                            \/ i + 1 <= part1Start (detectLoop info1 (i + 1) ps)))%Z).
    { rewrite detectLoop_part1_from by lia.
      destruct (part1Start info1 =? -1)%Z eqn:E; [|left; reflexivity].
      right. split; [lia|]. apply firstHeader_startOr_ge. lia. }
    assert (Hfin2 : part2Start (detectLoop info1 (i + 1) ps) = part2Start info1
                    \/ (part2Start info1 = -1
                        /\ (part2Start (detectLoop info1 (i + 1) ps) = -1
                            \/ i + 1 <= part2Start (detectLoop info1 (i + 1) ps)))%Z).
    { rewrite detectLoop_part2_from by lia.
      destruct (part2Start info1 =? -1)%Z eqn:E; [|left; reflexivity].
      right. split; [lia|]. apply startOr_ge. lia. }
    assert (Hcond : (Z.max (part1Start info1) (part2Start info1) <? i)%Z
                    = negb (existsb (Z.eqb i)
                              [part1Start (detectLoop info1 (i + 1) ps);
                               part2Start (detectLoop info1 (i + 1) ps)])).
    { cbn [existsb]. rewrite orb_false_r.
      destruct Hfin1 as [-> | [E1 G1]]; destruct Hfin2 as [-> | [E2 G2]]; lia. }
    assert (Eq3 : part3Start info1
                  = if (part3Start info =? -1)%Z
                       && (Z.max (part1Start info1) (part2Start info1) <? i)%Z
                       && anyPattern part3Patterns (para_text p)
                    then i else part3Start info) by reflexivity.
    clearbody info1.
    rewrite IH by lia. rewrite <- Hcond, Eq3.
    destruct (part3Start info =? -1)%Z eqn:E; cbn [andb]; [|rewrite E; reflexivity].
    rewrite andb_comm.
    destruct (anyPattern part3Patterns (para_text p)
              && (Z.max (part1Start info1) (part2Start info1) <? i)%Z); cbn [startOr].
    + replace (i =? -1)%Z with false by lia. reflexivity.
    + rewrite E. reflexivity.
Qed.

(** X2.  The three start indices: section 1 starts at the first paragraph that
    matches a pattern of section 1; section 2 at the first paragraph that
    matches one of section 2 and is not the header of section 1; section 3
    at the first that matches one of section 3 and is the header of neither;
    a section without such a paragraph starts at 0 (section 1) or at the
    end of the document (sections 2 and 3). *)
Theorem detectSections_first_headers (fullText : jsstring) (ps : list ParagraphData) :
  let len := Z.of_nat (List.length ps) in
  let h1 := startOr (-1) (firstHeader part1Patterns 0 ps) in
  let h2 := startOr (-1) (firstHeaderExcept part2Patterns [h1] 0 ps) in
  let h3 := startOr (-1) (firstHeaderExcept part3Patterns [h1; h2] 0 ps) in
  detectSections fullText ps
  = {| part1Start := if (h1 =? -1)%Z then 0%Z else h1;
       part2Start := if (h2 =? -1)%Z then len else h2;
       part3Start := if (h3 =? -1)%Z then len else h3 |}.
Proof.
  cbv zeta. unfold detectSections.
  set (init := {| part1Start := -1; part2Start := -1; part3Start := -1 |}).
  assert (E1 : part1Start (detectLoop init 0 ps)
               = startOr (-1) (firstHeader part1Patterns 0 ps)).
  { rewrite detectLoop_part1_from by lia. reflexivity. }
  assert (E2 : part2Start (detectLoop init 0 ps)
               = startOr (-1) (firstHeaderExcept part2Patterns
                                 [part1Start (detectLoop init 0 ps)] 0 ps)).
  { rewrite detectLoop_part2_from by (cbn; lia). reflexivity. }
  assert (E3 : part3Start (detectLoop init 0 ps)
               = startOr (-1) (firstHeaderExcept part3Patterns
                                 [part1Start (detectLoop init 0 ps);
                                  part2Start (detectLoop init 0 ps)] 0 ps)).
  { rewrite detectLoop_part3_from by (cbn; lia). reflexivity. }
  rewrite E3, E2, E1. reflexivity.
Qed.

(** ** The sort that ends the section parsers *)

Lemma insertByNumber_perm q l : Permutation (insertByNumber q l) (q :: l).
Proof.
  induction l as [|x l IH]; cbn [insertByNumber]; [reflexivity|].
  destruct (pq_number q <? pq_number x)%Z; [reflexivity|].
  rewrite IH. apply perm_swap.
Qed.

Lemma sortByNumber_perm l : Permutation (sortByNumber l) l.
Proof.
  unfold sortByNumber.
  assert (G : forall acc, Permutation (fold_left (fun acc q => insertByNumber q acc) l acc)
                            (l ++ acc)).
  { induction l as [|x l IH]; intros acc; cbn [fold_left app]; [reflexivity|].
    rewrite IH, insertByNumber_perm. symmetry. apply Permutation_middle. }
  rewrite G, app_nil_r. reflexivity.
Qed.

Lemma insertByNumber_sorted q l :
  StronglySorted numberLe l -> StronglySorted numberLe (insertByNumber q l).
Proof.
  induction l as [|x l IH]; intros H; cbn [insertByNumber].
  - repeat constructor.
  - inversion H as [|? ? Hs Hall]; subst.
    destruct (pq_number q <? pq_number x)%Z eqn:E.
    + constructor; [exact H|]. constructor; [unfold numberLe; lia|].
      eapply Forall_impl; [|exact Hall]. unfold numberLe. intros; lia.
    + constructor; [apply IH; exact Hs|].
      apply Forall_forall. intros y Hy.
      apply (Permutation_in _ (insertByNumber_perm q l)) in Hy.
      destruct Hy as [<- | Hy]; [unfold numberLe; lia|].
      rewrite Forall_forall in Hall. apply Hall. exact Hy.
Qed.

Lemma insertByNumber_numbered n q l :
  StronglySorted numberLe l ->
  numbered n (insertByNumber q l)
  = if (pq_number q =? n)%Z then numbered n l ++ [q] else numbered n l.
Proof.
  unfold numbered. induction l as [|x l IH]; intros H; cbn [insertByNumber filter app].
  - destruct (pq_number q =? n)%Z; reflexivity.
  - inversion H as [|? ? Hs Hall]; subst.
    destruct (pq_number q <? pq_number x)%Z eqn:E; cbn [filter].
    + destruct (pq_number q =? n)%Z eqn:En; [|reflexivity].
      assert (Hx : (pq_number x =? n)%Z = false) by lia. rewrite Hx.
      assert (Hl : filter (fun q0 => (pq_number q0 =? n)%Z) l = []).
      { clear IH Hs H. induction l as [|y l IHl]; cbn [filter]; [reflexivity|].
        inversion Hall; subst. unfold numberLe in *.
        assert (Hy : (pq_number y =? n)%Z = false) by lia. rewrite Hy. auto. }
      rewrite Hl. reflexivity.
    + rewrite (IH Hs). destruct (pq_number x =? n)%Z; destruct (pq_number q =? n)%Z;
        reflexivity.
Qed.

Lemma sortByNumber_fold l : forall acc,
  StronglySorted numberLe acc ->
  StronglySorted numberLe (fold_left (fun acc q => insertByNumber q acc) l acc)
  /\ forall n, numbered n (fold_left (fun acc q => insertByNumber q acc) l acc)
               = numbered n acc ++ numbered n l.
Proof.
  induction l as [|x l IH]; intros acc Hacc; cbn [fold_left].
  - split; [exact Hacc|]. intros n. unfold numbered. cbn. rewrite app_nil_r. reflexivity.
  - destruct (IH (insertByNumber x acc) (insertByNumber_sorted x Hacc)) as [Hs Hn].
    split; [exact Hs|]. intros n. rewrite Hn, (insertByNumber_numbered n x Hacc).
    unfold numbered. cbn [filter].
    destruct (pq_number x =? n)%Z; rewrite <- ?app_assoc; reflexivity.
Qed.

Lemma sortByNumber_sorted l : StronglySorted numberLe (sortByNumber l).
Proof.
  apply (@sortByNumber_fold l [] (SSorted_nil _)).
Qed.

(** X3.  The sort that ends each section parser,
    [questions.sort((a, b) => a.number - b.number)], orders the questions by
    number, keeps every question, and keeps the questions that share a
    number in the order they had. *)
Theorem sortByNumber_stable_sort (l : list ParsedQuestion) :
  StronglySorted numberLe (sortByNumber l)
  /\ Permutation (sortByNumber l) l
  /\ forall n, numbered n (sortByNumber l) = numbered n l.
Proof.
  destruct (@sortByNumber_fold l [] (SSorted_nil _)) as [Hs Hn].
  split; [exact Hs|]. split; [apply sortByNumber_perm|]. intros n. apply Hn.
Qed.

(** ** Invariants of the questions a parser closes *)

Lemma p1_questions_step images st para :
  Part1.questions (Part1.step images st para) = Part1.questions st
  \/ Part1.questions (Part1.step images st para) = Part1.flush st.
Proof.
  unfold Part1.step, Part1.continuation, Part1.fallThrough. cbv zeta.
  repeat first [break_if | break_match]; cbn; auto.
Qed.

Lemma p2_questions_step images st para :
  Part2.questions (Part2.step images st para) = Part2.questions st
  \/ Part2.questions (Part2.step images st para) = Part2.flush st.
Proof.
  unfold Part2.step, Part2.continuation, Part2.fallThrough. cbv zeta.
  repeat first [break_if | break_match]; cbn; auto.
Qed.

Lemma p3_questions_step images st para :
  Part3.questions (Part3.step images st para) = Part3.questions st
  \/ Part3.questions (Part3.step images st para) = Part3.flush st.
Proof.
  unfold Part3.step, Part3.fallThrough. cbv zeta.
  repeat first [break_if | break_match]; cbn; auto.
Qed.

Section Closing.
Variable images : list ImageData.
Variable C : ParsedQuestion -> Prop.

Lemma p1_closed_invariant (I : Part1.State -> Prop) paragraphs startIdx endIdx :
  (forall st para, I st -> I (Part1.step images st para)) ->
  (forall st q, I st -> Part1.currentQ st = Some q ->
                truthy (pq_text (Part1.closeQuestion st q)) = true ->
                C (Part1.closeQuestion st q)) ->
  I Part1.init ->
  Forall C (Part1.parsePart1WithUnderline paragraphs startIdx endIdx images).
Proof.
  intros Hstep Hclose Hinit.
  assert (Hflush : forall st, I st -> Forall C (Part1.questions st) -> Forall C (Part1.flush st)).
  { intros st HI Hq. unfold Part1.flush. destruct (Part1.currentQ st) as [q|] eqn:E; [|exact Hq].
    destruct (truthy _) eqn:Et; [|exact Hq]. apply Forall_app. split; [exact Hq|].
    constructor; [|constructor]. apply Hclose; assumption. }
  assert (Hrun : forall ps st, I st -> Forall C (Part1.questions st) ->
            I (Part1.run images st ps) /\ Forall C (Part1.questions (Part1.run images st ps))).
  { unfold Part1.run. induction ps as [|para ps IH]; intros st HI Hq; cbn [fold_left]; [auto|].
    apply IH; [apply Hstep; exact HI|].
    destruct (p1_questions_step images st para) as [-> | ->]; auto. }
  unfold Part1.parsePart1WithUnderline. break_if; [constructor|].
  apply Forall_forall. intros q Hq. rewrite In_sortByNumber in Hq. revert q Hq.
  apply Forall_forall.
  destruct (Hrun (slice paragraphs startIdx endIdx) Part1.init Hinit (Forall_nil _)).
  apply Hflush; assumption.
Qed.

Lemma p2_closed_invariant (I : Part2.State -> Prop) paragraphs startIdx endIdx :
  (forall st para, I st -> I (Part2.step images st para)) ->
  (forall st q, I st -> Part2.currentQ st = Some q ->
                truthy (pq_text (Part2.closeQuestion st q)) = true ->
                C (Part2.closeQuestion st q)) ->
  I Part2.init ->
  Forall C (Part2.parsePart2 paragraphs startIdx endIdx images).
Proof.
  intros Hstep Hclose Hinit.
  assert (Hflush : forall st, I st -> Forall C (Part2.questions st) -> Forall C (Part2.flush st)).
  { intros st HI Hq. unfold Part2.flush. destruct (Part2.currentQ st) as [q|] eqn:E; [|exact Hq].
    destruct (truthy _) eqn:Et; [|exact Hq]. apply Forall_app. split; [exact Hq|].
    constructor; [|constructor]. apply Hclose; assumption. }
  assert (Hrun : forall ps st, I st -> Forall C (Part2.questions st) ->
            I (Part2.run images st ps) /\ Forall C (Part2.questions (Part2.run images st ps))).
  { unfold Part2.run. induction ps as [|para ps IH]; intros st HI Hq; cbn [fold_left]; [auto|].
    apply IH; [apply Hstep; exact HI|].
    destruct (p2_questions_step images st para) as [-> | ->]; auto. }
  unfold Part2.parsePart2. break_if; [constructor|].
  apply Forall_forall. intros q Hq. rewrite In_sortByNumber in Hq. revert q Hq.
  apply Forall_forall.
  destruct (Hrun (slice paragraphs startIdx endIdx) Part2.init Hinit (Forall_nil _)).
  apply Hflush; assumption.
Qed.

Lemma p3_closed_invariant (I : Part3.State -> Prop) paragraphs startIdx endIdx :
  (forall st para, I st -> I (Part3.step images st para)) ->
  (forall st q, I st -> Part3.currentQ st = Some q ->
                truthy (pq_text (Part3.closeQuestion st q)) = true ->
                C (Part3.closeQuestion st q)) ->
  I Part3.init ->
  Forall C (Part3.parsePart3 paragraphs startIdx endIdx images).
Proof.
  intros Hstep Hclose Hinit.
  assert (Hflush : forall st, I st -> Forall C (Part3.questions st) -> Forall C (Part3.flush st)).
  { intros st HI Hq. unfold Part3.flush. destruct (Part3.currentQ st) as [q|] eqn:E; [|exact Hq].
    destruct (truthy _) eqn:Et; [|exact Hq]. apply Forall_app. split; [exact Hq|].
    constructor; [|constructor]. apply Hclose; assumption. }
  assert (Hrun : forall ps st, I st -> Forall C (Part3.questions st) ->
            I (Part3.run images st ps) /\ Forall C (Part3.questions (Part3.run images st ps))).
  { unfold Part3.run. induction ps as [|para ps IH]; intros st HI Hq; cbn [fold_left]; [auto|].
    apply IH; [apply Hstep; exact HI|].
    destruct (p3_questions_step images st para) as [-> | ->]; auto. }
  unfold Part3.parsePart3. break_if; [constructor|].
  apply Forall_forall. intros q Hq. rewrite In_sortByNumber in Hq. revert q Hq.
  apply Forall_forall.
  destruct (Hrun (slice paragraphs startIdx endIdx) Part3.init Hinit (Forall_nil _)).
  apply Hflush; assumption.
Qed.
End Closing.

(** X4.  Every question a section parser returns has a stem. *)
Theorem parsers_discard_empty_stems (paragraphs : list ParagraphData) (startIdx endIdx : Z)
  (images : list ImageData) :
  Forall (fun q => pq_text q <> [])
    (Part1.parsePart1WithUnderline paragraphs startIdx endIdx images)
  /\ Forall (fun q => pq_text q <> []) (Part2.parsePart2 paragraphs startIdx endIdx images)
  /\ Forall (fun q => pq_text q <> []) (Part3.parsePart3 paragraphs startIdx endIdx images).
Proof.
  assert (G : forall t : jsstring, truthy t = true -> t <> [])
    by (intros t H E; subst; discriminate).
  repeat split.
  - apply (@p1_closed_invariant images _ (fun _ => True)); auto.
  - apply (@p2_closed_invariant images _ (fun _ => True)); auto.
  - apply (@p3_closed_invariant images _ (fun _ => True)); auto.
Qed.

(** ** Images come from the asset list *)

Lemma resolveImage_In images rId img : resolveImage images rId = Some img -> In img images.
Proof.
  unfold resolveImage. destruct (find _ images) as [i|] eqn:E.
  - intros H; inversion H; subst. apply find_some in E. apply E.
  - intros H. apply find_some in H. apply H.
Qed.

Lemma attach_fold_extends images rIds : forall l,
  exists added, fold_left (attachOne images) rIds l = l ++ added
                /\ incl added images /\ (List.length added <= List.length rIds)%nat.
Proof.
  induction rIds as [|rId rIds IH]; intros l; cbn [fold_left].
  - exists []. rewrite app_nil_r. repeat split; [intros x []|cbn; lia].
  - destruct (IH (attachOne images l rId)) as (added & -> & Hi & Hl).
    unfold attachOne. destruct (resolveImage images rId) as [img|] eqn:E.
    + destruct (hasImage l img).
      * exists added. repeat split; [exact Hi | cbn; lia].
      * exists (img :: added). rewrite <- app_assoc. repeat split.
        -- intros x [<- | Hx]; [eapply resolveImage_In; exact E | apply Hi; exact Hx].
        -- cbn. lia.
    + exists added. repeat split; [exact Hi | cbn; lia].
Qed.

(** X5.  [attachImages] only appends: it keeps the images of the question, in
    order, and adds assets of the list after them, at most one for each
    relationship id; the texts, the answer and the number of the question
    stay as they are. *)
Theorem attachImages_only_appends (q : ParsedQuestion) (rIds : list jsstring)
  (images : list ImageData) :
  exists added,
    pq_images (attachImages q rIds images) = pq_images q ++ added
    /\ incl added images
    /\ (List.length added <= List.length rIds)%nat
    /\ questionText (attachImages q rIds images) = questionText q
    /\ pq_correctAnswer (attachImages q rIds images) = pq_correctAnswer q
    /\ pq_number (attachImages q rIds images) = pq_number q.
Proof.
  destruct (attach_fold_extends images rIds (pq_images q)) as (added & H & Hi & Hl).
  exists added. unfold attachImages. cbn [pq_images setImages]. rewrite H. auto 10.
Qed.

Lemma attachImages_incl images0 q rIds :
  incl (pq_images q) images0 -> incl (pq_images (attachImages q rIds images0)) images0.
Proof.
  intros H. destruct (attach_fold_extends images0 rIds (pq_images q)) as (added & E & Hi & _).
  unfold attachImages. cbn [pq_images setImages]. rewrite E. apply incl_app; assumption.
Qed.

Lemma attachIfAny_incl images0 q rIds :
  incl (pq_images q) images0 -> incl (pq_images (attachIfAny q rIds images0)) images0.
Proof.
  intros H. unfold attachIfAny. destruct (nonEmptyList rIds); [|exact H].
  apply attachImages_incl. exact H.
Qed.

Ltac current_cases Hcur :=
  repeat first [break_if | break_match];
  intros q0 Hq0; cbn in Hq0; rewrite ?Hcur in Hq0; inversion Hq0; subst q0; clear Hq0.

Ltac solve_incl :=
  repeat first [ assumption
               | apply attachIfAny_incl
               | apply attachImages_incl
               | break_if
               | progress qsimp
               | intros ? [] ].

Lemma p1_step_images images st para :
  p1_current (fun q => incl (pq_images q) images) st ->
  p1_current (fun q => incl (pq_images q) images) (Part1.step images st para).
Proof.
  unfold p1_current. intros HI.
  unfold Part1.step, Part1.continuation, Part1.fallThrough. cbv zeta.
  destruct (Part1.currentQ st) as [q|] eqn:Hcur; [specialize (HI q eq_refl)|];
    current_cases Hcur; solve_incl.
Qed.

Lemma p2_step_images images st para :
  p2_current (fun q => incl (pq_images q) images) st ->
  p2_current (fun q => incl (pq_images q) images) (Part2.step images st para).
Proof.
  unfold p2_current. intros HI.
  unfold Part2.step, Part2.continuation, Part2.fallThrough. cbv zeta.
  destruct (Part2.currentQ st) as [q|] eqn:Hcur; [specialize (HI q eq_refl)|];
    current_cases Hcur; solve_incl.
Qed.

Lemma p3_step_images images st para :
  p3_current (fun q => incl (pq_images q) images) st ->
  p3_current (fun q => incl (pq_images q) images) (Part3.step images st para).
Proof.
  unfold p3_current. intros HI.
  unfold Part3.step, Part3.fallThrough. cbv zeta.
  destruct (Part3.currentQ st) as [q|] eqn:Hcur; [specialize (HI q eq_refl)|];
    current_cases Hcur; solve_incl.
Qed.

(** X6.  Every image of a question of the exam is an asset of the list handed
    to [parseAllQuestions]. *)
Theorem parsed_images_come_from_assets (paragraphs : list ParagraphData)
  (images : list ImageData) :
  Forall (fun q => incl (q_images q) images) (questions (parseAllQuestions paragraphs images)).
Proof.
  rewrite parseAllQuestions_questions. apply Forall_map. cbn [convertToQuestion q_images].
  repeat (apply Forall_app; split).
  - apply (@p1_closed_invariant images _ (p1_current (fun q => incl (pq_images q) images))).
    + intros st para. apply p1_step_images.
    + intros st q HI Hcur _. specialize (HI q Hcur). cbv beta in HI.
      unfold Part1.closeQuestion, Part1.inferAnswer. solve_incl.
      all: repeat break_match; solve_incl.
    + intros q H. discriminate.
  - apply (@p2_closed_invariant images _ (p2_current (fun q => incl (pq_images q) images))).
    + intros st para. apply p2_step_images.
    + intros st q HI Hcur _. specialize (HI q Hcur). cbv beta in HI.
      unfold Part2.closeQuestion, Part2.inferAnswer. solve_incl.
    + intros q H. discriminate.
  - apply (@p3_closed_invariant images _ (p3_current (fun q => incl (pq_images q) images))).
    + intros st para. apply p3_step_images.
    + intros st q HI Hcur _. specialize (HI q Hcur). cbv beta in HI.
      unfold Part3.closeQuestion. solve_incl.
    + intros q H. discriminate.
Qed.

(** ** Letters of options, statements and answers *)

(** The letter of an explicit answer line, uppercased, is one of A, B, C, D. *)
Lemma answer_letter (t : jsstring) (cs : caps) :
  jsmatch true Part1.answerPattern t = Some cs ->
  In (toUpperCase (capText 1 cs)) choiceLetters.
Proof.
  intros H. apply jsmatch_sound in H.
  destruct H as (start & s0 & stop & rest & H).
  unfold Part1.answerPattern in H. cbn [seqs lit utf8] in H. split_seq.
  match goal with H : matches _ (Grp 1 _) _ _ _ _ _ _ |- _ => inv H end.
  match goal with H : matches _ (Cls _) _ _ _ _ _ _ |- _ => inv H end.
  drop_nocap. unfold capText. cbn [cap Nat.eqb].
  match goal with
  | |- context [(S ?p - ?p)%nat] => replace (S p - p)%nat with 1%nat by lia
  end.
  cbn [firstn]. apply letter_class_upper; assumption.
Qed.

Lemma choice_attachIfAny q rIds images :
  choiceQuestion q -> choiceQuestion (attachIfAny q rIds images).
Proof.
  unfold choiceQuestion, lettered, answeredAmong.
  rewrite attachIfAny_options, attachIfAny_answer. auto.
Qed.

Lemma choice_new qNum part ty : choiceQuestion (newQuestion qNum part ty).
Proof.
  split; [constructor | intros a H; discriminate].
Qed.

Lemma p1_step_choice images st para :
  p1_current choiceQuestion st -> p1_current choiceQuestion (Part1.step images st para).
Proof.
  unfold p1_current. intros HI. unfold Part1.step. cbv zeta.
  destruct (isEmpty (para_text para) && negb (nonEmptyList (para_imageRIds para)));
    [exact HI|].
  destruct (Part1.isSectionHeader (para_text para)); [exact HI|].
  destruct (isQuestionLine (para_text para)) as [qMatch|].
  { intros q0 Hq0. cbn in Hq0. inv Hq0. apply choice_attachIfAny, choice_new. }
  destruct (Part1.currentQ st) as [q|] eqn:Hcur; [|intros q0 Hq0; congruence].
  specialize (HI q eq_refl). destruct HI as [Hopts Hans].
  destruct (isSolutionMarker (para_text para)).
  { intros q0 Hq0. cbn in Hq0. inv Hq0. break_if; split; assumption. }
  destruct (jsmatch true Part1.answerPattern (para_text para)) as [chonMatch|] eqn:Hchon.
  { intros q0 Hq0. cbn in Hq0. inv Hq0. split; [exact Hopts|].
    intros a Ha. cbn in Ha. inv Ha. eapply answer_letter; exact Hchon. }
  destruct (if Part1.collectingContent st
            then jsmatch true Part1.optionPattern (para_text para) else None)
    as [optMatch|] eqn:Hopt.
  { destruct (Part1.collectingContent st); [|discriminate].
    intros q0 Hq0. cbn in Hq0. inv Hq0. split; [|break_if; exact Hans].
    unfold lettered. qsimp. apply Forall_app. split.
    - break_if; exact Hopts.
    - constructor; [|constructor]. cbn [opt_letter]. eapply option_letter; exact Hopt. }
  break_if.
  - unfold Part1.continuation. cbv zeta. intros q0 Hq0. cbn in Hq0. inv Hq0.
    apply choice_attachIfAny. break_if; [split; assumption|].
    split; [|exact Hans]. unfold lettered. qsimp.
    apply (@appendToOption_letters (fun x => In x choiceLetters)). exact Hopts.
  - unfold Part1.fallThrough. cbv zeta.
    repeat break_if; intros q0 Hq0; cbn in Hq0; rewrite ?Hcur in Hq0; inv Hq0;
      try (split; assumption);
      try (apply choice_attachIfAny; split; assumption);
      (split; [exact Hopts | exact Hans]).
Qed.

Lemma p1_close_choice st q : choiceQuestion q -> choiceQuestion (Part1.closeQuestion st q).
Proof.
  intros [Hopts Hans]. unfold Part1.closeQuestion, Part1.inferAnswer. cbv zeta.
  assert (G : forall q1, pq_options q1 = pq_options q ->
                         pq_correctAnswer q1 = pq_correctAnswer q -> choiceQuestion q1).
  { intros q1 E1 E2. unfold choiceQuestion, lettered, answeredAmong. rewrite E1, E2. auto. }
  repeat first [break_if | break_match]; try (apply G; reflexivity).
  all: split; [exact Hopts|]; intros a Ha; cbn in Ha; inv Ha.
  all: match goal with
       | H : find Part1.isSingleLetter _ = Some _ |- _ =>
           apply find_some in H; destruct H as [_ H]; apply singleLetter_inv in H;
           destruct H as (c & -> & Hc); apply letter_class_upper; exact Hc
       end.
Qed.

(** X7.  Every choice of a question of section 1 is labelled A, B, C or D, and
    its answer, when it has one, is one of these four letters. *)
Theorem section1_letters (paragraphs : list ParagraphData) (startIdx endIdx : Z)
  (images : list ImageData) :
  Forall choiceQuestion (Part1.parsePart1WithUnderline paragraphs startIdx endIdx images).
Proof.
  apply (@p1_closed_invariant images _ (p1_current choiceQuestion)).
  - intros st para. apply p1_step_choice.
  - intros st q HI Hcur _. apply p1_close_choice. apply HI. exact Hcur.
  - intros q H. discriminate.
Qed.

(** X8.  Every statement of a question of section 2 is labelled a, b, c or d. *)
Theorem section2_letters (paragraphs : list ParagraphData) (startIdx endIdx : Z)
  (images : list ImageData) :
  Forall (lettered statementLetters) (Part2.parsePart2 paragraphs startIdx endIdx images).
Proof.
  apply (@p2_closed_invariant images _ p2_Good).
  - intros st para. apply p2_step_good.
  - intros st q HG Hcur _. destruct HG as (_ & _ & _ & Hc). destruct (Hc q Hcur) as (_ & Ho & _).
    unfold lettered, Part2.closeQuestion, Part2.inferAnswer. cbv zeta.
    repeat break_if; exact Ho.
  - apply p2_init_good.
Qed.

(** ** Explicit answers *)

Lemma p1_close_keeps_answer st q a :
  pq_correctAnswer q = Some a -> a <> [] ->
  pq_correctAnswer (Part1.closeQuestion st q) = Some a.
Proof.
  intros H Ha. unfold Part1.closeQuestion, Part1.inferAnswer. cbv zeta.
  assert (T : forall q1, pq_correctAnswer q1 = Some a -> truthyOpt (pq_correctAnswer q1) = true).
  { intros q1 E. rewrite E. destruct a; [congruence | reflexivity]. }
  repeat match goal with
         | |- context [if nonEmptyList ?b && isEmpty ?c then _ else _] =>
             destruct (nonEmptyList b && isEmpty c)
         | |- context [if nonEmptyList ?b then setSolution _ _ else _] =>
             destruct (nonEmptyList b)
         end;
    (rewrite T; [cbn [negb andb]; qsimp; exact H | qsimp; exact H]).
Qed.

Lemma p1_step_keeps_answer images st q para a :
  Part1.currentQ st = Some q -> pq_correctAnswer q = Some a ->
  isQuestionLine (para_text para) = None ->
  jsmatch true Part1.answerPattern (para_text para) = None ->
  exists q1, Part1.currentQ (Part1.step images st para) = Some q1
             /\ pq_correctAnswer q1 = Some a.
Proof.
  intros Hcur Ha Hq Hchon. unfold Part1.step. cbv zeta. rewrite Hq, Hcur, Hchon.
  unfold Part1.continuation, Part1.fallThrough. cbv zeta.
  repeat first [break_if | break_match];
    (eexists; split;
     [ cbn [Part1.currentQ Part1.withCurrentQ Part1.withLetters Part1.withContentBuffer
            Part1.withSolutionBuffer]; first [reflexivity | exact Hcur]
     | rewrite ?attachIfAny_answer; qsimp; exact Ha ]).
Qed.

Lemma p1_run_keeps_answer images a body : forall st q,
  Part1.currentQ st = Some q -> pq_correctAnswer q = Some a ->
  Forall (fun p => isQuestionLine (para_text p) = None
                   /\ jsmatch true Part1.answerPattern (para_text p) = None) body ->
  exists q1, Part1.currentQ (Part1.run images st body) = Some q1
             /\ pq_correctAnswer q1 = Some a.
Proof.
  unfold Part1.run. induction body as [|para body IH]; intros st q Hcur Ha Hb; cbn [fold_left].
  - exists q. auto.
  - inversion Hb as [|? ? [Hq Hchon] Hrest]; subst.
    destruct (@p1_step_keeps_answer images st q para a Hcur Ha Hq Hchon) as (q1 & Hc1 & Ha1).
    eapply IH; eassumption.
Qed.

Lemma choiceLetter_nonempty x : In x choiceLetters -> x <> [].
Proof.
  intros [<- | [<- | [<- | [<- | []]]]]; discriminate.
Qed.

(** X9.  An explicit answer line decides the answer of the question in progress:
    whatever is underlined before or after it, the question is closed with
    the letter of the line, as long as no other answer line follows. *)
Theorem explicit_answer_overrides_underline (images : list ImageData) (st : Part1.State)
  (q : ParsedQuestion) (para : ParagraphData) (cs : caps) (body : list ParagraphData) :
  Part1.currentQ st = Some q ->
  Part1.isSectionHeader (para_text para) = false ->
  isQuestionLine (para_text para) = None ->
  isSolutionMarker (para_text para) = false ->
  jsmatch true Part1.answerPattern (para_text para) = Some cs ->
  Forall (fun p => isQuestionLine (para_text p) = None
                   /\ jsmatch true Part1.answerPattern (para_text p) = None) body ->
  let st1 := Part1.run images (Part1.step images st para) body in
  exists q1, Part1.currentQ st1 = Some q1
             /\ pq_correctAnswer (Part1.closeQuestion st1 q1)
                = Some (toUpperCase (capText 1 cs))
             /\ In (toUpperCase (capText 1 cs)) choiceLetters.
Proof.
  intros Hcur Hhdr Hq Hsol Hchon Hbody st1.
  assert (Hne : isEmpty (para_text para) = false).
  { destruct (para_text para); [vm_compute in Hchon; discriminate | reflexivity]. }
  assert (Hstep : exists q0, Part1.currentQ (Part1.step images st para) = Some q0
                             /\ pq_correctAnswer q0 = Some (toUpperCase (capText 1 cs))).
  { unfold Part1.step. cbv zeta. rewrite Hne, Hhdr, Hq, Hcur, Hsol, Hchon. cbn [andb].
    eexists. split; reflexivity. }
  destruct Hstep as (q0 & Hc0 & Ha0).
  destruct (@p1_run_keeps_answer images _ body _ q0 Hc0 Ha0 Hbody) as (q1 & Hc1 & Ha1).
  pose proof (answer_letter _ Hchon) as Hin.
  exists q1. split; [exact Hc1|]. split; [|exact Hin].
  apply p1_close_keeps_answer; [exact Ha1|]. apply choiceLetter_nonempty. exact Hin.
Qed.

(** X9, witness. *)
Lemma explicit_answer_witness :
  exists q1,
    Part1.currentQ (Part1.run [] (Part1.step [] (Part1.step [] Part1.init (plain "Câu 1. x"))
                                    (plain "Chọn B"))
                      [underlined "A. 3"; plain "B. 4"]) = Some q1
    /\ pq_correctAnswer
         (Part1.closeQuestion
            (Part1.run [] (Part1.step [] (Part1.step [] Part1.init (plain "Câu 1. x"))
                             (plain "Chọn B"))
               [underlined "A. 3"; plain "B. 4"]) q1)
       = Some (toUpperCase (capText 1 [(1%nat, utf8 "B")]))
    /\ In (toUpperCase (capText 1 [(1%nat, utf8 "B")])) choiceLetters.
Proof.
  apply (@explicit_answer_overrides_underline [] (Part1.step [] Part1.init (plain "Câu 1. x"))
           (newQuestion 1 1 multiple_choice) (plain "Chọn B") [(1%nat, utf8 "B")]
           [underlined "A. 3"; plain "B. 4"]).
  - vm_compute. reflexivity.
  - vm_compute. reflexivity.
  - vm_compute. reflexivity.
  - vm_compute. reflexivity.
  - vm_compute. reflexivity.
  - repeat constructor.
Defined.

(** ** The sections and the answer key of the exam *)

Lemma parsers_sorted (paragraphs : list ParagraphData) (startIdx endIdx : Z)
  (images : list ImageData) :
  StronglySorted numberLe (Part1.parsePart1WithUnderline paragraphs startIdx endIdx images)
  /\ StronglySorted numberLe (Part2.parsePart2 paragraphs startIdx endIdx images)
  /\ StronglySorted numberLe (Part3.parsePart3 paragraphs startIdx endIdx images).
Proof.
  unfold Part1.parsePart1WithUnderline, Part2.parsePart2, Part3.parsePart3.
  repeat split; break_if; try constructor; apply sortByNumber_sorted.
Qed.

Lemma sorted_convert (part : Z) (l : list ParsedQuestion) :
  Forall (fun pq => pq_part pq = part) l -> StronglySorted numberLe l ->
  StronglySorted questionLe (map (fun pq => convertToQuestion pq 0) l).
Proof.
  intros Hp Hs. induction Hs as [|x l Hs IH Hall]; cbn [map]; [constructor|].
  inversion Hp; subst. constructor; [apply IH; assumption|].
  apply Forall_map. rewrite Forall_forall in *. intros y Hy.
  unfold questionLe, numberLe in *. cbn [convertToQuestion q_number].
  specialize (Hall y Hy). rewrite (H2 y Hy). lia.
Qed.

Lemma parseAllQuestions_sections paragraphs images :
  let info := detectSections (join [10] (map para_text paragraphs)) paragraphs in
  let l1 := Part1.parsePart1WithUnderline paragraphs (part1Start info) (part2Start info)
              images in
  let l2 := Part2.parsePart2 paragraphs (part2Start info) (part3Start info) images in
  let l3 := Part3.parsePart3 paragraphs (part3Start info)
              (Z.of_nat (List.length paragraphs)) images in
  exists n1 d1 n2 d2 n3 d3,
  sections (parseAllQuestions paragraphs images)
  = (if nonEmptyList l1
     then [{| s_name := n1; s_description := d1; s_points := [];
              s_questions := map (fun pq => convertToQuestion pq 0) l1;
              s_sectionType := multiple_choice |}] else [])
    ++ (if nonEmptyList l2
        then [{| s_name := n2; s_description := d2; s_points := [];
                 s_questions := map (fun pq => convertToQuestion pq 0) l2;
                 s_sectionType := true_false |}] else [])
    ++ (if nonEmptyList l3
        then [{| s_name := n3; s_description := d3; s_points := [];
                 s_questions := map (fun pq => convertToQuestion pq 0) l3;
                 s_sectionType := short_answer |}] else []).
Proof.
  cbv zeta. unfold parseAllQuestions. do 6 eexists.
  rewrite !assemblePart_sections. cbn [sections examData app].
  rewrite <- app_assoc. reflexivity.
Qed.

(** X10.  The sections of the exam partition its questions: the question list is
    the concatenation of the sections' lists; a section is present only
    with at least one question; the sections come in the order multiple
    choice, true/false, short answer, each at most once; the questions of
    a section have the type of the section and are in the order of their
    final numbers. *)
Theorem exam_sections_partition (paragraphs : list ParagraphData) (images : list ImageData) :
  let exam := parseAllQuestions paragraphs images in
  questions exam = List.concat (map s_questions (sections exam))
  /\ Forall (fun s => s_questions s <> []) (sections exam)
  /\ sublist (map s_sectionType (sections exam)) sectionTypes
  /\ Forall (fun s => Forall (fun q => q_type q = s_sectionType s) (s_questions s))
       (sections exam)
  /\ Forall (fun s => StronglySorted questionLe (s_questions s)) (sections exam).
Proof.
  cbv zeta.
  destruct (parseAllQuestions_sections paragraphs images)
    as (n1 & d1 & n2 & d2 & n3 & d3 & Hs).
  pose proof (parseAllQuestions_questions paragraphs images) as Hq.
  cbv zeta in Hs, Hq. rewrite Hs, Hq. clear Hs Hq.
  set (info := detectSections _ paragraphs).
  set (l1 := Part1.parsePart1WithUnderline _ _ _ _).
  set (l2 := Part2.parsePart2 _ _ _ _).
  set (l3 := Part3.parsePart3 _ _ _ _).
  assert (H1 : Forall (authored paragraphs 1 multiple_choice) l1).
  { apply p1_parse_stable; [apply authored_stable | apply authored_opens]. }
  assert (H2 : Forall (authored paragraphs 2 true_false) l2).
  { apply p2_parse_stable; [apply authored_stable | apply authored_opens]. }
  assert (H3 : Forall (authored paragraphs 3 short_answer) l3).
  { apply p3_parse_stable; [apply authored_stable | apply authored_opens]. }
  assert (S1 : StronglySorted numberLe l1) by apply parsers_sorted.
  assert (S2 : StronglySorted numberLe l2) by apply parsers_sorted.
  assert (S3 : StronglySorted numberLe l3) by apply parsers_sorted.
  assert (T : forall part ty l, Forall (authored paragraphs part ty) l ->
                Forall (fun q => q_type q = ty) (map (fun pq => convertToQuestion pq 0) l)).
  { intros part ty l H. apply Forall_map. eapply Forall_impl; [|exact H].
    intros pq (_ & Hty & _). exact Hty. }
  assert (P : forall part ty l, Forall (authored paragraphs part ty) l ->
                Forall (fun pq => pq_part pq = part) l).
  { intros part ty l H. eapply Forall_impl; [|exact H]. intros pq (Hp & _). exact Hp. }
  pose proof (T _ _ _ H1) as T1. pose proof (T _ _ _ H2) as T2. pose proof (T _ _ _ H3) as T3.
  pose proof (sorted_convert (P _ _ _ H1) S1) as Q1.
  pose proof (sorted_convert (P _ _ _ H2) S2) as Q2.
  pose proof (sorted_convert (P _ _ _ H3) S3) as Q3.
  clearbody l1 l2 l3. clear H1 H2 H3 S1 S2 S3 T P.
  assert (C : forall n d ty (l : list ParsedQuestion),
            List.concat (map s_questions
              (if nonEmptyList l
               then [{| s_name := n; s_description := d; s_points := [];
                        s_questions := map (fun pq => convertToQuestion pq 0) l;
                        s_sectionType := ty |}] else []))
            = map (fun pq => convertToQuestion pq 0) l).
  { intros n d ty [|x l]; cbn; rewrite ?app_nil_r; reflexivity. }
  assert (F : forall (Q : Section -> Prop) n d ty (l : list ParsedQuestion),
            (l <> [] -> Q {| s_name := n; s_description := d; s_points := [];
                             s_questions := map (fun pq => convertToQuestion pq 0) l;
                             s_sectionType := ty |}) ->
            Forall Q (if nonEmptyList l
                      then [{| s_name := n; s_description := d; s_points := [];
                               s_questions := map (fun pq => convertToQuestion pq 0) l;
                               s_sectionType := ty |}] else [])).
  { intros Q n d ty [|x l] H; cbn [nonEmptyList]; constructor; [|constructor].
    apply H. discriminate. }
  split; [|split; [|split; [|split]]].
  - rewrite !map_app, !concat_app, !C. reflexivity.
  - repeat (apply Forall_app; split); apply F; cbn [s_questions];
      intros H E; apply map_eq_nil in E; contradiction.
  - unfold sectionTypes.
    destruct l1 as [|a1 l1]; destruct l2 as [|a2 l2]; destruct l3 as [|a3 l3];
      cbn [nonEmptyList app map s_sectionType];
      repeat first [apply sublist_keep | apply sublist_skip | apply sublist_nil].
  - repeat (apply Forall_app; split); apply F; cbn [s_questions s_sectionType];
      intros _; assumption.
  - repeat (apply Forall_app; split); apply F; cbn [s_questions]; intros _; assumption.
Qed.

Lemma getAnswer_setAnswer k v m k1 :
  getAnswer k1 (setAnswer k v m) = if (k =? k1)%Z then Some v else getAnswer k1 m.
Proof.
  induction m as [|[k0 v0] m IH]; cbn [setAnswer getAnswer].
  - reflexivity.
  - destruct (k0 =? k)%Z eqn:E; cbn [getAnswer].
    + assert (k0 = k) by lia. subst. destruct (k =? k1)%Z; reflexivity.
    + destruct (k0 =? k1)%Z eqn:E1; [|exact IH].
      assert (Hk : (k =? k1)%Z = false) by lia. rewrite Hk. reflexivity.
Qed.

Lemma recordAnswer_unkeyed qs : forall m, fold_left (recordAnswer false) qs m = m.
Proof.
  induction qs as [|q qs IH]; intros m; cbn [fold_left]; [reflexivity|].
  rewrite IH. unfold recordAnswer. cbn. destruct (q_correctAnswer q); reflexivity.
Qed.

Lemma recorded_sound qs : forall m k a,
  getAnswer k (fold_left (recordAnswer true) qs m) = Some a ->
  getAnswer k m = Some a
  \/ exists q, In q qs /\ q_number q = k /\ q_correctAnswer q = Some a /\ a <> [].
Proof.
  induction qs as [|q qs IH]; intros m k a H; cbn [fold_left] in H; [auto|].
  apply IH in H. destruct H as [H | (q1 & Hin & H)].
  - unfold recordAnswer in H. cbn [pushQuestion answers andb] in H.
    destruct (q_correctAnswer q) as [a1|] eqn:Ea; [|auto].
    destruct (truthy a1) eqn:Et; [|auto].
    rewrite getAnswer_setAnswer in H. destruct (q_number q =? k)%Z eqn:Ek; [|auto].
    inv H. right. exists q. repeat split; [left; reflexivity | lia | exact Ea |].
    intros ->. discriminate.
  - right. exists q1. split; [right; exact Hin | exact H].
Qed.

Lemma recorded_grows qs : forall m k,
  getAnswer k m <> None -> getAnswer k (fold_left (recordAnswer true) qs m) <> None.
Proof.
  induction qs as [|q qs IH]; intros m k H; cbn [fold_left]; [exact H|].
  apply IH. unfold recordAnswer. cbn [pushQuestion answers andb].
  destruct (q_correctAnswer q) as [a1|]; [|exact H].
  destruct (truthy a1); [|exact H].
  rewrite getAnswer_setAnswer. destruct (q_number q =? k)%Z; [discriminate | exact H].
Qed.

Lemma recorded_complete qs : forall m q a,
  In q qs -> q_correctAnswer q = Some a -> a <> [] ->
  getAnswer (q_number q) (fold_left (recordAnswer true) qs m) <> None.
Proof.
  induction qs as [|q0 qs IH]; intros m q a Hin Ha Hne; [destruct Hin|].
  cbn [fold_left]. destruct Hin as [-> | Hin]; [|eapply IH; eassumption].
  apply recorded_grows. unfold recordAnswer. cbn [pushQuestion answers andb].
  rewrite Ha. destruct a as [|c a]; [congruence|]. cbn [truthy isEmpty negb].
  rewrite getAnswer_setAnswer, Z.eqb_refl. discriminate.
Qed.

Lemma sectionLoop_answers keyed pqs : forall gi ed sq,
  let '(gi1, ed1, sq1) := fold_left (sectionLoopBody keyed) pqs (gi, ed, sq) in
  answers ed1
  = fold_left (recordAnswer keyed) (map (fun pq => convertToQuestion pq 0) pqs) (answers ed).
Proof.
  induction pqs as [|pq pqs IH]; intros gi ed sq; cbn [fold_left map]; [reflexivity|].
  cbn [sectionLoopBody].
  specialize (IH (gi + 1)%Z (pushQuestion keyed ed (convertToQuestion pq gi))
                (sq ++ [convertToQuestion pq gi])).
  destruct (fold_left (sectionLoopBody keyed) pqs _) as [[gi1 ed1] sq1].
  rewrite IH. reflexivity.
Qed.

Lemma assemblePart_answers keyed name description ty pqs a :
  answers (examData (assemblePart keyed name description ty pqs a))
  = fold_left (recordAnswer keyed) (map (fun pq => convertToQuestion pq 0) pqs)
      (answers (examData a)).
Proof.
  unfold assemblePart. destruct pqs as [|pq pqs]; cbn [nonEmptyList]; [reflexivity|].
  pose proof (sectionLoop_answers keyed (pq :: pqs) (globalIndex a) (examData a) []) as H.
  destruct (fold_left (sectionLoopBody keyed) (pq :: pqs) _) as [[gi1 ed1] sq1].
  cbn [examData pushSection answers]. exact H.
Qed.

(** X11.  The answer key holds the answers of sections 1 and 3 and nothing else:
    every entry is the non-empty answer of a question of the exam with that
    number, of a type other than true/false; every such question with a
    non-empty answer has an entry under its number. *)
Theorem answer_key_of_keyed_sections (paragraphs : list ParagraphData)
  (images : list ImageData) :
  let exam := parseAllQuestions paragraphs images in
  (forall k a, getAnswer k (answers exam) = Some a ->
     exists q, In q (questions exam) /\ q_number q = k /\ q_correctAnswer q = Some a
               /\ a <> [] /\ q_type q <> true_false)
  /\ (forall q a, In q (questions exam) -> q_type q <> true_false ->
        q_correctAnswer q = Some a -> a <> [] ->
        getAnswer (q_number q) (answers exam) <> None).
Proof.
  cbv zeta.
  pose proof (parseAllQuestions_questions paragraphs images) as Hq. cbv zeta in Hq.
  rewrite Hq. clear Hq.
  unfold parseAllQuestions. rewrite !assemblePart_answers. cbn [examData answers].
  rewrite recordAnswer_unkeyed.
  set (info := detectSections _ paragraphs).
  set (l1 := Part1.parsePart1WithUnderline _ _ _ _).
  set (l2 := Part2.parsePart2 _ _ _ _).
  set (l3 := Part3.parsePart3 _ _ _ _).
  assert (H1 : Forall (authored paragraphs 1 multiple_choice) l1).
  { apply p1_parse_stable; [apply authored_stable | apply authored_opens]. }
  assert (H2 : Forall (authored paragraphs 2 true_false) l2).
  { apply p2_parse_stable; [apply authored_stable | apply authored_opens]. }
  assert (H3 : Forall (authored paragraphs 3 short_answer) l3).
  { apply p3_parse_stable; [apply authored_stable | apply authored_opens]. }
  rewrite Forall_forall in H1, H2, H3.
  rewrite !map_app. split.
  - intros k a H. apply recorded_sound in H. destruct H as [H | (q & Hin & Hk & Ha & Hne)].
    + apply recorded_sound in H. destruct H as [H | (q & Hin & Hk & Ha & Hne)];
        [discriminate|].
      exists q. split; [apply in_or_app; left; exact Hin|]. repeat split; try assumption.
      apply in_map_iff in Hin. destruct Hin as (pq & <- & Hpq).
      destruct (H1 pq Hpq) as (_ & Hty & _). cbn [convertToQuestion q_type]. rewrite Hty.
      discriminate.
    + exists q. split; [apply in_or_app; right; apply in_or_app; right; exact Hin|].
      repeat split; try assumption.
      apply in_map_iff in Hin. destruct Hin as (pq & <- & Hpq).
      destruct (H3 pq Hpq) as (_ & Hty & _). cbn [convertToQuestion q_type]. rewrite Hty.
      discriminate.
  - intros q a Hin Hty Ha Hne.
    apply in_app_or in Hin. destruct Hin as [Hin | Hin].
    + apply recorded_grows. eapply recorded_complete; eassumption.
    + apply in_app_or in Hin. destruct Hin as [Hin | Hin].
      * exfalso. apply Hty. apply in_map_iff in Hin. destruct Hin as (pq & <- & Hpq).
        destruct (H2 pq Hpq) as (_ & Hty2 & _). exact Hty2.
      * eapply recorded_complete; eassumption.
Qed.

(** ** Trimmed texts *)

Lemma trimStart_head s :
  match trimStart s with
  | [] => True
  | c :: _ => isSpace c = false
  end.
Proof.
  induction s as [|c s IH]; cbn [trimStart]; [exact I|].
  destruct (isSpace c) eqn:E; [exact IH | exact E].
Qed.

Lemma trimStart_snoc l c : isSpace c = false -> trimStart (l ++ [c]) = trimStart l ++ [c].
Proof.
  intros Hc. induction l as [|x l IH]; cbn [trimStart app].
  - rewrite Hc. reflexivity.
  - destruct (isSpace x); [exact IH | reflexivity].
Qed.

Lemma trimStart_fixed c s : isSpace c = false -> trimStart (c :: s) = c :: s.
Proof.
  intros Hc. cbn [trimStart]. rewrite Hc. reflexivity.
Qed.

Lemma trim_trimmed s : trimmed (trim s).
Proof.
  unfold trim, trimEnd. pose proof (trimStart_head s) as H.
  destruct (trimStart s) as [|c t]; [exact I|].
  cbn [rev]. rewrite trimStart_snoc by exact H. rewrite rev_app_distr. cbn [rev app].
  split; [exact H|].
  pose proof (trimStart_head (rev t)) as H1.
  destruct (trimStart (rev t)) as [|x r]; cbn [rev]; [exact H|].
  change (c :: (rev r ++ [x])) with ((c :: rev r) ++ [x]). rewrite last_last. exact H1.
Qed.

Lemma trim_fixed s : trimmed s -> trim s = s.
Proof.
  destruct s as [|c t]; [reflexivity|]. intros [Hc Hl].
  unfold trim, trimEnd. rewrite (trimStart_fixed c t Hc).
  destruct (rev (c :: t)) as [|x r] eqn:E.
  - apply (f_equal (@List.length N)) in E. rewrite length_rev in E. discriminate.
  - assert (Es : c :: t = rev r ++ [x]).
    { rewrite <- (rev_involutive (c :: t)), E. reflexivity. }
    rewrite Es, last_last in Hl. rewrite (trimStart_fixed x r Hl), <- E.
    apply rev_involutive.
Qed.

(** [trim] is idempotent. *)
Lemma trim_idempotent s : trim (trim s) = trim s.
Proof.
  apply trim_fixed, trim_trimmed.
Qed.

Lemma tidy_attachIfAny q rIds images : tidy q -> tidy (attachIfAny q rIds images).
Proof.
  unfold attachIfAny. destruct (nonEmptyList rIds); auto.
Qed.

Lemma tidy_new qNum part ty : tidy (newQuestion qNum part ty).
Proof.
  repeat split. constructor.
Qed.

Lemma tidy_setText q b : tidy q -> tidy (setText q (joinTrim b)).
Proof.
  intros (H1 & H2 & H3). repeat split; try assumption. apply trim_trimmed.
Qed.

Lemma tidy_setSolution q b : tidy q -> tidy (setSolution q (joinTrim b)).
Proof.
  intros (H1 & H2 & H3). repeat split; try assumption. apply trim_trimmed.
Qed.

Lemma tidy_setCorrectAnswer q a : tidy q -> tidy (setCorrectAnswer q a).
Proof.
  intros H. exact H.
Qed.

Lemma tidy_push q letter t :
  tidy q -> tidy (setOptions q (pq_options q ++ [{| opt_letter := letter; opt_text := trim t |}])).
Proof.
  intros (H1 & H2 & H3). repeat split; try assumption. qsimp.
  apply Forall_app. split; [exact H2|]. constructor; [|constructor]. apply trim_trimmed.
Qed.

Lemma appendToOption_trimmed opts : forall i text,
  Forall (fun o => trimmed (opt_text o)) opts ->
  Forall (fun o => trimmed (opt_text o)) (Part1.appendToOption opts i text).
Proof.
  induction opts as [|o opts IH]; intros i text H; cbn [Part1.appendToOption]; [constructor|].
  inversion H; subst. destruct i as [|i].
  - constructor; [apply trim_trimmed | assumption].
  - constructor; [assumption | apply IH; assumption].
Qed.

Lemma tidy_append q i text :
  tidy q -> tidy (setOptions q (Part1.appendToOption (pq_options q) i text)).
Proof.
  intros (H1 & H2 & H3). repeat split; try assumption. qsimp.
  apply appendToOption_trimmed. exact H2.
Qed.

Ltac tidy_step Hcur HI :=
  repeat first [break_if | break_match];
  intros q0 Hq0; cbn in Hq0; rewrite ?Hcur in Hq0; inversion Hq0; subst q0; clear Hq0;
  repeat first [ exact HI
               | apply tidy_attachIfAny
               | apply tidy_new
               | apply tidy_setText
               | apply tidy_setSolution
               | apply tidy_setCorrectAnswer
               | apply tidy_append
               | apply (@tidy_attachIfAny _ (_ :: _))
               | break_if ].

Lemma p1_step_tidy images st para :
  p1_current tidy st -> p1_current tidy (Part1.step images st para).
Proof.
  unfold p1_current. intros HI.
  unfold Part1.step, Part1.continuation, Part1.fallThrough. cbv zeta.
  destruct (Part1.currentQ st) as [q|] eqn:Hcur; [specialize (HI q eq_refl)|].
  - tidy_step Hcur HI.
    all: try (apply (@tidy_push (setText q _)); apply tidy_setText; exact HI).
    all: try (apply tidy_push; exact HI).
    all: try (apply (@tidy_attachIfAny q (_ :: _)); exact HI).
  - repeat first [break_if | break_match]; intros q0 Hq0; cbn in Hq0;
      rewrite ?Hcur in Hq0; inversion Hq0; subst q0;
      apply tidy_attachIfAny, tidy_new.
Qed.

Lemma p2_step_tidy images st para :
  p2_current tidy st -> p2_current tidy (Part2.step images st para).
Proof.
  unfold p2_current. intros HI.
  unfold Part2.step, Part2.continuation, Part2.fallThrough. cbv zeta.
  destruct (Part2.currentQ st) as [q|] eqn:Hcur; [specialize (HI q eq_refl)|].
  - tidy_step Hcur HI.
    all: try (apply (@tidy_push (setText q _)); apply tidy_setText; exact HI).
    all: try (apply tidy_push; exact HI).
    all: try (apply (@tidy_attachIfAny q (_ :: _)); exact HI).
  - repeat first [break_if | break_match]; intros q0 Hq0; cbn in Hq0;
      rewrite ?Hcur in Hq0; inversion Hq0; subst q0;
      apply tidy_attachIfAny, tidy_new.
Qed.

Lemma p3_step_tidy images st para :
  p3_current tidy st -> p3_current tidy (Part3.step images st para).
Proof.
  unfold p3_current. intros HI.
  unfold Part3.step, Part3.fallThrough. cbv zeta.
  destruct (Part3.currentQ st) as [q|] eqn:Hcur; [specialize (HI q eq_refl)|].
  - tidy_step Hcur HI.
  - repeat first [break_if | break_match]; intros q0 Hq0; cbn in Hq0;
      rewrite ?Hcur in Hq0; inversion Hq0; subst q0;
      apply tidy_attachIfAny, tidy_new.
Qed.

Ltac tidy_close HI :=
  cbv zeta;
  repeat first [ exact HI
               | apply tidy_setText
               | apply tidy_setSolution
               | apply tidy_setCorrectAnswer
               | break_if
               | break_match ].

(** X12.  No text of a parsed question starts or ends with white space: the stem,
    the text of every option or statement, and the solution are trimmed. *)
Theorem parsed_texts_trimmed (paragraphs : list ParagraphData) (startIdx endIdx : Z)
  (images : list ImageData) :
  Forall tidy (Part1.parsePart1WithUnderline paragraphs startIdx endIdx images)
  /\ Forall tidy (Part2.parsePart2 paragraphs startIdx endIdx images)
  /\ Forall tidy (Part3.parsePart3 paragraphs startIdx endIdx images).
Proof.
  repeat split.
  - apply (@p1_closed_invariant images _ (p1_current tidy)).
    + intros st para. apply p1_step_tidy.
    + intros st q HI Hcur _. specialize (HI q Hcur).
      unfold Part1.closeQuestion, Part1.inferAnswer. tidy_close HI.
    + intros q H. discriminate.
  - apply (@p2_closed_invariant images _ (p2_current tidy)).
    + intros st para. apply p2_step_tidy.
    + intros st q HI Hcur _. specialize (HI q Hcur).
      unfold Part2.closeQuestion, Part2.inferAnswer. tidy_close HI.
    + intros q H. discriminate.
  - apply (@p3_closed_invariant images _ (p3_current tidy)).
    + intros st para. apply p3_step_tidy.
    + intros st q HI Hcur _. specialize (HI q Hcur).
      unfold Part3.closeQuestion. tidy_close HI.
    + intros q H. discriminate.
Qed.

Lemma shortAnswer_attachIfAny ps q rIds images :
  shortAnswerQuestion ps q -> shortAnswerQuestion ps (attachIfAny q rIds images).
Proof.
  unfold shortAnswerQuestion. rewrite attachIfAny_options, attachIfAny_answer. auto.
Qed.

Lemma p3_step_shortAnswer images ps st para :
  In para ps ->
  p3_current (shortAnswerQuestion ps) st ->
  p3_current (shortAnswerQuestion ps) (Part3.step images st para).
Proof.
  unfold p3_current. intros Hin HI.
  unfold Part3.step, Part3.fallThrough. cbv zeta.
  destruct (Part3.currentQ st) as [q|] eqn:Hcur; [specialize (HI q eq_refl)|];
    repeat first [break_if | break_match];
    intros q0 Hq0; cbn in Hq0; rewrite ?Hcur in Hq0; inversion Hq0; subst q0; clear Hq0;
    try apply shortAnswer_attachIfAny; try exact HI;
    try (split; [reflexivity | intros a Ha; discriminate]).
  all: split; [apply HI|]; intros a Ha; cbn in Ha; inversion Ha;
    (split; [apply trim_trimmed|]); eexists para, _; repeat split; eassumption.
Qed.

(** An invariant of the loop of section 3 that the step keeps on the
    paragraphs of the slice holds of every question returned. *)
Lemma p3_closed_invariant_on images (C : ParsedQuestion -> Prop) (I : Part3.State -> Prop)
  paragraphs startIdx endIdx :
  (forall st para, In para (slice paragraphs startIdx endIdx) -> I st ->
                   I (Part3.step images st para)) ->
  (forall st q, I st -> Part3.currentQ st = Some q ->
                truthy (pq_text (Part3.closeQuestion st q)) = true ->
                C (Part3.closeQuestion st q)) ->
  I Part3.init ->
  Forall C (Part3.parsePart3 paragraphs startIdx endIdx images).
Proof.
  intros Hstep Hclose Hinit.
  assert (Hflush : forall st, I st -> Forall C (Part3.questions st) -> Forall C (Part3.flush st)).
  { intros st HI Hq. unfold Part3.flush. destruct (Part3.currentQ st) as [q|] eqn:E; [|exact Hq].
    destruct (truthy _) eqn:Et; [|exact Hq]. apply Forall_app. split; [exact Hq|].
    constructor; [|constructor]. apply Hclose; assumption. }
  assert (Hrun : forall ps st,
            (forall para, In para ps -> In para (slice paragraphs startIdx endIdx)) ->
            I st -> Forall C (Part3.questions st) ->
            I (Part3.run images st ps) /\ Forall C (Part3.questions (Part3.run images st ps))).
  { unfold Part3.run. induction ps as [|para ps IH]; intros st Hsub HI Hq; cbn [fold_left];
      [auto|].
    apply IH; [intros p Hp; apply Hsub; right; exact Hp
              | apply Hstep; [apply Hsub; left; reflexivity | exact HI] |].
    destruct (p3_questions_step images st para) as [-> | ->]; auto. }
  unfold Part3.parsePart3. break_if; [constructor|].
  apply Forall_forall. intros q Hq. rewrite In_sortByNumber in Hq. revert q Hq.
  apply Forall_forall.
  destruct (Hrun (slice paragraphs startIdx endIdx) Part3.init (fun _ H => H) Hinit
              (Forall_nil _)).
  apply Hflush; assumption.
Qed.

(** X13.  A question of section 3 has no option, and its answer, when it has one,
    is the trimmed capture of an answer line: some paragraph of the section,
    between [startIdx] and [endIdx], matches the answer pattern, and the
    answer is what follows the label on that line, trimmed. *)
Theorem section3_shape (paragraphs : list ParagraphData) (startIdx endIdx : Z)
  (images : list ImageData) :
  Forall (shortAnswerQuestion (slice paragraphs startIdx endIdx))
    (Part3.parsePart3 paragraphs startIdx endIdx images).
Proof.
  apply (@p3_closed_invariant_on images _
           (p3_current (shortAnswerQuestion (slice paragraphs startIdx endIdx)))).
  - intros st para Hin. apply p3_step_shortAnswer. exact Hin.
  - intros st q HI Hcur _. specialize (HI q Hcur).
    unfold Part3.closeQuestion. cbv zeta. repeat break_if; exact HI.
  - intros q H. discriminate.
Qed.

(** ** Escaping a text without mathematics *)

Lemma getSubstitution_plain m cs matched before after t :
  Forall (fun x => x <> 36) t -> getSubstitution m cs matched before after t = t.
Proof.
  induction t as [|c t IH]; intros H; cbn [getSubstitution]; [reflexivity|].
  inversion H; subst. replace (c =? 36) with false by lia. cbn [negb].
  rewrite IH by assumption. reflexivity.
Qed.

Lemma searchFrom_chr_none c s : forall pos,
  Forall (fun x => x <> c) s -> searchFrom false (Chr c) pos s = None.
Proof.
  induction s as [|x s IH]; intros pos H; cbn [searchFrom rmatch]; [reflexivity|].
  inversion H; subst. unfold chrMatches. replace (c =? x) with false by lia.
  apply IH. assumption.
Qed.

Lemma searchFrom_chr_some c pre rest : forall pos,
  Forall (fun x => x <> c) pre ->
  searchFrom false (Chr c) pos (pre ++ c :: rest)
  = Some ((pos + List.length pre)%nat, (S (pos + List.length pre), rest, [])).
Proof.
  induction pre as [|x pre IH]; intros pos H; cbn [searchFrom rmatch app List.length].
  - unfold chrMatches. rewrite N.eqb_refl. unfold ret. rewrite Nat.add_0_r. reflexivity.
  - inversion H; subst. unfold chrMatches. replace (c =? x) with false by lia.
    rewrite IH by assumption.
    replace (S pos + List.length pre)%nat with (pos + S (List.length pre))%nat by lia.
    reflexivity.
Qed.

Lemma first_occurrence (c : N) (s : jsstring) :
  Forall (fun x => x <> c) s
  \/ exists pre rest, s = pre ++ c :: rest /\ Forall (fun x => x <> c) pre.
Proof.
  induction s as [|x s IH]; [left; constructor|].
  destruct (N.eq_dec x c) as [-> | Hx].
  - right. exists [], s. split; [reflexivity | constructor].
  - destruct IH as [H | (pre & rest & -> & H)].
    + left. constructor; assumption.
    + right. exists (x :: pre), rest. split; [reflexivity | constructor; assumption].
Qed.

Lemma flat_map_replaceUnit_none c template s :
  Forall (fun x => x <> c) s -> flat_map (replaceUnit c template) s = s.
Proof.
  induction s as [|x s IH]; intros H; cbn [flat_map]; [reflexivity|].
  inversion H; subst. unfold replaceUnit at 1. replace (x =? c) with false by lia.
  rewrite IH by assumption. reflexivity.
Qed.

(** A global replacement of one code unit by a template without [$]
    replaces every occurrence, and nothing else. *)
Lemma replaceAll_chr c template s :
  Forall (fun x => x <> 36) template ->
  replaceAll false (Chr c) template s = flat_map (replaceUnit c template) s.
Proof.
  intros Ht. unfold replaceAll.
  assert (G : forall whole fuel t pos, (List.length t < fuel)%nat ->
    snd (replaceFrom false (Chr c)
           (fun (_ : unit) cs matched before after =>
              (tt, getSubstitution (ngroups (Chr c)) cs matched before after template))
           whole fuel tt pos t)
    = flat_map (replaceUnit c template) t).
  { intros whole. induction fuel as [|fuel IH]; intros t pos Hf; [lia|].
    rewrite replaceFrom_S.
    destruct (first_occurrence c t) as [H | (pre & rest & -> & H)].
    - rewrite searchFrom_chr_none by exact H. cbn [snd].
      rewrite flat_map_replaceUnit_none by exact H. reflexivity.
    - rewrite searchFrom_chr_some by exact H. cbv zeta.
      rewrite getSubstitution_plain by exact Ht.
      replace (Nat.eqb (S (pos + List.length pre)) (pos + List.length pre)) with false
        by (symmetry; apply Nat.eqb_neq; lia).
      rewrite length_app in Hf. cbn [List.length] in Hf.
      specialize (IH rest (S (pos + List.length pre)) ltac:(lia)).
      destruct (replaceFrom _ _ _ _ fuel tt _ rest) as [u out]. cbn [snd] in *.
      replace (pos + List.length pre - pos)%nat with (List.length pre) by lia.
      rewrite firstn_app, Nat.sub_diag, firstn_all. cbn [firstn]. rewrite app_nil_r.
      rewrite flat_map_app, flat_map_replaceUnit_none by exact H.
      cbn [flat_map]. unfold replaceUnit at 1. rewrite N.eqb_refl, IH. reflexivity. }
  apply G. lia.
Qed.

Lemma searchFrom_block_none s : forall pos,
  Forall (fun x => x <> 36) s -> searchFrom false blockRegionPattern pos s = None.
Proof.
  induction s as [|x s IH]; intros pos H; cbn [searchFrom]; [reflexivity|].
  inversion H; subst.
  assert (E : rmatch false blockRegionPattern ret pos (x :: s) [] = None).
  { unfold blockRegionPattern. cbn [seqs lit utf8 rmatch]. unfold chrMatches.
    cbn -[N.eqb]. replace (36 =? x) with false by lia. reflexivity. }
  rewrite E. apply IH. assumption.
Qed.

Lemma searchFrom_inline_none s : forall pos,
  Forall (fun x => x <> 36) s -> searchFrom false inlineRegionPattern pos s = None.
Proof.
  induction s as [|x s IH]; intros pos H; cbn [searchFrom]; [reflexivity|].
  inversion H; subst.
  assert (E : rmatch false inlineRegionPattern ret pos (x :: s) [] = None).
  { unfold inlineRegionPattern. cbn [seqs rmatch]. unfold chrMatches.
    replace (36 =? x) with false by lia. reflexivity. }
  rewrite E. apply IH. assumption.
Qed.

Lemma escape_units s :
  flat_map (replaceUnit 62 (utf8 "&gt;"))
    (flat_map (replaceUnit 60 (utf8 "&lt;")) (flat_map (replaceUnit 38 (utf8 "&amp;")) s))
  = flat_map escapeUnit s.
Proof.
  induction s as [|x s IH]; [reflexivity|].
  cbn [flat_map]. rewrite !flat_map_app, IH. f_equal.
  unfold replaceUnit at 3. unfold escapeUnit.
  destruct (x =? 38) eqn:E38; [reflexivity|].
  cbn [flat_map]. unfold replaceUnit at 2. destruct (x =? 60) eqn:E60; [reflexivity|].
  cbn [flat_map app]. unfold replaceUnit. destruct (x =? 62) eqn:E62; reflexivity.
Qed.

Lemma escapeUnit_safe x : Forall (fun c => c <> 60 /\ c <> 62) (escapeUnit x).
Proof.
  unfold escapeUnit.
  destruct (x =? 38) eqn:E38; [repeat constructor; discriminate|].
  destruct (x =? 60) eqn:E60; [repeat constructor; discriminate|].
  destruct (x =? 62) eqn:E62; [repeat constructor; discriminate|].
  repeat constructor; lia.
Qed.

(** X14.  On a text without [$], [escapeHtmlPreserveLaTeX] escapes every code
    unit on its own: [&], [<] and [>] become their entities, once, and
    every other unit is kept; the result holds no [<] and no [>]. *)
Theorem escapeHtml_without_math (text : jsstring) :
  Forall (fun c => c <> 36) text ->
  escapeHtmlPreserveLaTeX text = flat_map escapeUnit text
  /\ Forall (fun c => c <> 60 /\ c <> 62) (escapeHtmlPreserveLaTeX text).
Proof.
  intros H.
  assert (E : escapeHtmlPreserveLaTeX text = flat_map escapeUnit text).
  { unfold escapeHtmlPreserveLaTeX. destruct text as [|c t]; [reflexivity|].
    unfold replaceWith. rewrite !replaceFrom_S.
    rewrite searchFrom_block_none by exact H. rewrite replaceFrom_S.
    rewrite searchFrom_inline_none by exact H.
    rewrite !replaceAll_chr by (repeat constructor; discriminate).
    cbn [restoreBlocks]. apply escape_units. }
  split; [exact E|]. rewrite E.
  clear. induction text as [|x s IH]; cbn [flat_map]; [constructor|].
  apply Forall_app. split; [apply escapeUnit_safe | exact IH].
Qed.

(** X14, witness. *)
Lemma escapeHtml_without_math_witness :
  escapeHtmlPreserveLaTeX (utf8 "a<b & c>d") = flat_map escapeUnit (utf8 "a<b & c>d")
  /\ Forall (fun c => c <> 60 /\ c <> 62) (escapeHtmlPreserveLaTeX (utf8 "a<b & c>d")).
Proof.
  apply (@escapeHtml_without_math (utf8 "a<b & c>d")).
  repeat constructor; discriminate.
Defined.

(** ** Paragraph extraction *)

(** Induction on the document tree. *)
Lemma Node_induction (P : Node -> Prop) :
  (forall name attributes children,
      Forall P children -> P (Element name attributes children)) ->
  (forall data, P (TextNode data)) ->
  (forall data, P (CommentNode data)) ->
  forall n, P n.
Proof.
  intros HE HT HC. fix IH 1. intros [name attributes children | data | data].
  - apply HE. induction children as [|c children IHc]; constructor; [apply IH | exact IHc].
  - apply HT.
  - apply HC.
Qed.

Lemma descendants_trans (n : Node) : forall d b,
  In d (descendants n) -> In b (descendants d) -> In b (descendants n).
Proof.
  induction n as [name attributes children IH | data | data] using Node_induction;
    intros d b Hd Hb; cbn [descendants] in *; try contradiction.
  apply in_flat_map in Hd. destruct Hd as (c & Hc & Hd). apply in_flat_map.
  exists c. split; [exact Hc|]. right.
  destruct Hd as [<- | Hd]; [exact Hb|].
  rewrite Forall_forall in IH. eapply IH; eassumption.
Qed.

(** The elements found under an element found under [n] are found under
    [n]. *)
Lemma getElementsByTagName_trans n d b t1 t2 :
  In d (getElementsByTagName n t1) -> In b (getElementsByTagName d t2) ->
  In b (getElementsByTagName n t2).
Proof.
  unfold getElementsByTagName. rewrite !filter_In. intros [Hd _] [Hb Hn].
  split; [eapply descendants_trans; eassumption | exact Hn].
Qed.

Lemma pushIfAny_keeps ids v x : In x ids -> In x (pushIfAny ids v).
Proof.
  intros H. unfold pushIfAny. destruct v as [s|]; [|exact H].
  destruct (truthy s); [apply in_or_app; left|]; exact H.
Qed.

Lemma pushLoop_keeps (f : Node -> option jsstring) nodes : forall ids x,
  In x ids -> In x (fold_left (fun ids n => pushIfAny ids (f n)) nodes ids).
Proof.
  induction nodes as [|n nodes IH]; intros ids x H; cbn [fold_left]; [exact H|].
  apply IH, pushIfAny_keeps, H.
Qed.

Lemma pushLoop_holds (f : Node -> option jsstring) nodes : forall ids n e,
  In n nodes -> f n = Some e -> truthy e = true ->
  In e (fold_left (fun ids n => pushIfAny ids (f n)) nodes ids).
Proof.
  induction nodes as [|n0 nodes IH]; intros ids n e Hn He Ht; [destruct Hn|].
  cbn [fold_left]. destruct Hn as [-> | Hn]; [|eapply IH; eassumption].
  apply pushLoop_keeps. unfold pushIfAny. rewrite He, Ht. apply in_or_app. right. left.
  reflexivity.
Qed.

Lemma includesString_In ids e : In e ids -> includesString ids e = true.
Proof.
  intros H. unfold includesString. apply existsb_exists. exists e. split; [exact H|].
  apply jsstring_eqb_eq. reflexivity.
Qed.

Lemma innerLoop_noop blips : forall ids,
  (forall b e, In b blips -> getAttribute b (utf8 "r:embed") = Some e -> truthy e = true ->
               In e ids) ->
  fold_left pushInnerBlip blips ids = ids.
Proof.
  induction blips as [|b blips IH]; intros ids H; cbn [fold_left]; [reflexivity|].
  assert (E : pushInnerBlip ids b = ids).
  { unfold pushInnerBlip. destruct (getAttribute b (utf8 "r:embed")) as [e|] eqn:Ee;
      [|reflexivity].
    destruct (truthy e) eqn:Et; [|reflexivity].
    rewrite (includesString_In _ _ (H b e (or_introl eq_refl) Ee Et)). reflexivity. }
  rewrite E. apply IH. intros b0 e Hb. apply H. right. exact Hb.
Qed.

Lemma drawingLoop_noop (imageRIds : list jsstring) (run : Node) :
  drawingLoop (vmlLoop (blipLoop imageRIds run) run) run
  = vmlLoop (blipLoop imageRIds run) run.
Proof.
  unfold drawingLoop.
  assert (G : forall drawings ids,
    (forall d, In d drawings -> In d (getElementsByTagName run (utf8 "w:drawing"))) ->
    (forall b e, In b (getElementsByTagName run (utf8 "a:blip")) ->
                 getAttribute b (utf8 "r:embed") = Some e -> truthy e = true -> In e ids) ->
    fold_left (fun ids drawing =>
                 fold_left pushInnerBlip (getElementsByTagName drawing (utf8 "a:blip")) ids)
      drawings ids = ids).
  { induction drawings as [|d drawings IH]; intros ids Hd H; cbn [fold_left]; [reflexivity|].
    rewrite innerLoop_noop.
    - apply IH; [intros d0 H0; apply Hd; right; exact H0 | exact H].
    - intros b e Hb. apply H. eapply getElementsByTagName_trans; [|exact Hb].
      apply Hd. left. reflexivity. }
  apply G; [auto|].
  intros b e Hb He Ht. unfold vmlLoop. apply pushLoop_keeps.
  unfold blipLoop.
  apply (@pushLoop_holds (fun blip => getAttribute blip (utf8 "r:embed")) _ imageRIds b e);
    assumption.
Qed.

(** A match of the underline mark consumes at least one unit and captures
    one letter. *)
Lemma markdown_match start s0 stop rest cs :
  matches false markdownUnderlinePattern start s0 [] stop rest cs ->
  (start < stop)%nat
  /\ exists x, capText 1 cs = [x] /\ clsMatches false [(65, 68); (97, 100)] x = true.
Proof.
  intros H. unfold markdownUnderlinePattern in H. cbn [seqs] in H.
  inv H.
  match goal with Hc : matches _ (Chr 91) _ _ _ _ _ _ |- _ => inv Hc end.
  match goal with Hc : matches _ (Seq (Grp _ _) _) _ _ _ _ _ _ |- _ => inv Hc end.
  match goal with Hc : matches _ (Grp _ _) _ _ _ _ _ _ |- _ => inv Hc end.
  match goal with Hc : matches _ (Cls _) _ _ _ _ _ _ |- _ => inv Hc end.
  match goal with
  | Hc : matches _ (Seq (Chr 93) _) _ _ _ _ _ _ |- _ =>
      pose proof (matches_span Hc) as (m & _ & ->);
      apply matches_nocap in Hc; [subst cs | reflexivity]
  end.
  split; [lia|]. eexists. split; [|eassumption].
  unfold capText. cbn [cap Nat.eqb].
  match goal with
  | |- context [(S ?p - ?p)%nat] => replace (S p - p)%nat with 1%nat by lia
  end.
  reflexivity.
Qed.

Lemma execLoop_sound r fuel : forall pos s cs,
  In cs (execLoop r fuel pos s) ->
  exists start s0 stop rest, matches false r start s0 [] stop rest cs.
Proof.
  induction fuel as [|fuel IH]; intros pos s cs H; cbn [execLoop] in H; [destruct H|].
  destruct (searchFrom false r pos s) as [[start [[stop rest] cs0]]|] eqn:E; [|destruct H].
  destruct H as [<- | H]; [|eapply IH; exact H].
  apply searchFrom_sound in E. destruct E as (s0 & Hm). eauto.
Qed.

(** The fuel [execAll] gives is never exhausted when every match consumes
    a unit. *)
Lemma execLoop_fuel r :
  (forall start s0 stop rest cs,
      matches false r start s0 [] stop rest cs -> (start < stop)%nat) ->
  forall fuel pos s, (List.length s < fuel)%nat ->
                     execLoop r (S fuel) pos s = execLoop r fuel pos s.
Proof.
  intros Hr. induction fuel as [|fuel IH]; intros pos s Hf; [lia|].
  change (execLoop r (S (S fuel)) pos s)
    with (match searchFrom false r pos s with
          | None => []
          | Some (_, (stop, rest, cs)) => cs :: execLoop r (S fuel) stop rest
          end).
  change (execLoop r (S fuel) pos s)
    with (match searchFrom false r pos s with
          | None => []
          | Some (_, (stop, rest, cs)) => cs :: execLoop r fuel stop rest
          end).
  destruct (searchFrom false r pos s) as [[start [[stop rest] cs]]|] eqn:E; [|reflexivity].
  apply searchFrom_suffix in E. destruct E as (pre & m & -> & -> & -> & Hm).
  apply Hr in Hm. rewrite !length_app in Hf. rewrite IH by lia. reflexivity.
Qed.

Lemma execAll_markdown_fuel (s : jsstring) (extra : nat) :
  execLoop markdownUnderlinePattern (S (List.length s) + extra) 0 s
  = execAll markdownUnderlinePattern s.
Proof.
  unfold execAll. induction extra as [|extra IH].
  - rewrite Nat.add_0_r. reflexivity.
  - rewrite <- IH. replace (S (List.length s) + S extra)%nat
      with (S (S (List.length s) + extra)) by lia.
    apply execLoop_fuel; [|lia].
    intros start s0 stop rest cs H. apply markdown_match in H. apply H.
Qed.

Lemma letter_not_space x :
  clsMatches false [(65, 68); (97, 100)] x = true -> isSpace x = false.
Proof.
  unfold clsMatches, in_ranges, isSpace, in_ranges, ws_ranges. cbn [existsb fst snd].
  intros H. lia.
Qed.

Lemma markdown_segments s :
  Forall (fun seg => seg <> [] /\ trimmed seg)
    (map (capText 1) (execAll markdownUnderlinePattern s)).
Proof.
  apply Forall_map. apply Forall_forall. intros cs Hcs.
  apply execLoop_sound in Hcs. destruct Hcs as (start & s0 & stop & rest & Hm).
  apply markdown_match in Hm. destruct Hm as (_ & x & -> & Hx).
  split; [discriminate|]. cbn [trimmed last]. split; apply letter_not_space; exact Hx.
Qed.

Lemma pushIfAny_app ids v : pushIfAny ids v = ids ++ pushIfAny [] v.
Proof.
  unfold pushIfAny. destruct v as [s|]; [|rewrite app_nil_r; reflexivity].
  destruct (truthy s); [reflexivity | rewrite app_nil_r; reflexivity].
Qed.

Lemma pushLoop_app (f : Node -> option jsstring) nodes : forall ids,
  fold_left (fun ids n => pushIfAny ids (f n)) nodes ids
  = ids ++ fold_left (fun ids n => pushIfAny ids (f n)) nodes [].
Proof.
  induction nodes as [|n nodes IH]; intros ids; cbn [fold_left].
  - rewrite app_nil_r. reflexivity.
  - rewrite IH, (IH (pushIfAny [] (f n))), (pushIfAny_app ids), app_assoc. reflexivity.
Qed.

Lemma pushLoop_nonempty (f : Node -> option jsstring) nodes : forall ids,
  Forall (fun id => id <> []) ids ->
  Forall (fun id => id <> []) (fold_left (fun ids n => pushIfAny ids (f n)) nodes ids).
Proof.
  induction nodes as [|n nodes IH]; intros ids H; cbn [fold_left]; [exact H|].
  apply IH. unfold pushIfAny. destruct (f n) as [s|]; [|exact H].
  destruct s as [|c s]; [exact H|]. cbn [truthy isEmpty negb].
  apply Forall_app. split; [exact H|]. constructor; [discriminate | constructor].
Qed.

Lemma runStep_imageRIds st run :
  rs_imageRIds (runStep st run) = rs_imageRIds st ++ runImageIds run.
Proof.
  unfold runStep. cbn [rs_imageRIds]. rewrite drawingLoop_noop.
  unfold runImageIds, vmlLoop, blipLoop.
  rewrite pushLoop_app, (pushLoop_app _ _ (rs_imageRIds st)).
  rewrite (pushLoop_app _ _ (fold_left _ _ [])), app_assoc. reflexivity.
Qed.

Lemma runs_imageRIds runs : forall st,
  rs_imageRIds (fold_left runStep runs st) = rs_imageRIds st ++ flat_map runImageIds runs.
Proof.
  induction runs as [|run runs IH]; intros st; cbn [fold_left flat_map].
  - rewrite app_nil_r. reflexivity.
  - rewrite IH, runStep_imageRIds, app_assoc. reflexivity.
Qed.

Lemma runStep_inv st run : runsInv st -> runsInv (runStep st run).
Proof.
  intros (Hu & Hs & Hi). unfold runsInv. rewrite runStep_imageRIds.
  unfold runStep. cbn [rs_hasUnderline rs_underlinedSegments].
  destruct (isUnderlinedRun run && truthy (trim (runTextOf run))) eqn:E.
  - apply andb_true_iff in E. destruct E as [_ E].
    split; [|split].
    + split; [intros _ Hnil; apply app_eq_nil in Hnil; destruct Hnil; discriminate
             | reflexivity].
    + apply Forall_app. split; [exact Hs|]. constructor; [|constructor].
      split; [|apply trim_trimmed]. intros Hnil. rewrite Hnil in E. discriminate.
    + apply Forall_app. split; [exact Hi|].
      unfold runImageIds, vmlLoop, blipLoop. apply pushLoop_nonempty, pushLoop_nonempty.
      constructor.
  - split; [exact Hu|]. split; [exact Hs|].
    apply Forall_app. split; [exact Hi|].
    unfold runImageIds, vmlLoop, blipLoop. apply pushLoop_nonempty, pushLoop_nonempty.
    constructor.
Qed.

Lemma runs_inv runs : forall st, runsInv st -> runsInv (fold_left runStep runs st).
Proof.
  induction runs as [|run runs IH]; intros st H; cbn [fold_left]; [exact H|].
  apply IH, runStep_inv, H.
Qed.

Section ExtractionFacts.
Variable nfc : jsstring -> jsstring.

Lemma extractParagraph_shape p para :
  extractParagraph nfc p = Some para ->
  wellFormedParagraph para
  /\ para_imageRIds para = flat_map runImageIds (getElementsByTagName p (utf8 "w:r")).
Proof.
  unfold extractParagraph. cbv zeta.
  set (st0 := {| rs_text := []; rs_imageRIds := []; rs_hasUnderline := false;
                 rs_underlinedSegments := [] |}).
  assert (H0 : runsInv st0).
  { unfold runsInv, st0. cbn. repeat split; try constructor; try discriminate.
    intros H; contradiction. }
  pose proof (runs_inv (getElementsByTagName p (utf8 "w:r")) H0) as (Hu & Hs & Hi).
  pose proof (runs_imageRIds (getElementsByTagName p (utf8 "w:r")) st0) as Hids.
  set (st := fold_left runStep _ st0) in *.
  set (text0 := normalizeLatex (normalizeVietnamese nfc (trim (rs_text st)))).
  pose proof (markdown_segments text0) as Hmd.
  destruct (truthy _ || nonEmptyList (rs_imageRIds st)) eqn:E; [|discriminate].
  intros H. inversion H; subst para; clear H. split; [|exact Hids].
  unfold wellFormedParagraph. cbn [para_text para_imageRIds para_hasUnderline
                                     para_underlinedSegments].
  split; [|split; [|split; [|split]]].
  - unfold truthy in E.
    destruct (isEmpty _); destruct (nonEmptyList (rs_imageRIds st)); cbn in *; congruence.
  - apply trim_trimmed.
  - destruct (execAll markdownUnderlinePattern text0) as [|cs marks] eqn:Em;
      cbn [nonEmptyList map].
    + rewrite app_nil_r. exact Hu.
    + split; [intros _ Hnil; apply app_eq_nil in Hnil; destruct Hnil; discriminate
             | reflexivity].
  - apply Forall_app. split; [exact Hs | exact Hmd].
  - exact Hi.
Qed.

(** X15.  Every record of [extractParagraphsWithUnderline] is well formed: it has
    a text or an image id, its text is trimmed, its underline flag is set
    exactly when it has an underlined segment, no segment is empty or
    untrimmed, and no image id is empty. *)
Theorem extracted_paragraphs_well_formed (xmlDoc : list Node)
  (imageRelMap : list (jsstring * jsstring)) :
  Forall wellFormedParagraph (extractParagraphsWithUnderline nfc xmlDoc imageRelMap).
Proof.
  unfold extractParagraphsWithUnderline. apply Forall_forall. intros para Hin.
  apply in_flat_map in Hin. destruct Hin as (p & _ & Hp).
  destruct (extractParagraph nfc p) as [para0|] eqn:E; [|destruct Hp].
  destruct Hp as [<- | []]. apply (extractParagraph_shape p E).
Qed.

(** X16.  The loop over the [w:drawing] elements of a run never adds an id: the
    [a:blip] elements under a drawing of the run are among those of the
    run, whose ids the first loop has pushed.  The image ids of a paragraph
    are those of the [a:blip] and [v:imagedata] elements of its runs, run by
    run, repetitions included. *)
Theorem drawing_loop_adds_nothing (imageRIds : list jsstring) (run p : Node)
  (para : ParagraphData) :
  drawingLoop (vmlLoop (blipLoop imageRIds run) run) run
  = vmlLoop (blipLoop imageRIds run) run
  /\ (extractParagraph nfc p = Some para ->
      para_imageRIds para = flat_map runImageIds (getElementsByTagName p (utf8 "w:r"))).
Proof.
  split; [apply drawingLoop_noop|]. intros H. apply (extractParagraph_shape p H).
Qed.

End ExtractionFacts.

(** ** Decimal rendering *)

Lemma parseInt_app (ds : jsstring) : forall z,
  fold_left (fun acc c => acc * 10 + (Z.of_N c - 48))%Z ds z
  = (z * 10 ^ Z.of_nat (List.length ds) + parseInt ds)%Z.
Proof.
  unfold parseInt.
  induction ds as [|d ds IH] using rev_ind; intros z; cbn [fold_left List.length].
  - cbn. lia.
  - rewrite !fold_left_app. cbn [fold_left]. rewrite IH, length_app. cbn [List.length].
    rewrite Nat2Z.inj_add, Z.pow_add_r by lia. cbn [Z.of_nat Z.pow Z.pow_pos Pos.iter].
    lia.
Qed.

Lemma digitsOf_value (fuel : nat) : forall n acc,
  n < 2 ^ N.of_nat fuel ->
  exists ds, digitsOf fuel n acc = ds ++ acc /\ parseInt ds = Z.of_N n
             /\ Forall (fun c => isDigitUnit c = true) ds.
Proof.
  induction fuel as [|fuel IH]; intros n acc Hn; cbn [digitsOf].
  - exists []. cbn in *. split; [reflexivity|]. split; [lia | constructor].
  - cbv zeta. destruct (n <? 10) eqn:E.
    + exists [48 + n mod 10]. split; [reflexivity|].
      assert (Hm : n mod 10 = n) by (apply N.mod_small; lia).
      rewrite Hm. unfold parseInt. cbn [fold_left].
      split; [lia|]. constructor; [|constructor]. unfold isDigitUnit. lia.
    + assert (Hd : n / 10 < 2 ^ N.of_nat fuel).
      { rewrite Nat2N.inj_succ, N.pow_succ_r' in Hn.
        apply N.Div0.div_lt_upper_bound. lia. }
      destruct (IH (n / 10) ((48 + n mod 10) :: acc) Hd) as (ds & -> & Hv & Hall).
      exists (ds ++ [48 + n mod 10]). rewrite <- app_assoc. split; [reflexivity|].
      assert (Hm : n mod 10 < 10) by (apply N.mod_lt; lia).
      split.
      * unfold parseInt. rewrite fold_left_app. cbn [fold_left].
        fold (parseInt ds). rewrite Hv.
        pose proof (N.div_mod' n 10) as H. clear - H Hm. lia.
      * apply Forall_app. split; [exact Hall|]. constructor; [|constructor].
        unfold isDigitUnit. set (r := n mod 10) in *. clearbody r. clear - Hm. lia.
Qed.

(** Rendering a number in decimal and reading it back gives the number. *)
Lemma parseInt_stringOfN (n : N) :
  parseInt (stringOfN n) = Z.of_N n /\ Forall (fun c => isDigitUnit c = true) (stringOfN n).
Proof.
  unfold stringOfN.
  destruct (@digitsOf_value (S (N.to_nat (N.log2 n))) n []) as (ds & E & Hv & Hall).
  - rewrite Nat2N.inj_succ, N2Nat.id.
    destruct n as [|p]; [cbn; lia|]. apply N.log2_spec. lia.
  - rewrite E, app_nil_r. auto.
Qed.

Lemma stringOfN_inj (a b : N) : stringOfN a = stringOfN b -> a = b.
Proof.
  intros H. pose proof (proj1 (parseInt_stringOfN a)) as Ha.
  pose proof (proj1 (parseInt_stringOfN b)) as Hb. rewrite H in Ha. lia.
Qed.

(** ** Image extraction *)

Lemma entryLoop_images m entries : forall images,
  entryLoop m entries images
  = images ++ imagesFrom m (List.length images) (loadedMedia entries).
Proof.
  induction entries as [|e entries IH]; intros images; cbn [entryLoop loadedMedia].
  - cbn. rewrite app_nil_r. reflexivity.
  - destruct (isMediaEntry e); [|apply IH].
    destruct (ze_base64 e) as [data|]; [|cbn; rewrite app_nil_r; reflexivity].
    rewrite IH, length_app, <- app_assoc. cbn [List.length imagesFrom app].
    rewrite Nat.add_1_r. reflexivity.
Qed.

Lemma imagesFrom_ids m files : forall count,
  map x_id (imagesFrom m count files) = map imageId (seq count (List.length files)).
Proof.
  induction files as [|[path data] files IH]; intros count; cbn [imagesFrom map List.length seq].
  - reflexivity.
  - rewrite IH. reflexivity.
Qed.

Lemma imagesFrom_length m files : forall count,
  List.length (imagesFrom m count files) = List.length files.
Proof.
  induction files as [|[path data] files IH]; intros count; cbn [imagesFrom List.length].
  - reflexivity.
  - rewrite IH. reflexivity.
Qed.

Lemma imagesFrom_files m files : forall count,
  map (fun x => (x_filename x, x_base64 x)) (imagesFrom m count files)
  = map (fun pd => (lastSegment 47 (fst pd), snd pd)) files.
Proof.
  induction files as [|[path data] files IH]; intros count; cbn [imagesFrom map fst snd].
  - reflexivity.
  - rewrite IH. reflexivity.
Qed.

Lemma imagesFrom_fields m files : forall count,
  Forall (fun x => x_rId x = relationshipOf m (x_filename x)
                   /\ x_contentType x
                      = contentTypeOf (toLowerCase (lastSegment 46 (x_filename x))))
    (imagesFrom m count files).
Proof.
  induction files as [|[path data] files IH]; intros count; cbn [imagesFrom]; constructor.
  - split; reflexivity.
  - apply IH.
Qed.

Lemma imageId_inj i j : imageId i = imageId j -> i = j.
Proof.
  unfold imageId. intros H. apply app_inv_head in H. apply stringOfN_inj in H. lia.
Qed.

Lemma NoDup_imageIds count len : NoDup (map imageId (seq count len)).
Proof.
  revert count. induction len as [|len IH]; intros count; cbn [seq map]; constructor.
  - intros Hin. apply in_map_iff in Hin. destruct Hin as (j & Hj & Hin).
    apply imageId_inj in Hj. apply in_seq in Hin. lia.
  - apply IH.
Qed.

(** X17.  [extractImages] numbers the images it returns from 0, in the order of
    the entries: the identifiers are [img_0], [img_1], ... and pairwise
    distinct, so two returned images with the same identifier are the same
    image.  The images are those of the media entries read before the first
    read that rejects, with the last segment of the path as file name; none
    is returned when the read of the relationship file rejects.  Each
    carries the first relationship id recorded for its file name, or the
    empty string, and the content type its extension selects. *)
Theorem extractImages_assets (relsContent : option Read) (entries : list ZipEntry) :
  let images := fst (extractImages relsContent entries) in
  let imageRelMap := snd (extractImages relsContent entries) in
  map x_id images = map imageId (seq 0 (List.length images))
  /\ NoDup (map x_id images)
  /\ (forall a b, In a images -> In b images -> x_id a = x_id b -> a = b)
  /\ map (fun x => (x_filename x, x_base64 x)) images
     = (if match relsContent with Some Rejected => true | _ => false end then []
        else map (fun pd => (lastSegment 47 (fst pd), snd pd)) (loadedMedia entries))
  /\ Forall (fun x => x_rId x = relationshipOf imageRelMap (x_filename x)
                      /\ x_contentType x
                         = contentTypeOf (toLowerCase (lastSegment 46 (x_filename x))))
       images.
Proof.
  cbv zeta.
  assert (G : forall m,
    let images := entryLoop m entries [] in
    map x_id images = map imageId (seq 0 (List.length images))
    /\ NoDup (map x_id images)
    /\ (forall a b, In a images -> In b images -> x_id a = x_id b -> a = b)
    /\ map (fun x => (x_filename x, x_base64 x)) images
       = map (fun pd => (lastSegment 47 (fst pd), snd pd)) (loadedMedia entries)
    /\ Forall (fun x => x_rId x = relationshipOf m (x_filename x)
                        /\ x_contentType x
                           = contentTypeOf (toLowerCase (lastSegment 46 (x_filename x))))
         images).
  { intros m. cbv zeta. rewrite entryLoop_images. cbn [app List.length].
    assert (Hids : map x_id (imagesFrom m 0 (loadedMedia entries))
                   = map imageId (seq 0 (List.length (imagesFrom m 0 (loadedMedia entries))))).
    { rewrite imagesFrom_length. apply imagesFrom_ids. }
    assert (Hnd : NoDup (map x_id (imagesFrom m 0 (loadedMedia entries)))).
    { rewrite Hids. apply NoDup_imageIds. }
    split; [exact Hids|]. split; [exact Hnd|]. split; [|split].
    - intros a b Ha Hb Hab.
      apply (In_nth _ _ a) in Ha. destruct Ha as (i & Hi & Hai).
      apply (In_nth _ _ a) in Hb. destruct Hb as (j & Hj & Hbj).
      assert (Hij : i = j).
      { rewrite NoDup_nth in Hnd. apply Hnd; rewrite ?length_map; try assumption.
        rewrite !(map_nth x_id). rewrite Hai, Hbj. exact Hab. }
      subst j. congruence.
    - apply imagesFrom_files.
    - apply imagesFrom_fields. }
  destruct relsContent as [[content|]|]; cbn [extractImages fst snd].
  - apply G.
  - cbn [map List.length seq]. split; [reflexivity|]. split; [constructor|].
    split; [intros a b []|]. split; [reflexivity | constructor].
  - apply G.
Qed.

Lemma matches_chr_first ic c r1 r2 p s cs p2 s2 cs2 :
  matches ic (Seq (Seq (Chr c) r1) r2) p s cs p2 s2 cs2 -> (p < p2)%nat.
Proof.
  intros H. inv H.
  match goal with H : matches _ (Seq (Chr _) _) _ _ _ _ _ _ |- _ => inv H end.
  match goal with H : matches _ (Chr _) _ _ _ _ _ _ |- _ => inv H end.
  repeat match goal with
         | H : matches _ _ _ _ _ _ _ _ |- _ =>
             let m := fresh "m" in
             pose proof (matches_span H) as (m & _ & ?); clear H
         end.
  lia.
Qed.

Lemma relationship_match start s0 stop rest cs :
  matches false relPattern start s0 [] stop rest cs ->
  (start < stop)%nat /\ relationshipId (capText 1 cs).
Proof.
  intros H. split.
  { unfold relPattern in H. cbn in H. eapply matches_chr_first. exact H. }
  unfold relPattern in H. cbn in H.
  split_seq.
  match goal with H : matches _ (Grp 2 _) _ _ _ _ _ _ |- _ => inv H end.
  match goal with H : matches _ (Grp 1 _) _ _ _ _ _ _ |- _ => inv H end.
  split_seq.
  repeat match goal with H : matches _ (Chr _) _ _ _ _ _ _ |- _ => inv H end.
  match goal with H : matches _ (plus digit) _ _ _ _ _ _ |- _ =>
    apply matches_rep_cls in H; destruct H as (ds & -> & -> & Hds) end.
  drop_nocap.
  exists ds. unfold capText. cbn [cap Nat.eqb]. split.
  - unfold chrMatches in *.
    repeat match goal with
           | H : (_ =? _) = true |- _ => apply N.eqb_eq in H; subst
           end.
    match goal with
    | |- firstn ?n _ = _ => replace n with (3 + List.length ds)%nat by lia
    end.
    cbn [Nat.add firstn]. do 3 f_equal.
    replace (List.length ds) with (List.length ds + 0)%nat by lia.
    rewrite firstn_app_2. cbn [firstn]. rewrite app_nil_r. reflexivity.
  - eapply Forall_impl; [|exact Hds]. unfold clsMatches, in_ranges, isDigitUnit.
    cbn [existsb fst snd]. intros a Ha. clear - Ha. lia.
Qed.

Lemma execAll_relationships_fuel (s : jsstring) (extra : nat) :
  execLoop relPattern (S (List.length s) + extra) 0 s = execAll relPattern s.
Proof.
  unfold execAll. induction extra as [|extra IH].
  - rewrite Nat.add_0_r. reflexivity.
  - rewrite <- IH. replace (S (List.length s) + S extra)%nat
      with (S (S (List.length s) + extra)) by lia.
    apply execLoop_fuel; [|lia].
    intros start s0 stop rest cs H. apply relationship_match in H. apply H.
Qed.

Lemma untilUnit_free sep s : Forall (fun c => c <> sep) (untilUnit sep s).
Proof.
  induction s as [|c s IH]; cbn [untilUnit]; [constructor|].
  destruct (c =? sep) eqn:E; constructor; [lia | exact IH].
Qed.

(** A last segment holds no separator. *)
Lemma lastSegment_free sep s : Forall (fun c => c <> sep) (lastSegment sep s).
Proof.
  unfold lastSegment. apply Forall_rev. apply untilUnit_free.
Qed.

Lemma mapSet_keys k v m :
  map fst (mapSet k v m) = if existsb (jsstring_eqb k) (map fst m) then map fst m
                           else map fst m ++ [k].
Proof.
  induction m as [|[k1 v1] m IH]; cbn [mapSet map fst existsb]; [reflexivity|].
  destruct (jsstring_eqb k1 k) eqn:E.
  - apply jsstring_eqb_eq in E. subst k1.
    assert (Hk : jsstring_eqb k k = true) by (apply jsstring_eqb_eq; reflexivity).
    rewrite Hk. reflexivity.
  - assert (Hk : jsstring_eqb k k1 = false).
    { destruct (jsstring_eqb k k1) eqn:E1; [|reflexivity].
      apply jsstring_eqb_eq in E1. subst k1.
      assert (jsstring_eqb k k = true) by (apply jsstring_eqb_eq; reflexivity). congruence. }
    rewrite Hk. cbn [map fst orb]. rewrite IH.
    destruct (existsb (jsstring_eqb k) (map fst m)); reflexivity.
Qed.

Lemma mapSet_In k v m kv : In kv (mapSet k v m) -> kv = (k, v) \/ In kv m.
Proof.
  induction m as [|[k1 v1] m IH]; cbn [mapSet In].
  - intros [H | []]; auto.
  - destruct (jsstring_eqb k1 k); cbn [In]; intros [H | H]; auto.
    destruct (IH H); auto.
Qed.

Lemma mapSet_inv k v m :
  relationshipId k -> Forall (fun c => c <> 47) v -> relMapInv m -> relMapInv (mapSet k v m).
Proof.
  intros Hk Hv [Hnd Hall]. split.
  - rewrite mapSet_keys. destruct (existsb (jsstring_eqb k) (map fst m)) eqn:E; [exact Hnd|].
    apply NoDup_app; [exact Hnd | repeat constructor; intros [] |].
    intros x Hx [Hkx | []]. subst x.
    assert (Ht : existsb (jsstring_eqb k) (map fst m) = true).
    { apply existsb_exists. exists k. split; [exact Hx | apply jsstring_eqb_eq; reflexivity]. }
    congruence.
  - apply Forall_forall. intros kv Hin. apply mapSet_In in Hin.
    destruct Hin as [-> | Hin]; [split; assumption|].
    rewrite Forall_forall in Hall. apply Hall. exact Hin.
Qed.

Lemma readRelationships_inv content : relMapInv (readRelationships content).
Proof.
  unfold readRelationships.
  assert (G : forall l m,
    (forall cs, In cs l -> relationshipId (capText 1 cs)) ->
    relMapInv m -> relMapInv (fold_left relStep l m)).
  { induction l as [|cs l IH]; intros m Hl Hm; cbn [fold_left]; [exact Hm|].
    apply IH; [intros cs0 H0; apply Hl; right; exact H0|].
    unfold relStep. cbv zeta. destruct (includes _ _); [|exact Hm].
    apply mapSet_inv; [apply Hl; left; reflexivity | apply lastSegment_free | exact Hm]. }
  apply G.
  - intros cs Hcs. apply execLoop_sound in Hcs.
    destruct Hcs as (start & s0 & stop & rest & Hm). apply (relationship_match Hm).
  - split; constructor.
Qed.

Lemma relationshipOf_spec m filename :
  (relationshipOf m filename = []
   /\ Forall (fun kv => snd kv <> filename \/ fst kv = []) m)
  \/ In (relationshipOf m filename, filename) m.
Proof.
  unfold relationshipOf.
  destruct (find (fun kv => jsstring_eqb (snd kv) filename) m) as [[rid v]|] eqn:E.
  - right. apply find_some in E. destruct E as [Hin Hv]. cbn [snd] in Hv.
    apply jsstring_eqb_eq in Hv. subst v. exact Hin.
  - left. split; [reflexivity|]. apply Forall_forall. intros kv Hin. left.
    pose proof (find_none _ _ E kv Hin) as Hn. cbn beta in Hn. intros Heq.
    assert (Ht : jsstring_eqb (snd kv) filename = true) by (apply jsstring_eqb_eq; exact Heq).
    pose proof (eq_trans (eq_sym Ht) Hn) as Hf. discriminate Hf.
Qed.

(** X18.  The relationship map [extractImages] returns has pairwise distinct keys,
    each of the form [rId] followed by decimal digits, and file names
    without a slash as values.  The relationship id of a returned image is a
    key of the map whose value is the file name of the image, or the empty
    string when the map has no such key. *)
Theorem extractImages_relationships (relsContent : option Read) (entries : list ZipEntry) :
  let images := fst (extractImages relsContent entries) in
  let imageRelMap := snd (extractImages relsContent entries) in
  NoDup (map fst imageRelMap)
  /\ Forall (fun kv => relationshipId (fst kv) /\ Forall (fun c => c <> 47) (snd kv))
       imageRelMap
  /\ Forall (fun x => In (x_rId x, x_filename x) imageRelMap
                      \/ (x_rId x = []
                          /\ Forall (fun kv => snd kv <> x_filename x) imageRelMap))
       images.
Proof.
  cbv zeta.
  assert (G : forall m, relMapInv m ->
    NoDup (map fst m)
    /\ Forall (fun kv => relationshipId (fst kv) /\ Forall (fun c => c <> 47) (snd kv)) m
    /\ Forall (fun x => In (x_rId x, x_filename x) m
                        \/ (x_rId x = [] /\ Forall (fun kv => snd kv <> x_filename x) m))
         (entryLoop m entries [])).
  { intros m [Hnd Hall]. split; [exact Hnd|]. split; [exact Hall|].
    rewrite entryLoop_images. cbn [app List.length].
    eapply Forall_impl; [|apply imagesFrom_fields].
    intros x [Hr _]. rewrite Hr.
    destruct (relationshipOf_spec m (x_filename x)) as [[He Hno] | Hin]; [|left; exact Hin].
    right. split; [exact He|]. apply Forall_forall. intros kv Hkv.
    rewrite Forall_forall in Hno, Hall. destruct (Hno kv Hkv) as [H | H]; [exact H|].
    destruct (Hall kv Hkv) as [(ds & Hk & _) _].
    pose proof (eq_trans (eq_sym H) Hk) as Hf. discriminate Hf. }
  assert (E0 : relMapInv []) by (split; constructor).
  destruct relsContent as [[content|]|]; cbn [extractImages fst snd].
  - apply G. destruct (truthy content); [apply readRelationships_inv | exact E0].
  - repeat split; constructor.
  - apply G. exact E0.
Qed.

Lemma toLowerCase_no_capital (s : jsstring) :
  forallb (fun c => negb ((65 <=? c) && (c <=? 90))) (toLowerCase s) = true.
Proof.
  induction s as [|c s IH]; cbn [toLowerCase map forallb]; [reflexivity|].
  apply andb_true_iff. split; [|exact IH].
  unfold toLowerUnit. repeat break_if; lia.
Qed.

Lemma jsstring_eqb_false (a b : jsstring) : jsstring_eqb a b = false -> a <> b.
Proof.
  intros H E. apply jsstring_eqb_eq in E. congruence.
Qed.

Lemma contentTypeOf_checked (e : jsstring) :
  contentTypeChecked (toLowerCase e) (contentTypeOf (toLowerCase e)).
Proof.
  pose proof (toLowerCase_no_capital e) as Hlow.
  set (ext := toLowerCase e) in *. clearbody ext.
  unfold contentTypeOf. cbn [find contentTypes fst].
  repeat match goal with
         | |- context [jsstring_eqb (utf8 ?k) ext] =>
             let E := fresh "E" in
             destruct (jsstring_eqb (utf8 k) ext) eqn:E;
             [ apply jsstring_eqb_eq in E; subst ext; cbn [contentTypeChecked];
               split; intros H; first [discriminate H | reflexivity | vm_compute; reflexivity]
             | apply jsstring_eqb_false in E ]
         end.
  destruct (existsb (jsstring_eqb ext) objectPrototypeKeys) eqn:Ek.
  - cbn [contentTypeChecked]. split; [reflexivity|].
    apply existsb_exists in Ek. destruct Ek as (k & Hk & Hkk).
    apply jsstring_eqb_eq in Hkk. subst k.
    unfold objectPrototypeKeys in Hk. cbn [In] in Hk.
    repeat match goal with
           | H : _ \/ _ |- _ => destruct H as [H | H]
           end;
      try contradiction;
      try (left; symmetry; exact Hk);
      try (right; symmetry; exact Hk);
      (subst ext; vm_compute in Hlow; discriminate Hlow).
  - cbn [contentTypeChecked]. split; intros H; [vm_compute in H; discriminate H|].
    congruence.
Qed.

(** X19.  Every image [extractImages] returns with a string as content type has
    a web-compatible one, unless the lowercased extension of its file name
    is [bmp]; for the extensions [constructor] and [__proto__], and for them
    only, the lookup in the table of content types yields a member of
    [Object.prototype] and the image has no string as content type. *)
Theorem extracted_content_types (relsContent : option Read) (entries : list ZipEntry) :
  Forall (fun x => contentTypeChecked (toLowerCase (lastSegment 46 (x_filename x)))
                     (x_contentType x))
    (fst (extractImages relsContent entries))
  /\ contentTypeOf (utf8 "constructor") = Inherited (utf8 "constructor")
  /\ contentTypeOf (utf8 "__proto__") = Inherited (utf8 "__proto__").
Proof.
  split; [|split; reflexivity].
  assert (G : forall m, Forall
    (fun x => contentTypeChecked (toLowerCase (lastSegment 46 (x_filename x)))
                (x_contentType x)) (entryLoop m entries [])).
  { intros m. rewrite entryLoop_images. cbn [app List.length].
    eapply Forall_impl; [|apply imagesFrom_fields].
    intros x [_ Hc]. rewrite Hc. apply contentTypeOf_checked. }
  destruct relsContent as [[content|]|]; cbn [extractImages fst]; [apply G | constructor | apply G].
Qed.

(** ** Scoring: the sections of a question list *)

Lemma stringOfN_digits n : Forall (fun c => isDigitUnit c = true) (stringOfN n).
Proof. apply parseInt_stringOfN. Qed.

(** Reading back the decimal rendering of an integer gives the integer. *)
Lemma parseIntSigned_stringOfZ (z : Z) : Scoring.parseIntSigned (stringOfZ z) = z.
Proof.
  assert (G : forall n, Scoring.parseIntSigned (stringOfN n) = Z.of_N n).
  { intros n. pose proof (stringOfN_digits n) as Hd. pose proof (parseInt_stringOfN n) as [Hv _].
    unfold Scoring.parseIntSigned. destruct (stringOfN n) as [|c ds]; [exact Hv|].
    inversion Hd; subst. unfold isDigitUnit in *.
    destruct c as [|p]; [exact Hv|].
    destruct (N.eq_dec (N.pos p) 45) as [E|E]; [lia|].
    repeat (destruct p as [p|p|]; try exact Hv; try (exfalso; apply E; reflexivity)). }
  destruct z as [|p|p]; cbn [stringOfZ].
  - apply (G 0).
  - rewrite G. cbn. reflexivity.
  - unfold Scoring.parseIntSigned. rewrite (proj1 (parseInt_stringOfN (N.pos p))). reflexivity.
Qed.

Lemma stringOfZ_inj a b : stringOfZ a = stringOfZ b -> a = b.
Proof.
  intros H. rewrite <- (parseIntSigned_stringOfZ a), <- (parseIntSigned_stringOfZ b), H.
  reflexivity.
Qed.

Lemma sectionKey_inj a b : Scoring.sectionKey a = Scoring.sectionKey b -> a = b.
Proof.
  unfold Scoring.sectionKey. intros H. apply app_inv_head in H. apply stringOfZ_inj. exact H.
Qed.

Lemma sortKey_sectionKey c p :
  Scoring.sectionId c = Scoring.sectionKey p -> Scoring.sortKey c = p.
Proof.
  intros H. unfold Scoring.sortKey. rewrite H. unfold Scoring.sectionKey, replaceString.
  cbn -[stringOfZ Scoring.parseIntSigned]. apply parseIntSigned_stringOfZ.
Qed.

Lemma jsstring_eqb_refl (a : jsstring) : jsstring_eqb a a = true.
Proof. apply jsstring_eqb_eq. reflexivity. Qed.

Lemma jsstring_eqb_neq (a b : jsstring) : a <> b -> jsstring_eqb a b = false.
Proof.
  intros H. destruct (jsstring_eqb a b) eqn:E; [|reflexivity].
  apply jsstring_eqb_eq in E. contradiction.
Qed.










(** *** The sort *)










Lemma div_hundred (k x : Z) : (k * 100 <= x < k * 100 + 100)%Z -> (x / 100 = k)%Z.
Proof.
  intros H. symmetry. apply (Z.div_unique x 100 k (x - k * 100)); lia.
Qed.

Lemma countInto_absent key ty p m :
  ~ In key (map fst m) ->
  Scoring.countInto key ty p m
  = m ++ [(key, {| Scoring.tally_type := ty; Scoring.tally_count := 1;
                   Scoring.tally_part := p |})].
Proof.
  induction m as [|[k1 t1] m IH]; intros H; cbn [Scoring.countInto app]; [reflexivity|].
  cbn [map fst In] in H. rewrite jsstring_eqb_neq by (intros E; apply H; left; exact E).
  rewrite IH by (intros E; apply H; right; exact E). reflexivity.
Qed.

Lemma countInto_last key ty p m ty0 n p0 :
  ~ In key (map fst m) ->
  Scoring.countInto key ty p
    (m ++ [(key, {| Scoring.tally_type := ty0; Scoring.tally_count := n;
                    Scoring.tally_part := p0 |})])
  = m ++ [(key, {| Scoring.tally_type := ty0; Scoring.tally_count := n + 1;
                   Scoring.tally_part := p0 |})].
Proof.
  induction m as [|[k1 t1] m IH]; intros H; cbn [Scoring.countInto app].
  - rewrite jsstring_eqb_refl. reflexivity.
  - cbn [map fst In] in H. rewrite jsstring_eqb_neq by (intros E; apply H; left; exact E).
    rewrite IH by (intros E; apply H; right; exact E). reflexivity.
Qed.

(** The questions of one part, all of one type, add one entry at the end of
    the map. *)
Lemma tally_one_part (k : Z) (ty : QuestionType) (qs : list Question) m :
  Forall (fun q => Scoring.partOf q = k /\ Scoring.mapQuestionType (q_type q) = ty) qs ->
  ~ In (Scoring.sectionKey k) (map fst m) ->
  fold_left Scoring.tallyStep qs m
  = m ++ (if nonEmptyList qs
          then [(Scoring.sectionKey k,
                 {| Scoring.tally_type := ty;
                    Scoring.tally_count := Z.of_nat (List.length qs);
                    Scoring.tally_part := k |})]
          else []).
Proof.
  intros Hqs Hno. destruct qs as [|q qs]; cbn [nonEmptyList fold_left].
  - rewrite app_nil_r. reflexivity.
  - inversion Hqs as [|? ? [Hk Hty] Hrest]; subst.
    unfold Scoring.tallyStep at 2. cbv zeta. rewrite countInto_absent by exact Hno.
    clear Hqs.
    assert (G : forall rest n,
      Forall (fun q0 => Scoring.partOf q0 = Scoring.partOf q /\
                        Scoring.mapQuestionType (q_type q0)
                        = Scoring.mapQuestionType (q_type q)) rest ->
      fold_left Scoring.tallyStep rest
        (m ++ [(Scoring.sectionKey (Scoring.partOf q),
                {| Scoring.tally_type := Scoring.mapQuestionType (q_type q);
                   Scoring.tally_count := n; Scoring.tally_part := Scoring.partOf q |})])
      = m ++ [(Scoring.sectionKey (Scoring.partOf q),
               {| Scoring.tally_type := Scoring.mapQuestionType (q_type q);
                  Scoring.tally_count := n + Z.of_nat (List.length rest);
                  Scoring.tally_part := Scoring.partOf q |})]).
    { induction rest as [|x rest IH]; intros n Hr; cbn [fold_left List.length].
      - rewrite Z.add_0_r. reflexivity.
      - inversion Hr as [|? ? [Hx _] Hr1]; subst.
        unfold Scoring.tallyStep at 2. cbv zeta. rewrite Hx.
        rewrite countInto_last by exact Hno. rewrite IH by exact Hr1.
        replace (n + 1 + Z.of_nat (List.length rest))%Z
          with (n + Z.of_nat (S (List.length rest)))%Z by lia.
        reflexivity. }
    rewrite G by exact Hrest.
    replace (1 + Z.of_nat (List.length qs))%Z
      with (Z.of_nat (List.length (q :: qs))) by (cbn [List.length]; lia).
    reflexivity.
Qed.

Lemma insertSection_last c l :
  Forall (fun x => (Scoring.sortKey x <= Scoring.sortKey c)%Z) l ->
  Scoring.insertSection c l = l ++ [c].
Proof.
  induction l as [|x l IH]; intros H; cbn [Scoring.insertSection app]; [reflexivity|].
  inversion H; subst. replace (Scoring.sortKey c <? Scoring.sortKey x)%Z with false by lia.
  rewrite IH by assumption. reflexivity.
Qed.

(** Sorting a list that is in order leaves it as it is. *)
Lemma sortSections_in_order l :
  StronglySorted (fun a b => (Scoring.sortKey a <= Scoring.sortKey b)%Z) l ->
  Scoring.sortSections l = l.
Proof.
  unfold Scoring.sortSections. intros H.
  assert (G : forall rest acc,
    StronglySorted (fun a b => (Scoring.sortKey a <= Scoring.sortKey b)%Z) (acc ++ rest) ->
    fold_left (fun acc c => Scoring.insertSection c acc) rest acc = acc ++ rest).
  { induction rest as [|c rest IH]; intros acc Hs; cbn [fold_left].
    - rewrite app_nil_r. reflexivity.
    - rewrite insertSection_last.
      + rewrite IH; rewrite <- app_assoc; [reflexivity | exact Hs].
      + clear IH. induction acc as [|a acc IHa]; [constructor|].
        cbn [app] in Hs. inversion Hs as [|? ? Hs1 Hall]; subst.
        constructor; [|apply IHa; exact Hs1].
        rewrite Forall_forall in Hall. apply Hall. apply in_or_app. right. left. reflexivity. }
  apply (G l []). exact H.
Qed.

Lemma sorted_by_part (l : list (jsstring * Scoring.SectionTally)) :
  Forall (fun kv => fst kv = Scoring.sectionKey (Scoring.tally_part (snd kv))) l ->
  StronglySorted (fun a b => (Scoring.tally_part (snd a) <= Scoring.tally_part (snd b))%Z) l ->
  StronglySorted (fun a b => (Scoring.sortKey a <= Scoring.sortKey b)%Z)
    (map Scoring.toConfig l).
Proof.
  intros Hk Hs. induction Hs as [|x l Hs IH Hall]; cbn [map]; [constructor|].
  inversion Hk as [|? ? Hx Hk1]; subst. constructor; [apply IH; exact Hk1|].
  apply Forall_map. rewrite Forall_forall in *. intros y Hy.
  rewrite (@sortKey_sectionKey (Scoring.toConfig x) _ Hx).
  rewrite (@sortKey_sectionKey (Scoring.toConfig y) _ (Hk1 y Hy)).
  apply Hall. exact Hy.
Qed.

Lemma scoring_three_parts (Q1 Q2 Q3 : list Question) :
  Forall (fun q => Scoring.partOf q = 1%Z
                   /\ Scoring.mapQuestionType (q_type q) = multiple_choice) Q1 ->
  Forall (fun q => Scoring.partOf q = 2%Z
                   /\ Scoring.mapQuestionType (q_type q) = true_false) Q2 ->
  Forall (fun q => Scoring.partOf q = 3%Z
                   /\ Scoring.mapQuestionType (q_type q) = short_answer) Q3 ->
  map configSummary (Scoring.detectSections (Q1 ++ Q2 ++ Q3))
  = (if nonEmptyList Q1
     then [(Scoring.sectionKey 1, multiple_choice, Z.of_nat (List.length Q1))] else [])
    ++ (if nonEmptyList Q2
        then [(Scoring.sectionKey 2, true_false, Z.of_nat (List.length Q2))] else [])
    ++ (if nonEmptyList Q3
        then [(Scoring.sectionKey 3, short_answer, Z.of_nat (List.length Q3))] else []).
Proof.
  intros H1 H2 H3. unfold Scoring.detectSections. rewrite !fold_left_app.
  assert (N12 : Scoring.sectionKey 2 <> Scoring.sectionKey 1)
    by (intros E; apply sectionKey_inj in E; discriminate).
  assert (N13 : Scoring.sectionKey 3 <> Scoring.sectionKey 1)
    by (intros E; apply sectionKey_inj in E; discriminate).
  assert (N23 : Scoring.sectionKey 3 <> Scoring.sectionKey 2)
    by (intros E; apply sectionKey_inj in E; discriminate).
  rewrite (tally_one_part _ H1) by (intros []).
  rewrite (tally_one_part _ H2)
    by (destruct Q1; cbn; [intros [] | intros [E | []]; apply N12; symmetry; exact E]).
  rewrite (tally_one_part _ H3)
    by (destruct Q1; destruct Q2; cbn; intuition congruence).
  rewrite sortSections_in_order.
  - clear. destruct Q1; destruct Q2; destruct Q3; reflexivity.
  - apply sorted_by_part.
    + clear. destruct Q1; destruct Q2; destruct Q3; cbn; repeat constructor.
    + clear. destruct Q1; destruct Q2; destruct Q3; cbn;
        repeat (constructor; cbn; try lia).
Qed.

(** X21.  Scoring recovers the sections of a parsed exam: when every question's
    number is below the first number of the next section (the authored
    number is below 100), [scoringService.detectSections] applied to the
    questions of the exam finds the sections of the exam, in order, each
    under the key of its part, with its type and its number of questions. *)
Theorem scoring_recovers_exam_sections (paragraphs : list ParagraphData)
  (images : list ImageData) :
  let exam := parseAllQuestions paragraphs images in
  Forall (fun q => (q_number q < 100 * (sectionPart (q_type q) + 1))%Z) (questions exam) ->
  map configSummary (Scoring.detectSections (questions exam))
  = map sectionSummary (sections exam).
Proof.
  cbv zeta. intros Hlt.
  destruct (parseAllQuestions_sections paragraphs images)
    as (n1 & d1 & n2 & d2 & n3 & d3 & Hs).
  pose proof (parseAllQuestions_questions paragraphs images) as Hq.
  cbv zeta in Hs, Hq. rewrite Hs. rewrite Hq in Hlt |- *. clear Hs Hq.
  set (info := detectSections _ paragraphs) in *.
  set (l1 := Part1.parsePart1WithUnderline _ _ _ _) in *.
  set (l2 := Part2.parsePart2 _ _ _ _) in *.
  set (l3 := Part3.parsePart3 _ _ _ _) in *.
  assert (H1 : Forall (authored paragraphs 1 multiple_choice) l1).
  { apply p1_parse_stable; [apply authored_stable | apply authored_opens]. }
  assert (H2 : Forall (authored paragraphs 2 true_false) l2).
  { apply p2_parse_stable; [apply authored_stable | apply authored_opens]. }
  assert (H3 : Forall (authored paragraphs 3 short_answer) l3).
  { apply p3_parse_stable; [apply authored_stable | apply authored_opens]. }
  clearbody l1 l2 l3. clear info.
  rewrite !map_app in Hlt |- *.
  apply Forall_app in Hlt. destruct Hlt as [L1 L23].
  apply Forall_app in L23. destruct L23 as [L2 L3].
  assert (P : forall k ty l,
    (1 <= k)%Z -> sectionPart ty = k -> Scoring.mapQuestionType ty = ty ->
    Forall (authored paragraphs k ty) l ->
    Forall (fun q => (q_number q < 100 * (sectionPart (q_type q) + 1))%Z)
      (map (fun pq => convertToQuestion pq 0) l) ->
    Forall (fun q => Scoring.partOf q = k /\ Scoring.mapQuestionType (q_type q) = ty)
      (map (fun pq => convertToQuestion pq 0) l)).
  { intros k ty l Hk Hsp Hmap Ha Hl. apply Forall_map. rewrite Forall_map in Hl.
    rewrite Forall_forall in *. intros pq Hin. specialize (Hl pq Hin).
    pose proof (authored_nonneg (Ha pq Hin)) as Hn.
    destruct (Ha pq Hin) as (Hp & Hty & _).
    cbn [convertToQuestion q_number q_type] in *. rewrite Hty in *. rewrite Hsp, Hp in *.
    split; [|exact Hmap]. unfold Scoring.partOf. cbn [convertToQuestion q_number]. cbv zeta.
    rewrite Hp. rewrite (@div_hundred k) by lia.
    destruct (k =? 0)%Z eqn:E; [lia | reflexivity]. }
  rewrite scoring_three_parts;
    [ | apply (P 1%Z multiple_choice); auto; lia
      | apply (P 2%Z true_false); auto; lia
      | apply (P 3%Z short_answer); auto; lia ].
  destruct l1; destruct l2; destruct l3; unfold sectionSummary;
    cbn [map app nonEmptyList s_sectionType s_questions sectionPart List.length];
    rewrite ?length_map; reflexivity.
Qed.

(** X21, witness. *)
Lemma scoring_recovers_witness :
  map configSummary (Scoring.detectSections (questions (parseAllQuestions scenarioDoc [])))
  = map sectionSummary (sections (parseAllQuestions scenarioDoc [])).
Proof.
  apply (@scoring_recovers_exam_sections scenarioDoc []).
  vm_compute. repeat constructor.
Defined.

(** ** Scoring: normalised answers *)

(** Once an iteration is done, the quantifier [\s+] always succeeds: it
    consumes white space only. *)
Lemma spaces_repeat fuel : forall n p t c,
  (1 <= n)%nat ->
  exists m rest,
    repeatMatcher (rmatch false ws) true 1 None ret (S fuel) n p t c
    = Some ((p + List.length m)%nat, rest, c)
    /\ t = m ++ rest /\ Forall (fun x => isSpace x = true) m.
Proof.
  induction fuel as [|fuel IH]; intros n p t c Hn; rewrite repeatMatcher_S; cbv zeta;
    cbn [below]; replace (Nat.leb 1 n) with true by (symmetry; apply Nat.leb_le; exact Hn).
  - exists [], t. cbn [andb]. unfold ws at 1. cbn [rmatch].
    destruct t as [|x t1].
    + cbn. rewrite Nat.add_0_r. auto.
    + destruct (clsMatches false ws_ranges x) eqn:E.
      * destruct (Nat.eqb (S p) p); cbn [repeatMatcher]; unfold ret; cbn;
          rewrite Nat.add_0_r; auto.
      * unfold ret. cbn. rewrite Nat.add_0_r. auto.
  - unfold ws at 1. cbn [rmatch]. destruct t as [|x t1].
    + exists [], []. unfold ret. cbn. rewrite Nat.add_0_r. auto.
    + destruct (clsMatches false ws_ranges x) eqn:E.
      * cbn [andb]. replace (Nat.eqb (S p) p) with false by (symmetry; apply Nat.eqb_neq; lia).
        destruct (IH (S n) (S p) t1 c ltac:(lia)) as (m & rest & Hr & Ht & Hm).
        fold ws. rewrite Hr. exists (x :: m), rest. cbn [List.length app].
        split; [f_equal; f_equal; f_equal; lia|]. split; [rewrite Ht; reflexivity|].
        constructor; [exact E | exact Hm].
      * exists [], (x :: t1). unfold ret. cbn. rewrite Nat.add_0_r. auto.
Qed.

Lemma spaces_match_head x t pos :
  isSpace x = true ->
  exists m rest,
    rmatch false (plus ws) ret pos (x :: t) [] = Some ((pos + S (List.length m))%nat, rest, [])
    /\ t = m ++ rest /\ Forall (fun y => isSpace y = true) m.
Proof.
  intros Hx. unfold plus. cbn [rmatch]. cbn [List.length].
  replace (S (List.length t) + 1 + 1)%nat with (S (S (S (List.length t)))) by lia.
  rewrite repeatMatcher_S. cbv zeta. cbn [below Nat.leb andb].
  unfold ws at 1. cbn [rmatch]. unfold clsMatches. fold (isSpace x). rewrite Hx.
  destruct (@spaces_repeat (S (List.length t)) 1 (S pos) t [] ltac:(lia))
    as (m & rest & Hr & Ht & Hm).
  fold ws. rewrite Hr. exists m, rest. split; [|auto].
  f_equal. f_equal. f_equal. lia.
Qed.

Lemma spaces_fail_head x t pos :
  isSpace x = false -> rmatch false (plus ws) ret pos (x :: t) [] = None.
Proof.
  intros Hx. unfold plus. cbn [rmatch]. cbn [List.length].
  replace (S (List.length t) + 1 + 1)%nat with (S (S (S (List.length t)))) by lia.
  rewrite repeatMatcher_S. cbv zeta. cbn [below Nat.leb andb].
  unfold ws at 1. cbn [rmatch]. unfold clsMatches. fold (isSpace x). rewrite Hx. reflexivity.
Qed.

Lemma spaces_search_none s : forall pos,
  Forall (fun x => isSpace x = false) s -> searchFrom false (plus ws) pos s = None.
Proof.
  induction s as [|x s IH]; intros pos H; cbn [searchFrom].
  - reflexivity.
  - inversion H; subst. rewrite spaces_fail_head by assumption. apply IH. assumption.
Qed.

Lemma spaces_search_some pre x t : forall pos,
  Forall (fun y => isSpace y = false) pre -> isSpace x = true ->
  exists m rest,
    searchFrom false (plus ws) pos (pre ++ x :: t)
    = Some ((pos + List.length pre)%nat,
            ((pos + List.length pre + S (List.length m))%nat, rest, []))
    /\ t = m ++ rest /\ Forall (fun y => isSpace y = true) m.
Proof.
  induction pre as [|y pre IH]; intros pos Hpre Hx; cbn [app List.length].
  - destruct (@spaces_match_head x t pos Hx) as (m & rest & Hr & Ht & Hm).
    exists m, rest. cbn [searchFrom]. rewrite Hr, Nat.add_0_r. auto.
  - inversion Hpre; subst. cbn [searchFrom]. rewrite spaces_fail_head by assumption.
    destruct (IH (S pos) ltac:(assumption) Hx) as (m & rest & Hr & Ht & Hm).
    exists m, rest. rewrite Hr. split; [|auto].
    replace (S pos + List.length pre)%nat with (pos + S (List.length pre))%nat by lia.
    reflexivity.
Qed.

Lemma first_space (s : jsstring) :
  Forall (fun x => isSpace x = false) s
  \/ exists pre x t, s = pre ++ x :: t /\ Forall (fun y => isSpace y = false) pre
                     /\ isSpace x = true.
Proof.
  induction s as [|x s IH]; [left; constructor|].
  destruct (isSpace x) eqn:E.
  - right. exists [], x, s. split; [reflexivity|]. split; [constructor | exact E].
  - destruct IH as [H | (pre & y & t & -> & H & Hy)].
    + left. constructor; assumption.
    + right. exists (x :: pre), y, t. split; [reflexivity|].
      split; [constructor; assumption | exact Hy].
Qed.

Lemma withoutSpaces_none s : Forall (fun x => isSpace x = false) s -> withoutSpaces s = s.
Proof.
  unfold withoutSpaces. induction s as [|x s IH]; intros H; cbn [filter]; [reflexivity|].
  inversion H; subst. rewrite H2. cbn [negb]. rewrite IH by assumption. reflexivity.
Qed.

Lemma withoutSpaces_all s : Forall (fun x => isSpace x = true) s -> withoutSpaces s = [].
Proof.
  unfold withoutSpaces. induction s as [|x s IH]; intros H; cbn [filter]; [reflexivity|].
  inversion H; subst. rewrite H2. cbn [negb]. apply IH. assumption.
Qed.

(** [s.replace(/\s+/g, '')] removes the white space of [s], and nothing
    else. *)
Lemma replaceAll_spaces s : replaceAll false (plus ws) [] s = withoutSpaces s.
Proof.
  unfold replaceAll.
  assert (G : forall whole fuel t pos, (List.length t < fuel)%nat ->
    snd (replaceFrom false (plus ws)
           (fun (_ : unit) cs matched before after =>
              (tt, getSubstitution (ngroups (plus ws)) cs matched before after []))
           whole fuel tt pos t)
    = withoutSpaces t).
  { intros whole. induction fuel as [|fuel IH]; intros t pos Hf; [lia|].
    rewrite replaceFrom_S.
    destruct (first_space t) as [H | (pre & x & t1 & -> & H & Hx)].
    - rewrite spaces_search_none by exact H. cbn [snd].
      rewrite withoutSpaces_none by exact H. reflexivity.
    - destruct (@spaces_search_some pre x t1 pos H Hx) as (m & rest & Hr & -> & Hm).
      rewrite Hr. cbv zeta. cbn [getSubstitution].
      replace (Nat.eqb (pos + List.length pre + S (List.length m)) (pos + List.length pre))
        with false by (symmetry; apply Nat.eqb_neq; lia).
      rewrite !length_app in Hf. cbn [List.length] in Hf. rewrite length_app in Hf.
      specialize (IH rest (pos + List.length pre + S (List.length m))%nat ltac:(lia)).
      destruct (replaceFrom _ _ _ _ fuel tt _ rest) as [u out]. cbn [snd] in *.
      replace (pos + List.length pre - pos)%nat with (List.length pre) by lia.
      rewrite firstn_app, Nat.sub_diag, firstn_all. cbn [firstn app]. rewrite !app_nil_r.
      rewrite IH. unfold withoutSpaces at 2. rewrite filter_app. cbn [filter].
      rewrite Hx. cbn [negb]. rewrite filter_app.
      fold (withoutSpaces pre). fold (withoutSpaces m). fold (withoutSpaces rest).
      rewrite (withoutSpaces_none H), (withoutSpaces_all Hm). reflexivity. }
  apply G. lia.
Qed.

Lemma replaceUnit_comma s :
  flat_map (replaceUnit 44 (utf8 ".")) s = map commaToPoint s.
Proof.
  induction s as [|c s IH]; cbn [flat_map map]; [reflexivity|].
  rewrite IH. unfold replaceUnit, commaToPoint. destruct (c =? 44); reflexivity.
Qed.

Lemma spaceless_trimmed s : Forall (fun c => isSpace c = false) s -> trimmed s.
Proof.
  intros H. destruct s as [|c t]; [exact I|]. cbn [trimmed]. rewrite Forall_forall in H.
  split; [apply H; left; reflexivity|].
  destruct (exists_last (l := c :: t) ltac:(discriminate)) as (l1 & a & E).
  rewrite E, last_last. apply H. rewrite E. apply in_or_app. right. left. reflexivity.
Qed.

Lemma withoutSpaces_spaceless s : Forall (fun c => isSpace c = false) (withoutSpaces s).
Proof.
  apply Forall_forall. intros c Hc. apply filter_In in Hc. destruct Hc as [_ Hc].
  destruct (isSpace c); [discriminate | reflexivity].
Qed.

Lemma canonical_units (s : jsstring) :
  Forall (fun c => isSpace c = false) s ->
  Forall (fun c => isSpace c = false /\ c <> 44) (map commaToPoint s).
Proof.
  intros H. apply Forall_map. eapply Forall_impl; [|exact H].
  intros c Hc. unfold commaToPoint. destruct (c =? 44) eqn:E.
  - split; [reflexivity | discriminate].
  - split; [exact Hc | lia].
Qed.

(** X22.  [normalizeAnswer], for any lowercasing function: the answer is
    lowercased, its white space is dropped and its commas become points; the
    final [trim()] has nothing left to remove.  The result holds neither
    white space nor comma, and normalising it again changes nothing as soon
    as lowercasing leaves it as it is. *)
Theorem normalizeAnswer_canonical (lowerCase : jsstring -> jsstring) (answer : jsstring) :
  let r := Scoring.normalizeAnswer lowerCase answer in
  r = map commaToPoint (withoutSpaces (lowerCase answer))
  /\ Forall (fun c => isSpace c = false /\ c <> 44) r
  /\ (lowerCase r = r -> Scoring.normalizeAnswer lowerCase r = r).
Proof.
  cbv zeta.
  assert (E : forall a, Scoring.normalizeAnswer lowerCase a
                        = map commaToPoint (withoutSpaces (lowerCase a))).
  { intros a. unfold Scoring.normalizeAnswer.
    rewrite replaceAll_spaces, replaceAll_chr by (repeat constructor; discriminate).
    rewrite replaceUnit_comma. apply trim_fixed. apply spaceless_trimmed.
    eapply Forall_impl; [|apply canonical_units, withoutSpaces_spaceless].
    intros c [Hc _]. exact Hc. }
  pose proof (canonical_units (withoutSpaces_spaceless (lowerCase answer))) as Hc.
  split; [apply E|]. split; [rewrite E; exact Hc|].
  intros Hlow. rewrite (E (Scoring.normalizeAnswer lowerCase answer)), Hlow, E.
  set (r := map commaToPoint (withoutSpaces (lowerCase answer))) in *.
  assert (Hws : withoutSpaces r = r).
  { apply withoutSpaces_none. eapply Forall_impl; [|exact Hc]. intros c [H _]. exact H. }
  rewrite Hws. clear - Hc. induction r as [|c r IH]; [reflexivity|].
  inversion Hc as [|? ? [_ Hne] Hr]; subst. cbn [map]. rewrite IH by exact Hr.
  unfold commaToPoint at 1. replace (c =? 44) with false by lia. reflexivity.
Qed.

(** X22, witness.  An answer in Basic Latin, where the case table of this development is
    that of the platform: [ 3,5 KG ] becomes [3.5kg], and normalising
    again changes nothing. *)
Lemma normalizeAnswer_witness :
  Scoring.normalizeAnswer toLowerCase (utf8 " 3,5 KG ") = utf8 "3.5kg"
  /\ Scoring.normalizeAnswer toLowerCase (utf8 "3.5kg") = utf8 "3.5kg".
Proof.
  pose proof (normalizeAnswer_canonical toLowerCase (utf8 " 3,5 KG ")) as H.
  cbv zeta in H. destruct H as (H1 & _ & H3).
  assert (E : Scoring.normalizeAnswer toLowerCase (utf8 " 3,5 KG ") = utf8 "3.5kg")
    by (rewrite H1; vm_compute; reflexivity).
  split; [exact E|]. rewrite E in H3. apply H3. vm_compute. reflexivity.
Defined.
